(** * Scrabble as adversarial search: a shallow embedding of [L5_utils.py]

    The development follows the Python module top to bottom: the module
    constants, the [Move] class, the [ScrabbleState] class (move generation,
    scoring, transition), then the two search strategies.  Python lists are
    lists, dictionaries are [gmap]s, an exception is [None] in the option
    monad, and the module-level [random] generator is an explicit stream of
    draws handed to the call that consumes it. *)

From Stdlib Require Import ZArith Lia.
From stdpp Require Import base option list gmap strings.

(** ** Module constants *)

(** [LETTER_VALUES]: a dictionary from one-letter strings to points. *)
Definition LETTER_VALUES : gmap string Z :=
  list_to_map
    [("A", 1); ("B", 3); ("C", 3); ("D", 2); ("E", 1); ("F", 4); ("G", 2);
     ("H", 4); ("I", 1); ("J", 8); ("K", 5); ("L", 1); ("M", 3); ("N", 1);
     ("O", 1); ("P", 3); ("Q", 10); ("R", 1); ("S", 1); ("T", 1); ("U", 1);
     ("V", 4); ("W", 4); ("X", 8); ("Y", 4); ("Z", 10); ("_", 0)]%Z.

Definition BOARD_SIZE : nat := 15.
Definition RACK_SIZE : nat := 7.

(** 0 = plain, 2 = double letter, 3 = triple letter, 4 = double word,
    5 = triple word. *)
Definition PREMIUM_BOARD : list (list Z) :=
  [ [0; 2; 0; 0; 0; 0; 0; 0; 0; 0; 0; 0; 0; 2; 0];
    [2; 0; 0; 0; 0; 3; 0; 0; 0; 3; 0; 0; 0; 0; 2];
    [0; 0; 4; 0; 0; 0; 2; 0; 2; 0; 0; 0; 4; 0; 0];
    [0; 0; 0; 5; 0; 0; 0; 2; 0; 0; 0; 5; 0; 0; 0];
    [0; 0; 0; 0; 4; 0; 0; 0; 0; 0; 4; 0; 0; 0; 0];
    [0; 3; 0; 0; 0; 3; 0; 0; 0; 3; 0; 0; 0; 3; 0];
    [0; 0; 2; 0; 0; 0; 2; 0; 2; 0; 0; 0; 2; 0; 0];
    [0; 0; 0; 2; 0; 0; 0; 4; 0; 0; 0; 2; 0; 0; 0];
    [0; 0; 2; 0; 0; 0; 2; 0; 2; 0; 0; 0; 2; 0; 0];
    [0; 3; 0; 0; 0; 3; 0; 0; 0; 3; 0; 0; 0; 3; 0];
    [0; 0; 0; 0; 4; 0; 0; 0; 0; 0; 4; 0; 0; 0; 0];
    [0; 0; 0; 5; 0; 0; 0; 2; 0; 0; 0; 5; 0; 0; 0];
    [0; 0; 4; 0; 0; 0; 2; 0; 2; 0; 0; 0; 4; 0; 0];
    [2; 0; 0; 0; 0; 3; 0; 0; 0; 3; 0; 0; 0; 0; 2];
    [0; 2; 0; 0; 0; 0; 0; 0; 0; 0; 0; 0; 0; 2; 0] ]%Z.

(** [PREMIUM_BOARD[r][c]]; every read of the source is at a board cell. *)
Definition premium_at (r c : nat) : Z :=
  nth c (nth r PREMIUM_BOARD []) 0%Z.

(** ** Python built-ins used by the module *)

(** [range(lo, hi)] over non-negative bounds. *)
Definition range (lo hi : nat) : list nat := seq lo (hi - lo).

(** [str.upper] on ASCII letters. *)
Definition upper_ascii (a : Ascii.ascii) : Ascii.ascii :=
  let n := Ascii.nat_of_ascii a in
  if (97 <=? n) && (n <=? 122) then Ascii.ascii_of_nat (n - 32) else a.

Fixpoint upper (s : string) : string :=
  match s with
  | EmptyString => EmptyString
  | String a s' => String (upper_ascii a) (upper s')
  end.

(** ["".join(xs)]. *)
Definition join (xs : list string) : string :=
  foldr String.append EmptyString xs.

(** [x in xs] on a list of strings. *)
Definition str_in (x : string) (xs : list string) : bool :=
  bool_decide (x ∈ xs).

(** [xs.remove(x)]: drops the first element equal to [x].  Python raises
    [ValueError] when there is none; every call of the source is guarded by
    [x in xs], where the two agree. *)
Fixpoint remove_first (x : string) (xs : list string) : list string :=
  match xs with
  | [] => []
  | y :: ys => if bool_decide (y = x) then ys else y :: remove_first x ys
  end.

(** [itertools.permutations(pool, k)]: the [k]-length arrangements of the
    positions of [pool], in lexicographic order of the position tuples;
    equal elements at different positions give repeated tuples. *)
Fixpoint permutations {A : Type} (k : nat) (pool : list A) : list (list A) :=
  match k with
  | 0 => [[]]
  | S k' =>
      flat_map
        (fun i =>
           match pool !! i with
           | Some x => map (cons x) (permutations k' (delete i pool))
           | None => []
           end)
        (seq 0 (length pool))
  end.

(** ** The [Move] class *)

(** A placed tile [(row, col, letter)].  The generator only produces
    coordinates in [0, BOARD_SIZE), and these are the coordinates a [Tile]
    holds.  A move built by hand may carry any Python integers; module
    [Signed] below follows [apply_move] on those. *)
Abbreviation Tile := (nat * nat * string)%type.

Definition tile_row (t : Tile) : nat := t.1.1.
Definition tile_col (t : Tile) : nat := t.1.2.
Definition tile_letter (t : Tile) : string := t.2.

Record Move : Type := mkMove {
  tiles_placed : list Tile;
  score : Z;
  is_pass : bool
}.

(** [Move([], 0, is_pass=True)]. *)
Definition pass_move : Move := mkMove [] 0 true.

#[global] Instance Move_eq_dec : EqDecision Move.
Proof. solve_decision. Defined.

Module MoveClass.

(** [Move.__eq__]: [zip] stops at the shorter of the two tile lists. *)
Definition __eq__ (self value : Move) : bool :=
  forallb (fun p : Tile * Tile => bool_decide (p.1 = p.2))
          (zip (tiles_placed self) (tiles_placed value))
  && bool_decide (score self = score value)
  && bool_decide (is_pass self = is_pass value).

Section Hash.
(** Python's built-in [hash] on the pair [(tuple(tiles), is_pass)];
    the interpreter's function, kept abstract. *)
Variable hash : list Tile * bool -> Z.

(** [Move.__hash__]. *)
Definition __hash__ (self : Move) : Z :=
  hash (tiles_placed self, is_pass self).
End Hash.

End MoveClass.

(** ** The board *)

Abbreviation Board := (list (list string)).

(** [board[r][c]] for a cell of the 15 x 15 grid; the source reads the
    board only under the guards [0 <= r < BOARD_SIZE], [0 <= c < BOARD_SIZE].
    On a board that lacks one of these cells the Python raises [IndexError]
    where [cell] answers the empty string: what is said about the functions
    that read the board is said of boards with all 15 x 15 cells
    ([wf_board] below). *)
Definition cell (b : Board) (r c : nat) : string :=
  nth c (nth r b []) EmptyString.

(** [s != ""]. *)
Definition filled (s : string) : bool :=
  negb (bool_decide (s = EmptyString)).

(** [[["" for _ in range(BOARD_SIZE)] for _ in range(BOARD_SIZE)]]. *)
Definition empty_board : Board :=
  replicate BOARD_SIZE (replicate BOARD_SIZE EmptyString).

(** [temp_board[row][col] = letter] on a scratch copy of the board. *)
Definition set_cell (b : Board) (r c : nat) (x : string) : Board :=
  <[r := <[c := x]> (nth r b [])]> b.

(** [for row, col, letter in tiles: temp_board[row][col] = letter]. *)
Definition place_tiles (b : Board) (tiles : list Tile) : Board :=
  foldl (fun acc t => set_cell acc (tile_row t) (tile_col t) (tile_letter t))
        b tiles.

(** The same loop on [next_state.board] in [apply_move], where the tiles
    come from the caller: an index past the grid raises [IndexError].
    The coordinates are natural numbers; [Signed.write_tiles] below is the
    loop on any Python integers, negative indices included. *)
Fixpoint write_tiles (b : Board) (tiles : list Tile) : option Board :=
  match tiles with
  | [] => Some b
  | t :: ts =>
      row ← b !! tile_row t;
      if bool_decide (tile_col t < length row)
      then write_tiles (set_cell b (tile_row t) (tile_col t) (tile_letter t)) ts
      else None
  end.

(** One line of the board through a cell: the row when [horizontal], the
    column otherwise, as a function of the position along the line. *)
Definition line (b : Board) (row col : nat) (horizontal : bool) : nat -> string :=
  if horizontal then fun c => cell b row c else fun r => cell b r col.

(** The coordinate of [(row, col)] along that line. *)
Definition along (row col : nat) (horizontal : bool) : nat :=
  if horizontal then col else row.

(** [while start > 0 and ln[start - 1] != "": start -= 1]. *)
Fixpoint scan_back (ln : nat -> string) (start : nat) : nat :=
  match start with
  | 0 => 0
  | S p => if filled (ln p) then scan_back ln p else start
  end.

(** [while end < BOARD_SIZE - 1 and ln[end + 1] != "": end += 1]; the loop
    runs at most [BOARD_SIZE - 1 - end] times. *)
Fixpoint scan_fwd_loop (ln : nat -> string) (fuel e : nat) : nat :=
  match fuel with
  | 0 => e
  | S fuel' => if filled (ln (S e)) then scan_fwd_loop ln fuel' (S e) else e
  end.

Definition scan_fwd (ln : nat -> string) (e : nat) : nat :=
  scan_fwd_loop ln (BOARD_SIZE - 1 - e) e.

(** [ScrabbleState._get_word_at]. *)
Definition _get_word_at (board : Board) (row col : nat) (horizontal : bool)
  : string :=
  let ln := line board row col horizontal in
  let p := along row col horizontal in
  let start := scan_back ln p in
  let end_ := scan_fwd ln p in
  join (map ln (range start (end_ + 1))).

(** ** Scoring *)

(** [LETTER_VALUES.get(letter, 0)]. *)
Definition letter_value (letter : string) : Z :=
  default 0%Z (LETTER_VALUES !! letter).

(** The premium cascade applied to a newly placed tile: 2 and 3 multiply the
    letter score, 4 and 5 multiply the word multiplier. *)
Definition apply_premium (premium : Z) (acc : Z * Z) : Z * Z :=
  let '(letter_score, multiplier) := acc in
  if (premium =? 2)%Z then (letter_score * 2, multiplier)%Z
  else if (premium =? 3)%Z then (letter_score * 3, multiplier)%Z
  else if (premium =? 4)%Z then (letter_score, multiplier * 2)%Z
  else if (premium =? 5)%Z then (letter_score, multiplier * 3)%Z
  else (letter_score, multiplier).

(** The body shared by the four scoring loops of [_calculate_score]: walk
    the positions [ps] of one line, add each letter's value, and apply the
    premium of the cells for which [is_new] holds.  Returns
    [word_score * word_multiplier]. *)
Definition score_run (ln : nat -> string) (prem : nat -> Z)
    (is_new : nat -> bool) (ps : list nat) : Z :=
  let '(word_score, word_multiplier) :=
    foldl
      (fun (acc : Z * Z) p =>
         let '(word_score, word_multiplier) := acc in
         let '(letter_score, word_multiplier') :=
           if is_new p
           then apply_premium (prem p) (letter_value (ln p), word_multiplier)
           else (letter_value (ln p), word_multiplier) in
         ((word_score + letter_score)%Z, word_multiplier'))
      (0%Z, 1%Z) ps in
  (word_score * word_multiplier)%Z.

(** [PREMIUM_BOARD] along the line through [(row, col)]. *)
Definition premium_line (row col : nat) (horizontal : bool) : nat -> Z :=
  if horizontal then fun c => premium_at row c else fun r => premium_at r col.

(** [min(xs)] and [max(xs)] of a non-empty list of indices. *)
Definition list_min (xs : list nat) : nat :=
  match xs with [] => 0 | x :: xs' => foldl Nat.min x xs' end.
Definition list_max (xs : list nat) : nat :=
  match xs with [] => 0 | x :: xs' => foldl Nat.max x xs' end.

(** The cross-word contribution of one placed tile: the run perpendicular
    to the placement, scored when it is longer than one character, with the
    premium of that tile's own cell only. *)
Definition cross_score (temp_board : Board) (horizontal : bool) (t : Tile) : Z :=
  let row := tile_row t in
  let col := tile_col t in
  let cross_word := _get_word_at temp_board row col (negb horizontal) in
  if 1 <? String.length cross_word then
    let ln := line temp_board row col (negb horizontal) in
    let here := along row col (negb horizontal) in
    let start := scan_back ln here in
    score_run ln (premium_line row col (negb horizontal))
      (fun p => p =? here)
      (range start (start + String.length cross_word))
  else 0%Z.

(** [ScrabbleState._calculate_score], with [self.board] as [board]. *)
Definition _calculate_score (board : Board) (tiles_placed : list Tile) : Z :=
  match tiles_placed with
  | [] => 0%Z
  | _ =>
      let rows := map tile_row tiles_placed in
      let cols := map tile_col tiles_placed in
      let horizontal := length (remove_dups rows) =? 1 in
      let temp_board := place_tiles board tiles_placed in
      let main :=
        if horizontal then
          let row := nth 0 rows 0 in
          let ln := line temp_board row 0 true in
          let start_col := scan_back ln (list_min cols) in
          let end_col := scan_fwd ln (list_max cols) in
          score_run ln (premium_line row 0 true)
            (fun c => existsb (fun t => (tile_row t =? row) && (tile_col t =? c))
                              tiles_placed)
            (range start_col (end_col + 1))
        else
          let col := nth 0 cols 0 in
          let ln := line temp_board 0 col false in
          let start_row := scan_back ln (list_min rows) in
          let end_row := scan_fwd ln (list_max rows) in
          score_run ln (premium_line 0 col false)
            (fun r => existsb (fun t => (tile_row t =? r) && (tile_col t =? col))
                              tiles_placed)
            (range start_row (end_row + 1)) in
      let crosses :=
        foldl (fun total t => (total + cross_score temp_board horizontal t)%Z)
              0%Z tiles_placed in
      let bonus := if length tiles_placed =? 7 then 50%Z else 0%Z in
      (main + crosses + bonus)%Z
  end.

(** ** The [ScrabbleState] class *)

Record ScrabbleState : Type := mkState {
  board : Board;
  tile_pool : list string;
  racks : gmap Z (list string);
  current_player : Z;
  scores : gmap Z Z;
  passes_in_a_row : nat
}.

(** [ScrabbleState.is_terminal]. *)
Definition is_terminal (s : ScrabbleState) : bool :=
  (length (tile_pool s) =? 0) || (2 <=? passes_in_a_row s).

(** [ScrabbleState.get_utility]; [KeyError] when a player has no score. *)
Definition get_utility (s : ScrabbleState) (maximizing_player_id : Z)
  : option Z :=
  let opponent_id := (3 - maximizing_player_id)%Z in
  mine ← scores s !! maximizing_player_id;
  theirs ← scores s !! opponent_id;
  Some (mine - theirs)%Z.

(** [for _ in range(actual_draw_count)]: [random.choice] picks the element
    of the pool at the index the random source gives (reduced into range),
    [remove] drops its first occurrence.  [rng i] is the [i]-th number the
    generator yields during this call. *)
Fixpoint draw_loop (rng : nat -> nat) (i n : nat) (pool drawn : list string)
  : list string * list string :=
  match n with
  | 0 => (drawn, pool)
  | S n' =>
      let tile := nth (rng i mod length pool) pool EmptyString in
      draw_loop rng (S i) n' (remove_first tile pool) (drawn ++ [tile])
  end.

(** [ScrabbleState._draw_tiles]: returns [(drawn, self.tile_pool)] after the
    call. *)
Definition _draw_tiles (rng : nat -> nat) (pool : list string) (count : nat)
  : list string * list string :=
  let actual_draw_count := Nat.min count (length pool) in
  draw_loop rng 0 actual_draw_count pool [].

(** The rack loop of [apply_move]: a letter the rack does not hold is
    skipped. *)
Fixpoint remove_tiles (rack_copy : list string) (tiles_to_remove : list string)
  : list string :=
  match tiles_to_remove with
  | [] => rack_copy
  | tile :: rest =>
      if str_in tile rack_copy
      then remove_tiles (remove_first tile rack_copy) rest
      else remove_tiles rack_copy rest
  end.

(** [ScrabbleState.apply_move].  [rng] is the random source this call
    reads; [None] stands for the [IndexError] or [KeyError] the Python
    raises. *)
Definition apply_move (rng : nat -> nat) (self : ScrabbleState) (move : Move)
  : option ScrabbleState :=
  let opponent_id := (3 - current_player self)%Z in
  let player_performing_move := current_player self in
  if negb (is_pass move) then
    next_board ← write_tiles (board self) (tiles_placed move);
    old_score ← scores self !! player_performing_move;
    let next_scores :=
      <[player_performing_move := (old_score + score move)%Z]> (scores self) in
    let tiles_to_remove := map tile_letter (tiles_placed move) in
    rack ← racks self !! player_performing_move;
    let rack_copy := remove_tiles rack tiles_to_remove in
    let tiles_used := length (tiles_placed move) in
    let '(new_tiles, next_pool) := _draw_tiles rng (tile_pool self) tiles_used in
    Some {| board := next_board;
            tile_pool := next_pool;
            racks := <[player_performing_move := rack_copy ++ new_tiles]> (racks self);
            current_player := opponent_id;
            scores := next_scores;
            passes_in_a_row := 0 |}
  else
    Some {| board := board self;
            tile_pool := tile_pool self;
            racks := racks self;
            current_player := opponent_id;
            scores := scores self;
            passes_in_a_row := passes_in_a_row self + 1 |}.

(** ** [apply_move] on any integer coordinates

    [Move] does not check the coordinates it is given and Python's list
    indexing accepts negative ones.  This module follows [apply_move] on a
    move whose coordinates are arbitrary Python integers. *)
Module Signed.

Abbreviation Tile := (Z * Z * string)%type.

Record Move : Type := mkMove {
  tiles_placed : list Tile;
  score : Z;
  is_pass : bool
}.

(** [xs[i]] on a list of length [len]: [0 .. len - 1] count from the
    front, [-len .. -1] from the end, any other index raises
    [IndexError]. *)
Definition index (len : nat) (i : Z) : option nat :=
  if bool_decide (0 <= i < Z.of_nat len)%Z then Some (Z.to_nat i)
  else if bool_decide (- Z.of_nat len <= i < 0)%Z
       then Some (Z.to_nat (Z.of_nat len + i))
       else None.

(** [for row, col, letter in move.tiles_placed:
       next_state.board[row][col] = letter]. *)
Fixpoint write_tiles (b : Board) (tiles : list Tile) : option Board :=
  match tiles with
  | [] => Some b
  | (row, col, letter) :: ts =>
      r ← index (length b) row;
      line ← b !! r;
      c ← index (length line) col;
      write_tiles (set_cell b r c letter) ts
  end.

(** [ScrabbleState.apply_move]; after the loop over the tiles only their
    letters and their number are used. *)
Definition apply_move (rng : nat -> nat) (self : ScrabbleState) (move : Move)
  : option ScrabbleState :=
  let opponent_id := (3 - current_player self)%Z in
  let player_performing_move := current_player self in
  if negb (is_pass move) then
    next_board ← write_tiles (board self) (tiles_placed move);
    old_score ← scores self !! player_performing_move;
    let next_scores :=
      <[player_performing_move := (old_score + score move)%Z]> (scores self) in
    let tiles_to_remove := map (fun t : Tile => t.2) (tiles_placed move) in
    rack ← racks self !! player_performing_move;
    let rack_copy := remove_tiles rack tiles_to_remove in
    let tiles_used := length (tiles_placed move) in
    let '(new_tiles, next_pool) := _draw_tiles rng (tile_pool self) tiles_used in
    Some {| board := next_board;
            tile_pool := next_pool;
            racks := <[player_performing_move := rack_copy ++ new_tiles]> (racks self);
            current_player := opponent_id;
            scores := next_scores;
            passes_in_a_row := 0 |}
  else
    Some {| board := board self;
            tile_pool := tile_pool self;
            racks := racks self;
            current_player := opponent_id;
            scores := scores self;
            passes_in_a_row := passes_in_a_row self + 1 |}.

End Signed.

(** The tile bag of [create_new_game] before shuffling, in the insertion
    order of [tile_distribution]. *)
Definition tile_distribution : list (string * nat) :=
  [("A", 9); ("B", 2); ("C", 2); ("D", 4); ("E", 12); ("F", 2); ("G", 3);
   ("H", 2); ("I", 9); ("J", 1); ("K", 1); ("L", 4); ("M", 2); ("N", 6);
   ("O", 8); ("P", 2); ("Q", 1); ("R", 6); ("S", 4); ("T", 6); ("U", 4);
   ("V", 2); ("W", 2); ("X", 1); ("Y", 2); ("Z", 1); ("_", 2)].

Definition unshuffled_pool : list string :=
  flat_map (fun lc : string * nat => replicate lc.2 lc.1) tile_distribution.

(** [for _ in range(n): if tile_pool: rack.append(tile_pool.pop())]. *)
Fixpoint deal (n : nat) (tile_pool rack : list string)
  : list string * list string :=
  match n with
  | 0 => (rack, tile_pool)
  | S n' =>
      match last tile_pool with
      | Some tile => deal n' (removelast tile_pool) (rack ++ [tile])
      | None => deal n' tile_pool rack
      end
  end.

(** [ScrabbleState.create_new_game], given the order [random.shuffle] left
    the bag in. *)
Definition create_new_game (shuffled : list string) : ScrabbleState :=
  let '(rack1, pool1) := deal RACK_SIZE shuffled [] in
  let '(rack2, pool2) := deal RACK_SIZE pool1 [] in
  {| board := empty_board;
     tile_pool := pool2;
     racks := <[2%Z := rack2]> (<[1%Z := rack1]> ∅);
     current_player := 1;
     scores := <[2%Z := 0%Z]> (<[1%Z := 0%Z]> ∅);
     passes_in_a_row := 0 |}.

(** ** Move generation *)

Section Generator.

(** The word set read from [words.txt] when the module is imported
    (upper-cased entries of at least two characters); the file is not part
    of the repository, so the set is a parameter. *)
Variable DICTIONARY : gset string.

(** [is_valid_word]. *)
Definition is_valid_word (word : string) : bool :=
  bool_decide (upper word ∈ DICTIONARY).

(** The two placement loops of [_generate_first_move] for one valid
    permutation: the starts through the centre, along the row when
    [horizontal] and along the column otherwise. *)
Definition first_move_placements (board : Board) (perm : list string)
    (length_ : nat) (horizontal : bool) : list Move :=
  let center := 7 in
  flat_map
    (fun start =>
       if (start <=? center) && (center <? start + length_) then
         let tiles_placed :=
           map (fun i =>
                  if horizontal
                  then (center, start + i, nth i perm EmptyString)
                  else (start + i, center, nth i perm EmptyString))
               (range 0 length_) in
         [mkMove tiles_placed (_calculate_score board tiles_placed) false]
       else [])
    (range (Nat.max 0 (center + 1 - length_))
           (Nat.min (center + 1) (BOARD_SIZE + 1 - length_))).

(** [ScrabbleState._generate_first_move]. *)
Definition _generate_first_move (board : Board) (rack : list string)
  : list Move :=
  flat_map
    (fun length_ =>
       flat_map
         (fun perm =>
            let word := join perm in
            if negb (is_valid_word word) then []
            else first_move_placements board perm length_ true
                 ++ first_move_placements board perm length_ false)
         (permutations length_ rack))
    (range 2 (length rack + 1)).

(** [ScrabbleState._find_anchors]. *)
Definition _find_anchors (board : Board) : list (nat * nat) :=
  flat_map
    (fun r =>
       flat_map
         (fun c =>
            if negb (filled (cell board r c)) then
              let adjacent_filled :=
                existsb
                  (fun d : Z * Z =>
                     let nr := (Z.of_nat r + d.1)%Z in
                     let nc := (Z.of_nat c + d.2)%Z in
                     (0 <=? nr)%Z && (nr <? Z.of_nat BOARD_SIZE)%Z
                     && (0 <=? nc)%Z && (nc <? Z.of_nat BOARD_SIZE)%Z
                     && filled (cell board (Z.to_nat nr) (Z.to_nat nc)))
                  [(-1, 0); (1, 0); (0, -1); (0, 1)]%Z in
              if adjacent_filled then [(r, c)] else []
            else [])
         (range 0 BOARD_SIZE))
    (range 0 BOARD_SIZE).

(** [ScrabbleState._validate_placement]. *)
Definition _validate_placement (board : Board) (tiles_placed : list Tile)
    (horizontal : bool) : bool :=
  let temp_board := place_tiles board tiles_placed in
  forallb
    (fun t =>
       let cross_word :=
         _get_word_at temp_board (tile_row t) (tile_col t) (negb horizontal) in
       negb ((1 <? String.length cross_word) && negb (is_valid_word cross_word)))
    tiles_placed.

(** The cell walk of [_build_words_at_anchor]: an empty cell takes the
    permutation's letter, a cell already holding that letter is passed
    over, any other cell ends the attempt ([valid = False]). *)
Fixpoint walk_cells (board : Board) (cells : list Tile)
    (tiles_placed : list Tile) (tiles_used_from_rack : list string)
  : option (list Tile * list string) :=
  match cells with
  | [] => Some (tiles_placed, tiles_used_from_rack)
  | t :: rest =>
      let here := cell board (tile_row t) (tile_col t) in
      if bool_decide (here = EmptyString) then
        walk_cells board rest (tiles_placed ++ [t])
                   (tiles_used_from_rack ++ [tile_letter t])
      else if bool_decide (here = tile_letter t) then
        walk_cells board rest tiles_placed tiles_used_from_rack
      else None
  end.

(** [can_place]: every letter used is taken from a copy of the rack. *)
Fixpoint can_place (rack_copy : list string) (tiles : list string) : bool :=
  match tiles with
  | [] => true
  | tile :: rest =>
      if str_in tile rack_copy
      then can_place (remove_first tile rack_copy) rest
      else false
  end.

(** The body of the [anchor_pos_in_word] loop, for either orientation. *)
Definition place_at_anchor (board : Board) (rack perm : list string)
    (word_len anchor_row anchor_col : nat) (horizontal : bool)
    (anchor_pos_in_word : nat) : list Move :=
  let anchor := along anchor_row anchor_col horizontal in
  if (anchor <? anchor_pos_in_word)
     || (BOARD_SIZE <? anchor - anchor_pos_in_word + word_len)
  then []
  else
    let start := anchor - anchor_pos_in_word in
    let cells :=
      map (fun i =>
             if horizontal
             then (anchor_row, start + i, nth i perm EmptyString)
             else (start + i, anchor_col, nth i perm EmptyString))
          (range 0 word_len) in
    match walk_cells board cells [] [] with
    | None => []
    | Some (tiles_placed, tiles_used_from_rack) =>
        if length tiles_placed =? 0 then []
        else if negb (can_place rack tiles_used_from_rack) then []
        else
          let temp_board := place_tiles board tiles_placed in
          let main_word :=
            _get_word_at temp_board anchor_row anchor_col horizontal in
          if negb (is_valid_word main_word) then []
          else if _validate_placement board tiles_placed horizontal
          then [mkMove tiles_placed (_calculate_score board tiles_placed) false]
          else []
    end.

(** [ScrabbleState._build_words_at_anchor]. *)
Definition _build_words_at_anchor (board : Board) (rack : list string)
    (anchor_row anchor_col : nat) (horizontal : bool) : list Move :=
  flat_map
    (fun word_len =>
       flat_map
         (fun perm =>
            if negb (is_valid_word (join perm)) then []
            else
              flat_map
                (place_at_anchor board rack perm word_len
                                 anchor_row anchor_col horizontal)
                (range 0 word_len))
         (permutations word_len rack))
    (range 2 (length rack + 1)).

(** [ScrabbleState._generate_connected_moves]. *)
Definition _generate_connected_moves (board : Board) (rack : list string)
  : list Move :=
  flat_map
    (fun anchor : nat * nat =>
       _build_words_at_anchor board rack anchor.1 anchor.2 true
       ++ _build_words_at_anchor board rack anchor.1 anchor.2 false)
    (_find_anchors board).

(** [all(self.board[r][c] == "" for r in ... for c in ...)]. *)
Definition board_empty (board : Board) : bool :=
  forallb
    (fun r => forallb (fun c => negb (filled (cell board r c)))
                      (range 0 BOARD_SIZE))
    (range 0 BOARD_SIZE).

(** [ScrabbleState.get_legal_moves]; [KeyError] when [player_id] has no
    rack.  The board is read through [cell]: on a state that is not
    terminal the result is that of the Python for a board with all
    15 x 15 cells, and on a smaller board the Python raises [IndexError]. *)
Definition get_legal_moves (self : ScrabbleState) (player_id : Z)
  : option (list Move) :=
  if is_terminal self then Some []
  else
    rack ← racks self !! player_id;
    let moves :=
      if board_empty (board self)
      then _generate_first_move (board self) rack
      else _generate_connected_moves (board self) rack in
    Some (moves ++ [pass_move]).

End Generator.

(** ** Search values *)

(** The values the searches compare: Python integers (utilities) together
    with [float("-inf")] and [float("inf")]. *)
Inductive Value : Type :=
| NegInf
| Fin (z : Z)
| PosInf.

(** [a <= b]. *)
Definition vle (a b : Value) : bool :=
  match a, b with
  | NegInf, _ => true
  | _, PosInf => true
  | Fin x, Fin y => (x <=? y)%Z
  | _, _ => false
  end.

(** [a < b]. *)
Definition vlt (a b : Value) : bool := negb (vle b a).

(** [max(a, b)] and [min(a, b)]. *)
Definition vmax (a b : Value) : Value := if vlt a b then b else a.
Definition vmin (a b : Value) : Value := if vlt b a then b else a.

(** ** [AlphaBetaMinimax] *)

Module AlphaBetaMinimax.
Section Search.

Variable DICTIONARY : gset string.

(** The random source of the search: a node of the game tree is named by
    the indices of the moves that lead to it from the root, and
    [oracle path] is the stream of numbers [random] yields during the
    [apply_move] call that creates the node at [path].  One run of the
    search creates each node at most once, so every run reads some such
    oracle. *)
Variable oracle : list nat -> nat -> nat.

(** The loop of the maximizing branch of [_minimax_value]; [i] is the
    index of the next move and [rec] the recursive call one level down. *)
Fixpoint max_loop
    (rec : ScrabbleState -> list nat -> Value -> Value -> option Value)
    (state : ScrabbleState) (path : list nat) (i : nat) (moves : list Move)
    (value alpha beta : Value) : option Value :=
  match moves with
  | [] => Some value
  | move :: rest =>
      next_state ← apply_move (oracle (path ++ [i])) state move;
      child ← rec next_state (path ++ [i]) alpha beta;
      let value := vmax value child in
      let alpha := vmax alpha value in
      if vle beta alpha then Some value
      else max_loop rec state path (S i) rest value alpha beta
  end.

(** The loop of the minimizing branch. *)
Fixpoint min_loop
    (rec : ScrabbleState -> list nat -> Value -> Value -> option Value)
    (state : ScrabbleState) (path : list nat) (i : nat) (moves : list Move)
    (value alpha beta : Value) : option Value :=
  match moves with
  | [] => Some value
  | move :: rest =>
      next_state ← apply_move (oracle (path ++ [i])) state move;
      child ← rec next_state (path ++ [i]) alpha beta;
      let value := vmin value child in
      let beta := vmin beta value in
      if vle beta alpha then Some value
      else min_loop rec state path (S i) rest value alpha beta
  end.

(** [AlphaBetaMinimax._minimax_value] for a depth that is not negative;
    the node counter, which no result depends on, is left out. *)
Fixpoint _minimax_value (depth : nat) (state : ScrabbleState)
    (path : list nat) (alpha beta : Value) (maximizing_player_id : Z)
  : option Value :=
  match depth with
  | 0 => Fin <$> get_utility state maximizing_player_id
  | S depth' =>
      if is_terminal state
      then Fin <$> get_utility state maximizing_player_id
      else
        let current_player_to_move := current_player state in
        let is_max_player_turn :=
          bool_decide (current_player_to_move = maximizing_player_id) in
        moves ← get_legal_moves DICTIONARY state current_player_to_move;
        let rec := fun s p a b =>
                     _minimax_value depth' s p a b maximizing_player_id in
        if is_max_player_turn
        then max_loop rec state path 0 moves NegInf alpha beta
        else min_loop rec state path 0 moves PosInf alpha beta
  end.

(** The root loop of [find_best_move]: returns [(best_value, best_move)],
    [best_move] being [None] as long as no value exceeded [-inf]. *)
Fixpoint root_loop (max_depth : nat) (state : ScrabbleState) (i : nat)
    (moves : list Move) (best_value : Value) (best_move : option Move)
    (alpha : Value) : option (Value * option Move) :=
  match moves with
  | [] => Some (best_value, best_move)
  | move :: rest =>
      next_state ← apply_move (oracle [i]) state move;
      value ← _minimax_value (max_depth - 1) next_state [i] alpha PosInf
                             (current_player state);
      let '(best_value, best_move) :=
        if vlt best_value value then (value, Some move)
        else (best_value, best_move) in
      let alpha := vmax alpha best_value in
      root_loop max_depth state (S i) rest best_value best_move alpha
  end.

(** [AlphaBetaMinimax.find_best_move] for [max_depth >= 1], returning the
    value it prints next to the move it returns. *)
Definition find_best_move (max_depth : nat) (state : ScrabbleState)
  : option (Value * option Move) :=
  let current_player := current_player state in
  moves ← get_legal_moves DICTIONARY state current_player;
  match moves with
  | [] => Some (NegInf, Some pass_move)
  | _ => root_loop max_depth state 0 moves NegInf None NegInf
  end.

(** *** The reference: minimax over the same tree, without pruning *)

(** The values of all children of a node, in move order. *)
Fixpoint children_values
    (rec : ScrabbleState -> list nat -> option Value)
    (state : ScrabbleState) (path : list nat) (i : nat) (moves : list Move)
  : option (list Value) :=
  match moves with
  | [] => Some []
  | move :: rest =>
      next_state ← apply_move (oracle (path ++ [i])) state move;
      v ← rec next_state (path ++ [i]);
      vs ← children_values rec state path (S i) rest;
      Some (v :: vs)
  end.

(** Depth-limited minimax: the utility at depth 0 and at terminal states,
    otherwise the greatest child value when the maximizing player moves
    and the least when the opponent does. *)
Fixpoint brute_force_value (depth : nat) (maximizing_player_id : Z)
    (state : ScrabbleState) (path : list nat) : option Value :=
  match depth with
  | 0 => Fin <$> get_utility state maximizing_player_id
  | S depth' =>
      if is_terminal state
      then Fin <$> get_utility state maximizing_player_id
      else
        moves ← get_legal_moves DICTIONARY state (current_player state);
        vs ← children_values (brute_force_value depth' maximizing_player_id)
                             state path 0 moves;
        if bool_decide (current_player state = maximizing_player_id)
        then Some (foldl vmax NegInf vs)
        else Some (foldl vmin PosInf vs)
  end.

(** The first move of greatest value: a later move replaces the current
    best only when its value is strictly greater. *)
Definition first_best (acc : Value * option Move) (mv : Move * Value)
  : Value * option Move :=
  if vlt acc.1 mv.2 then (mv.2, Some mv.1) else acc.

(** Brute-force choice at the root. *)
Definition brute_force_best (max_depth : nat) (state : ScrabbleState)
  : option (Value * option Move) :=
  moves ← get_legal_moves DICTIONARY state (current_player state);
  match moves with
  | [] => Some (NegInf, Some pass_move)
  | _ =>
      vs ← children_values
             (brute_force_value (max_depth - 1) (current_player state))
             state [] 0 moves;
      Some (foldl first_best (NegInf, None) (zip moves vs))
  end.

End Search.
End AlphaBetaMinimax.

(** ** [MonteCarlo] *)

(** What [find_best_move] does to the outside world, in order: a call of
    [state.apply_move(move)] with the successor it returned, and a call of
    the heuristic with the state and player it was given. *)
Inductive Event : Type :=
| EvApply (move : Move) (next_state : ScrabbleState)
| EvHeuristic (next_state : ScrabbleState) (player : Z).

Module MonteCarlo.
Section Search.

Variable DICTIONARY : gset string.

(** Python's [hash] behind [Move.__hash__]. *)
Variable hash : list Tile * bool -> Z.

(** The numbers the heuristic returns, with the arithmetic and the
    comparison [find_best_move] uses on them. *)
Variable R : Type.
Variable R0 : R.
Variable Radd : R -> R -> R.
Variable Rdiv : R -> nat -> R.
Variable Rlt : R -> R -> bool.

(** [self.heuristic_fn]. *)
Variable heuristic_fn : ScrabbleState -> Z -> R.

(** [tape k] is the stream of numbers [random] yields during the [k]-th
    call of [apply_move] made by [find_best_move]. *)
Variable tape : nat -> nat -> nat.

(** [for _ in range(playouts_per_move)]: the body applies the move and
    hands the successor to the heuristic.  [k] counts the [apply_move]
    calls made so far. *)
Fixpoint playouts (n : nat) (state : ScrabbleState) (move : Move)
    (k : nat) (total_value : R) (log : list Event)
  : option (R * nat * list Event) :=
  match n with
  | 0 => Some (total_value, k, log)
  | S n' =>
      next_state ← apply_move (tape k) state move;
      let value := heuristic_fn next_state (current_player state) in
      playouts n' state move (S k) (Radd total_value value)
               (log ++ [EvApply move next_state;
                        EvHeuristic next_state (current_player state)])
  end.

(** Two keys of a dictionary are the same key when their hashes agree
    and [__eq__] holds. *)
Definition same_key (k1 k2 : Move) : bool :=
  bool_decide (MoveClass.__hash__ hash k1 = MoveClass.__hash__ hash k2)
  && MoveClass.__eq__ k1 k2.

(** [move_values[move] = avg_value] on an insertion-ordered dictionary:
    an existing key keeps its place and takes the new value. *)
Fixpoint dict_set (d : list (Move * R)) (move : Move) (v : R)
  : list (Move * R) :=
  match d with
  | [] => [(move, v)]
  | (k, w) :: d' =>
      if same_key k move then (k, v) :: d' else (k, w) :: dict_set d' move v
  end.

(** [for move in moves: ...]. *)
Fixpoint evaluate_moves (playouts_per_move : nat) (state : ScrabbleState)
    (moves : list Move) (k : nat) (move_values : list (Move * R))
    (log : list Event) : option (list (Move * R) * list Event) :=
  match moves with
  | [] => Some (move_values, log)
  | move :: rest =>
      '(total_value, k', log') ←
        playouts playouts_per_move state move k R0 log;
      let avg_value := Rdiv total_value playouts_per_move in
      evaluate_moves playouts_per_move state rest k'
                     (dict_set move_values move avg_value) log'
  end.

(** [max(move_values, key=move_values.get)]: the first key of greatest
    value. *)
Definition best_key (move_values : list (Move * R)) : option Move :=
  match move_values with
  | [] => None
  | (k, v) :: rest =>
      Some (foldl (fun (best : Move * R) (kv : Move * R) =>
                     if Rlt best.2 kv.2 then kv else best)
                  (k, v) rest).1
  end.

(** [int(self.num_playouts // len(moves)) or 1]. *)
Definition playouts_per_move (num_playouts : nat) (moves : list Move) : nat :=
  let q := num_playouts / length moves in
  if q =? 0 then 1 else q.

(** [MonteCarlo.find_best_move]: the move returned and the trace of the
    calls made. *)
Definition find_best_move (num_playouts : nat) (state : ScrabbleState)
  : option (Move * list Event) :=
  moves ← get_legal_moves DICTIONARY state (current_player state);
  match moves with
  | [] => Some (pass_move, [])
  | _ =>
      '(move_values, log) ←
        evaluate_moves (playouts_per_move num_playouts moves) state moves
                       0 [] [];
      match best_key move_values with
      | Some best_move => Some (best_move, log)
      | None => Some (pass_move, log)
      end
  end.

End Search.
End MonteCarlo.

(** ** [apply_move] on the object store

    The functions above pass states by value.  Python passes references:
    a [ScrabbleState] points to its board (a list of row lists), its pool,
    its dictionary of racks (each rack a list) and its dictionary of scores,
    all of them mutable and possibly shared.  This module replays
    [apply_move] statement by statement on a store of such objects, so that
    what the call writes, and where, is explicit. *)

Module Store.

Definition loc : Type := nat.

Inductive Obj : Type :=
| StrList (xs : list string)
| RowList (rows : list loc)
| RackDict (d : gmap Z loc)
| ScoreDict (d : gmap Z Z)
| StateObj (board tile_pool racks : loc) (current_player : Z)
           (scores : loc) (passes_in_a_row : nat).

Abbreviation Heap := (gmap loc Obj).

(** A new object lives at an address the store does not use yet. *)
Definition alloc (h : Heap) (o : Obj) : Heap * loc :=
  let l := fresh (dom h) in (<[l := o]> h, l).

Definition get_strs (h : Heap) (l : loc) : option (list string) :=
  match h !! l with Some (StrList xs) => Some xs | _ => None end.

Definition get_rows (h : Heap) (l : loc) : option (list loc) :=
  match h !! l with Some (RowList rows) => Some rows | _ => None end.

Definition get_racks (h : Heap) (l : loc) : option (gmap Z loc) :=
  match h !! l with Some (RackDict d) => Some d | _ => None end.

Definition get_scores (h : Heap) (l : loc) : option (gmap Z Z) :=
  match h !! l with Some (ScoreDict d) => Some d | _ => None end.

Definition get_state (h : Heap) (l : loc)
  : option (loc * loc * loc * Z * loc * nat) :=
  match h !! l with
  | Some (StateObj b tp rk cp sc pa) => Some (b, tp, rk, cp, sc, pa)
  | _ => None
  end.

(** [[row[:] for row in self.board]]: one new list per row. *)
Fixpoint copy_rows (h : Heap) (rows : list loc) : option (Heap * list loc) :=
  match rows with
  | [] => Some (h, [])
  | r :: rs =>
      xs ← get_strs h r;
      let '(h1, r') := alloc h (StrList xs) in
      '(h2, rs') ← copy_rows h1 rs;
      Some (h2, r' :: rs')
  end.

(** [{p: r[:] for p, r in self.racks.items()}]: one new list per rack. *)
Fixpoint copy_racks (h : Heap) (items : list (Z * loc)) (acc : gmap Z loc)
  : option (Heap * gmap Z loc) :=
  match items with
  | [] => Some (h, acc)
  | (p, r) :: rest =>
      xs ← get_strs h r;
      let '(h1, r') := alloc h (StrList xs) in
      copy_racks h1 rest (<[p := r']> acc)
  end.

(** [for row, col, letter in move.tiles_placed:
       next_state.board[row][col] = letter]. *)
Fixpoint write_tiles (h : Heap) (next_state : loc) (tiles : list Tile)
  : option Heap :=
  match tiles with
  | [] => Some h
  | t :: ts =>
      '(b, _, _, _, _, _) ← get_state h next_state;
      rows ← get_rows h b;
      r ← rows !! tile_row t;
      xs ← get_strs h r;
      if bool_decide (tile_col t < length xs)
      then write_tiles (<[r := StrList (<[tile_col t := tile_letter t]> xs)]> h)
                       next_state ts
      else None
  end.

(** [next_state._draw_tiles(count)]: the pool object of [next_state] is
    emptied in place. *)
Definition _draw_tiles (rng : nat -> nat) (h : Heap) (next_state : loc)
    (count : nat) : option (list string * Heap) :=
  '(_, tp, _, _, _, _) ← get_state h next_state;
  pool ← get_strs h tp;
  let '(drawn, pool') :=
    draw_loop rng 0 (Nat.min count (length pool)) pool [] in
  Some (drawn, <[tp := StrList pool']> h).

(** [ScrabbleState.apply_move] on the store: the new store and the
    address of the state returned. *)
Definition apply_move (rng : nat -> nat) (h : Heap) (self : loc)
    (move : Move) : option (Heap * loc) :=
  '(b, tp, rk, cp, sc, pa) ← get_state h self;
  let opponent_id := (3 - cp)%Z in
  rows ← get_rows h b;
  '(h1, rows') ← copy_rows h rows;
  let '(h2, b') := alloc h1 (RowList rows') in
  pool ← get_strs h2 tp;
  let '(h3, tp') := alloc h2 (StrList pool) in
  rd ← get_racks h3 rk;
  '(h4, rd') ← copy_racks h3 (map_to_list rd) ∅;
  let '(h5, rk') := alloc h4 (RackDict rd') in
  sd ← get_scores h5 sc;
  let '(h6, sc') := alloc h5 (ScoreDict sd) in
  let '(h7, next_state) :=
    alloc h6 (StateObj b' tp' rk' opponent_id sc' 0) in
  let player_performing_move := cp in
  if negb (is_pass move) then
    h8 ← write_tiles h7 next_state (tiles_placed move);
    '(_, _, _, _, nsc, _) ← get_state h8 next_state;
    nsd ← get_scores h8 nsc;
    old_score ← nsd !! player_performing_move;
    let h9 :=
      <[nsc := ScoreDict (<[player_performing_move :=
                              (old_score + score move)%Z]> nsd)]> h8 in
    let tiles_to_remove := map tile_letter (tiles_placed move) in
    '(_, _, nrk, _, _, _) ← get_state h9 next_state;
    nrd ← get_racks h9 nrk;
    rack_loc ← nrd !! player_performing_move;
    rack ← get_strs h9 rack_loc;
    let rack_copy := remove_tiles rack tiles_to_remove in
    let tiles_used := length (tiles_placed move) in
    '(new_tiles, h10) ← _draw_tiles rng h9 next_state tiles_used;
    let '(h11, new_rack) := alloc h10 (StrList (rack_copy ++ new_tiles)) in
    '(_, _, nrk', _, _, _) ← get_state h11 next_state;
    nrd' ← get_racks h11 nrk';
    let h12 :=
      <[nrk' := RackDict (<[player_performing_move := new_rack]> nrd')]> h11 in
    '(nb, ntp, nrk'', ncp, nsc', _) ← get_state h12 next_state;
    Some (<[next_state := StateObj nb ntp nrk'' ncp nsc' 0]> h12, next_state)
  else
    '(_, _, _, _, _, pa_now) ← get_state h7 self;
    '(nb, ntp, nrk, ncp, nsc, _) ← get_state h7 next_state;
    Some (<[next_state := StateObj nb ntp nrk ncp nsc (pa_now + 1)]> h7,
          next_state).

(** The state an address stands for: every reference followed. *)
Definition represents (h : Heap) (l : loc) (s : ScrabbleState) : Prop :=
  ∃ b tp rk sc rows rd,
    h !! l = Some (StateObj b tp rk (current_player s) sc (passes_in_a_row s))
    ∧ get_rows h b = Some rows
    ∧ Forall2 (fun r xs => get_strs h r = Some xs) rows (board s)
    ∧ get_strs h tp = Some (tile_pool s)
    ∧ get_racks h rk = Some rd
    ∧ (∀ p, racks s !! p = (rd !! p) ≫= get_strs h)
    ∧ map_Forall (fun _ r => is_Some (get_strs h r)) rd
    ∧ get_scores h sc = Some (scores s).

End Store.

(** * States, invariants and examples the statements speak about *)

(** The board after the opening move CAT along row 7. *)
Definition board_CAT : Board :=
  place_tiles empty_board [(7, 6, "C"); (7, 7, "A"); (7, 8, "T")].

(** The rack C A T S X X X. *)
Definition rack_CATSXXX : list string := ["C"; "A"; "T"; "S"; "X"; "X"; "X"].

(** The opening state when [random.shuffle] leaves the bag as it was:
    player 1 holds _ _ Z Y Y X W. *)
Definition unshuffled_game : ScrabbleState := create_new_game unshuffled_pool.

(** A move nobody generated: Q and I through the centre, claiming 1000
    points, from a rack that holds neither letter. *)
Definition injected_move : Move := mkMove [(7, 7, "Q"); (7, 8, "I")] 1000 false.

(** A shuffle that deals A A T E R S N to player 1. *)
Definition shuffled_AAT : list string :=
  remove_tiles unshuffled_pool ["A"; "A"; "T"; "E"; "R"; "S"; "N"]
  ++ ["N"; "S"; "R"; "E"; "T"; "A"; "A"].

(** The new game that shuffle leads to. *)
Definition game_AAT : ScrabbleState := create_new_game shuffled_AAT.

(** The grid [create_new_game] builds and every transition keeps. *)
Definition wf_board (b : Board) : Prop :=
  length b = BOARD_SIZE /\ Forall (fun row => length row = BOARD_SIZE) b.

(** The number of cells that hold a tile. *)
Definition row_tiles (row : list string) : nat :=
  length (filter (fun s => s <> EmptyString) row).

Definition tiles_on_board (b : Board) : nat :=
  sum_list_with row_tiles b.

(** Where a list of tiles puts a letter. *)
Definition tile_pos (t : Tile) : nat * nat := (tile_row t, tile_col t).

(** What a list of tiles needs for the board to take them one per empty
    cell. *)
Definition fits (b : Board) (tiles : list Tile) : Prop :=
  NoDup (tile_pos <$> tiles)
  /\ Forall (fun t => tile_row t < BOARD_SIZE /\ tile_col t < BOARD_SIZE
                      /\ cell b (tile_row t) (tile_col t) = EmptyString
                      /\ tile_letter t <> EmptyString) tiles.

(** The cells a word of [n] letters covers from [start] on, along the row
    [row] when [horizontal] and along the column [col] otherwise, each with
    the letter the permutation has for it. *)
Definition span (horizontal : bool) (row col start n : nat)
    (perm : list string) : list Tile :=
  map (fun i =>
         if horizontal
         then (row, start + i, nth i perm EmptyString)
         else (start + i, col, nth i perm EmptyString))
      (range 0 n).

(** The tiles the cell walk of [_build_words_at_anchor] collects are the
    cells of the span that are empty on the board; every other cell of the
    span already holds the letter the word needs there. *)
Definition is_empty_at (b : Board) (t : Tile) : bool :=
  bool_decide (cell b (tile_row t) (tile_col t) = EmptyString).

(** Tiles are non-empty strings: an empty string is how the board marks a
    free cell. *)
Definition proper_tiles (xs : list string) : Prop :=
  Forall (fun x => x <> EmptyString) xs.

(** A placement move that can be made from [rack] on [b]. *)
Definition placeable (b : Board) (rack : list string) (m : Move) : Prop :=
  is_pass m = false
  /\ fits b (tiles_placed m)
  /\ can_place rack (map tile_letter (tiles_placed m)) = true.

(** [len(self.racks[p])], for a player the state has a rack for. *)
Definition rack_of (s : ScrabbleState) (p : Z) : list string :=
  default [] (racks s !! p).

(** Both racks, the pool and the tiles on the board. *)
Definition total_tiles (s : ScrabbleState) : nat :=
  length (rack_of s 1) + length (rack_of s 2) + length (tile_pool s)
  + tiles_on_board (board s).

(** The states a game can be in: the opening state for some outcome of
    [random.shuffle], and every state a legal move of the player to move
    leads to, for some outcome of the draws. *)
Inductive reachable (D : gset string) : ScrabbleState -> Prop :=
| reach_new (shuffled : list string) :
    shuffled ≡ₚ unshuffled_pool ->
    reachable D (create_new_game shuffled)
| reach_move (s s' : ScrabbleState) (moves : list Move) (m : Move)
      (rng : nat -> nat) :
    reachable D s ->
    get_legal_moves D s (current_player s) = Some moves ->
    m ∈ moves ->
    apply_move rng s m = Some s' ->
    reachable D s'.

(** What every reachable state satisfies. *)
Record game_inv (s : ScrabbleState) : Prop := {
  inv_board : wf_board (board s);
  inv_player : current_player s = 1%Z \/ current_player s = 2%Z;
  inv_rack1 : exists rack, racks s !! 1%Z = Some rack /\ proper_tiles rack;
  inv_rack2 : exists rack, racks s !! 2%Z = Some rack /\ proper_tiles rack;
  inv_score1 : is_Some (scores s !! 1%Z);
  inv_score2 : is_Some (scores s !! 2%Z);
  inv_pool : proper_tiles (tile_pool s);
  inv_total : total_tiles s = 100
}.

(** [plays D s n s']: [n] plies lead from [s] to [s'], each of them a legal
    move of the player to move, applied under some outcome of the draws. *)
Inductive plays (D : gset string)
  : ScrabbleState -> nat -> ScrabbleState -> Prop :=
| plays_none (s : ScrabbleState) : plays D s 0 s
| plays_ply (s s1 s' : ScrabbleState) (n : nat) (moves : list Move)
      (m : Move) (rng : nat -> nat) :
    get_legal_moves D s (current_player s) = Some moves ->
    m ∈ moves ->
    apply_move rng s m = Some s1 ->
    plays D s1 n s' ->
    plays D s (S n) s'.

(** The opening move AT along row 7, ending on the centre, in the game
    that dealt A A T E R S N to player 1. *)
Definition move_AT : Move := mkMove [(7, 6, "A"); (7, 7, "T")] 4 false.

(** [game_AAT] after [move_AT], every draw taking the first tile of the
    pool. *)
Definition after_AT : ScrabbleState :=
  default game_AAT (apply_move (fun _ => 0) game_AAT move_AT).

(** The run [_get_word_at] reads through a cell: first and last position
    along the line, and the number of cells. *)
Definition run_start (b : Board) (row col : nat) (horizontal : bool) : nat :=
  scan_back (line b row col horizontal) (along row col horizontal).

Definition run_end (b : Board) (row col : nat) (horizontal : bool) : nat :=
  scan_fwd (line b row col horizontal) (along row col horizontal).

Definition run_length (b : Board) (row col : nat) (horizontal : bool) : nat :=
  run_end b row col horizontal + 1 - run_start b row col horizontal.

(** What soundness asks of a board after a move: every run of more than one
    cell through a tile just placed, in either direction, is a word. *)
Definition runs_valid (D : gset string) (after : Board) (tiles : list Tile)
  : Prop :=
  forall (t : Tile) (h : bool),
    t ∈ tiles ->
    1 < run_length after (tile_row t) (tile_col t) h ->
    is_valid_word D (_get_word_at after (tile_row t) (tile_col t) h) = true.

(** What a call with window [(alpha, beta)] may return for a node of true
    value [v]: the value itself when it lies inside the window, otherwise
    something on the same side of the window as the value. *)
Definition bound (alpha beta v r : Value) : Prop :=
  (vle v alpha = true -> vle r alpha = true)
  /\ (vle beta v = true -> vle beta r = true)
  /\ (vlt alpha v = true -> vlt v beta = true -> r = v).

(** The order of [Value] read off two integers: which of the three kinds a
    value is, and the integer of a finite one. *)
Definition tag (v : Value) : Z :=
  match v with NegInf => -1 | Fin _ => 0 | PosInf => 1 end.

Definition num (v : Value) : Z :=
  match v with Fin z => z | _ => 0 end.

(** What the recursive call of the pruned search owes the loop above it:
    it returns whenever the reference does, and inside a non-empty window
    what it returns is as good as the reference value. *)
Definition refines
    (rec_mm : ScrabbleState -> list nat -> option Value)
    (rec_ab : ScrabbleState -> list nat -> Value -> Value -> option Value)
  : Prop :=
  forall s p a b v,
    rec_mm s p = Some v ->
    exists r, rec_ab s p a b = Some r /\ (vlt a b = true -> bound a b v r).

(** The [j]-th playout counted from call number [k]: the move is applied
    with the random numbers of call [k + j], and the heuristic receives the
    state that call returned. *)
Definition playout_at (tape : nat -> nat -> nat) (state : ScrabbleState)
    (move : Move) (k j : nat) (evs : list Event) : Prop :=
  exists next_state,
    apply_move (tape (k + j)) state move = Some next_state
    /\ evs !! (2 * j) = Some (EvApply move next_state)
    /\ evs !! (2 * j + 1)
       = Some (EvHeuristic next_state (current_player state)).

(** The game that dealt A A T E R S N to player 1, searched with 18
    playouts over its 9 legal moves: two playouts per move.  Call number
    [k] of [apply_move] draws at index [10 * k] of the pool. *)
Definition search_AAT : option (Move * list Event) :=
  MonteCarlo.find_best_move {["AT"]} (fun _ => 0%Z) Z 0%Z Z.add
    (fun x n => (x / Z.of_nat n)%Z) Z.ltb (fun _ _ => 0%Z)
    (fun k _ => 10 * k) 18 game_AAT.

(** What an entry of the trace shows of the successor state: the move
    applied, if the entry is an application, and the rack of player 1
    afterwards. *)
Definition event_rack (e : Event) : option Move * option (list string) :=
  match e with
  | EvApply move next_state => (Some move, racks next_state !! 1%Z)
  | EvHeuristic next_state _ => (None, racks next_state !! 1%Z)
  end.

(** What a dictionary of racks holds, every reference followed. *)
Definition rack_contents (h : Store.Heap) (d : gmap Z Store.loc) (p : Z)
  : option (list string) :=
  (d !! p) ≫= Store.get_strs h.

(** The state a Pass leads to. *)
Definition pass_successor (s : ScrabbleState) : ScrabbleState :=
  {| board := board s;
     tile_pool := tile_pool s;
     racks := racks s;
     current_player := (3 - current_player s)%Z;
     scores := scores s;
     passes_in_a_row := passes_in_a_row s + 1 |}.

(** A store holding one game: a one-cell board, the pool [A], the racks
    [B] and [C], both scores 0, player 1 to move. *)
Definition small_rows : list Store.loc := [2].

Definition small_racks : gmap Z Store.loc := <[2%Z := 6]> (<[1%Z := 5]> ∅).

Definition small_scores : gmap Z Z := <[2%Z := 0%Z]> (<[1%Z := 0%Z]> ∅).

Definition small_heap : Store.Heap :=
  <[0 := Store.StateObj 1 3 4 1 7 0]>
    (<[1 := Store.RowList small_rows]>
       (<[2 := Store.StrList [EmptyString]]>
          (<[3 := Store.StrList ["A"]]>
             (<[4 := Store.RackDict small_racks]>
                (<[5 := Store.StrList ["B"]]>
                   (<[6 := Store.StrList ["C"]]>
                      (<[7 := Store.ScoreDict small_scores]> ∅))))))).

Definition small_state : ScrabbleState :=
  {| board := [[EmptyString]];
     tile_pool := ["A"];
     racks := <[2%Z := ["C"]]> (<[1%Z := ["B"]]> ∅);
     current_player := 1;
     scores := small_scores;
     passes_in_a_row := 0 |}.

(** [game_AAT] after a Pass by each player. *)
Definition after_two_passes : ScrabbleState :=
  default game_AAT
    (apply_move (fun _ => 0) game_AAT pass_move
       ≫= fun s1 => apply_move (fun _ => 0) s1 pass_move).

(** The number of plies a game can still last, at most. *)
Definition plies_left (s : ScrabbleState) : nat :=
  3 * length (tile_pool s) + (2 - passes_in_a_row s).

(** Racks hold [RACK_SIZE] tiles as long as the pool can refill them. *)
Definition racks_full (s : ScrabbleState) : Prop :=
  length (rack_of s 1) <= RACK_SIZE
  /\ length (rack_of s 2) <= RACK_SIZE
  /\ (tile_pool s <> [] ->
      length (rack_of s 1) = RACK_SIZE /\ length (rack_of s 2) = RACK_SIZE).

(** Two cells of the grid that share an edge. *)
Definition adjacent (r c r' c' : nat) : Prop :=
  (r' = r /\ (c' = c + 1 \/ c' + 1 = c))
  \/ (c' = c /\ (r' = r + 1 \/ r' + 1 = r)).

(** A value that is a Python number, not an infinity. *)
Definition is_fin (v : Value) : Prop := exists z, v = Fin z.

(** The object at [l] stands for [s] through the objects named, and the
    lists the call may write to (the rows and the pool) are distinct
    objects that no rack shares. *)
Definition owns_at (h : Store.Heap) (l : Store.loc) (s : ScrabbleState)
    (b tp rk sc : Store.loc) (rows : list Store.loc) (rd : gmap Z Store.loc)
  : Prop :=
  h !! l = Some (Store.StateObj b tp rk (current_player s) sc
                   (passes_in_a_row s))
  /\ h !! b = Some (Store.RowList rows)
  /\ Forall2 (fun r xs => h !! r = Some (Store.StrList xs)) rows (board s)
  /\ h !! tp = Some (Store.StrList (tile_pool s))
  /\ h !! rk = Some (Store.RackDict rd)
  /\ (forall p, racks s !! p = rack_contents h rd p)
  /\ map_Forall (fun _ r => exists xs, h !! r = Some (Store.StrList xs)) rd
  /\ h !! sc = Some (Store.ScoreDict (scores s))
  /\ NoDup rows
  /\ (tp ∉ rows)
  /\ map_Forall (fun _ r => (r ∉ rows) /\ r <> tp) rd.

(** A placement on the one-cell board of [small_state]: player 1 puts
    the B of its rack on the only cell. *)
Definition small_place : Move := mkMove [(0, 0, "B")] 3 false.

(** A move of the generator, its coordinates read as Python integers. *)
Definition signed (m : Move) : Signed.Move :=
  Signed.mkMove
    (map (fun t : Tile =>
            (Z.of_nat (tile_row t), Z.of_nat (tile_col t), tile_letter t))
         (tiles_placed m))
    (score m) (is_pass m).

(** The indices Python accepts on a list of [BOARD_SIZE] items. *)
Definition in_index_range (i : Z) : Prop :=
  (- Z.of_nat BOARD_SIZE <= i < Z.of_nat BOARD_SIZE)%Z.

(** The row or column of the grid that such an index stands for:
    [-1] is 14, [-15] is 0. *)
Definition wrap (i : Z) : nat := Z.to_nat (i `mod` Z.of_nat BOARD_SIZE).

(** A move with integer coordinates, every coordinate replaced by the
    row or column it stands for. *)
Definition wrapped (m : Signed.Move) : Move :=
  mkMove
    (map (fun t : Signed.Tile => (wrap t.1.1, wrap t.1.2, t.2))
         (Signed.tiles_placed m))
    (Signed.score m) (Signed.is_pass m).

(** * Properties *)

(** ** [Move] equality and hashing *)

Lemma zip_prefix_agree (t1 t2 : list Tile) :
  t1 `prefix_of` t2 ->
  forallb (fun p : Tile * Tile => bool_decide (p.1 = p.2)) (zip t1 t2) = true
  /\ forallb (fun p : Tile * Tile => bool_decide (p.1 = p.2)) (zip t2 t1) = true.
Proof.
  intros [k ->]. induction t1 as [|t t1 IH]; simpl.
  - split; [reflexivity | by destruct k].
  - destruct IH as [IH1 IH2]. rewrite IH1, IH2.
    by rewrite bool_decide_eq_true_2.
Qed.

(** [__hash__] never looks at the score. *)
Lemma hash_ignores_score (hash : list Tile * bool -> Z) tiles s s' p :
  MoveClass.__hash__ hash (mkMove tiles s p)
  = MoveClass.__hash__ hash (mkMove tiles s' p).
Proof. reflexivity. Qed.

(** [__eq__] does look at the score and at the pass flag. *)
Lemma eq_needs_score m1 m2 :
  MoveClass.__eq__ m1 m2 = true -> score m1 = score m2 /\ is_pass m1 = is_pass m2.
Proof.
  unfold MoveClass.__eq__. rewrite !andb_true_iff, !bool_decide_eq_true.
  tauto.
Qed.

(** [all(t1 == t2 for t1, t2 in zip(l1, l2))] compares position by
    position as far as both lists reach, and no further. *)
Lemma zip_forallb_lookup (l1 l2 : list Tile) :
  forallb (fun p : Tile * Tile => bool_decide (p.1 = p.2)) (zip l1 l2) = true
  <-> forall i t t', l1 !! i = Some t -> l2 !! i = Some t' -> t = t'.
Proof.
  revert l2. induction l1 as [|x l1 IH]; intros [|y l2]; simpl;
    try (split; [intros _ i t t' H1 H2; by destruct i | done]).
  rewrite andb_true_iff, bool_decide_eq_true, IH. simpl. split.
  - intros [-> Hrest] [|i] t t' H1 H2; simpl in *.
    + congruence.
    + by eapply Hrest.
  - intros Hall. split.
    + by apply (Hall 0).
    + intros i t t'. apply (Hall (S i)).
Qed.

Lemma Move_eq_spec (a b : Move) :
  MoveClass.__eq__ a b = true <->
  (forall i t t', tiles_placed a !! i = Some t ->
                  tiles_placed b !! i = Some t' -> t = t')
  /\ score a = score b
  /\ is_pass a = is_pass b.
Proof.
  unfold MoveClass.__eq__.
  rewrite !andb_true_iff, !bool_decide_eq_true, zip_forallb_lookup. tauto.
Qed.

(** Equal moves always hash alike only under a [hash] that does not look
    at the tiles. *)
Lemma eq_hash_contract (hash : list Tile * bool -> Z) :
  (forall a b, MoveClass.__eq__ a b = true ->
               MoveClass.__hash__ hash a = MoveClass.__hash__ hash b)
  <-> forall tiles p, hash (tiles, p) = hash ([], p).
Proof.
  split.
  - intros Hc tiles p. symmetry.
    apply (Hc (mkMove [] 0 p) (mkMove tiles 0 p)).
    apply Move_eq_spec. simpl. split; [|done]. intros i t t' Hi.
    by rewrite lookup_nil in Hi.
  - intros Hh a b Heq. apply eq_needs_score in Heq as [_ Hp].
    unfold MoveClass.__hash__.
    rewrite (Hh (tiles_placed a)), (Hh (tiles_placed b)). by rewrite Hp.
Qed.

(** C10. [__eq__] compares the tiles position by position only as far as
    the shorter list reaches, together with the score and the pass flag.
    So two non-pass moves with the same score, the tiles of one a prefix of
    the tiles of the other (the empty list included), compare equal in both
    directions; their hashes are the hashes of their two whole tile tuples,
    and differ wherever Python's [hash] tells these apart.  [__hash__]
    never reads the score, and equal moves always hash alike only under a
    [hash] that does not look at the tiles at all. *)
Theorem Move_eq_prefix_hash (hash : list Tile * bool -> Z) (m1 m2 : Move) :
  is_pass m1 = false ->
  is_pass m2 = false ->
  score m1 = score m2 ->
  tiles_placed m1 `prefix_of` tiles_placed m2 ->
  MoveClass.__eq__ m1 m2 = true
  /\ MoveClass.__eq__ m2 m1 = true
  /\ (MoveClass.__hash__ hash m1 = MoveClass.__hash__ hash m2
      <-> hash (tiles_placed m1, false) = hash (tiles_placed m2, false))
  /\ (forall a b : Move,
        MoveClass.__eq__ a b = true <->
        (forall i t t', tiles_placed a !! i = Some t ->
                        tiles_placed b !! i = Some t' -> t = t')
        /\ score a = score b
        /\ is_pass a = is_pass b)
  /\ (forall (tiles : list Tile) (s s' : Z) (p : bool),
        MoveClass.__hash__ hash (mkMove tiles s p)
        = MoveClass.__hash__ hash (mkMove tiles s' p))
  /\ ((forall a b : Move,
         MoveClass.__eq__ a b = true ->
         MoveClass.__hash__ hash a = MoveClass.__hash__ hash b)
      <-> forall (tiles : list Tile) (p : bool),
            hash (tiles, p) = hash ([], p)).
Proof.
  intros Hp1 Hp2 Hs Hpre.
  destruct (zip_prefix_agree _ _ Hpre) as [Hz1 Hz2].
  split; [|split; [|split; [|split; [|split]]]].
  - unfold MoveClass.__eq__. rewrite Hz1, Hp1, Hp2, Hs.
    by rewrite !bool_decide_eq_true_2.
  - unfold MoveClass.__eq__. rewrite Hz2, Hp1, Hp2, Hs.
    by rewrite !bool_decide_eq_true_2.
  - unfold MoveClass.__hash__. by rewrite Hp1, Hp2.
  - exact Move_eq_spec.
  - intros tiles s s' p. apply hash_ignores_score.
  - apply eq_hash_contract.
Qed.

Lemma Move_eq_prefix_hash_witness :
  let hash := fun k : list Tile * bool => Z.of_nat (length k.1) in
  let m1 := mkMove [(7, 7, "A")] 5 false in
  let m2 := mkMove [(7, 7, "A"); (7, 8, "T")] 5 false in
  MoveClass.__eq__ m1 m2 = true
  /\ MoveClass.__eq__ m2 m1 = true
  /\ MoveClass.__hash__ hash m1 <> MoveClass.__hash__ hash m2
  /\ MoveClass.__eq__ m1 (mkMove [(7, 7, "B"); (7, 8, "T")] 5 false) = false
  /\ MoveClass.__eq__ m1 (mkMove [(7, 7, "A"); (7, 8, "T")] 6 false) = false.
Proof.
  intros hash m1 m2.
  destruct (Move_eq_prefix_hash hash m1 m2) as (H12 & H21 & Hh & Heq & _);
    try reflexivity.
  { exists [(7, 8, "T")]. reflexivity. }
  split; [exact H12|]. split; [exact H21|]. split.
  { intros Hsame. apply Hh in Hsame. vm_compute in Hsame. discriminate. }
  split.
  - apply not_true_is_false. intros Hb. apply Heq in Hb as [Htiles _].
    specialize (Htiles 0 _ _ eq_refl eq_refl). discriminate.
  - apply not_true_is_false. intros Hb. apply Heq in Hb as (_ & Hscore & _).
    discriminate.
Defined.
(** ** Scoring a single tile *)

(** C6. A single tile T placed at (8,7) under the A of CAT: the run through
    it along the row is the lone letter "T", the run along the column is
    "AT", worth 1 + 1 = 2; [_calculate_score] treats the row as the main
    word, scores the one-letter run as well and returns 3. *)
Theorem single_tile_scores_absent_axis :
  let tiles := [(8, 7, "T")] in
  let after := place_tiles board_CAT tiles in
  _get_word_at after 8 7 true = "T"
  /\ _get_word_at after 8 7 false = "AT"
  /\ cross_score after true (8, 7, "T") = 2%Z
  /\ _calculate_score board_CAT tiles = 3%Z.
Proof. vm_compute. repeat split. Qed.

(** The generator itself proposes that move, with that score, to a player
    holding A and T when "AT" is a word. *)
Lemma single_tile_move_generated :
  In (mkMove [(8, 7, "T")] 3 false)
     (_build_words_at_anchor {["CAT"; "AT"]} board_CAT
        ["A"; "T"; "E"; "E"; "R"; "S"; "N"] 8 7 false).
Proof. vm_compute. tauto. Qed.

(** ** The opening move CATS *)

Lemma first_move_intro (D : gset string) (b : Board) (rack perm : list string)
    (n : nat) (m : Move) :
  2 <= n <= length rack ->
  In perm (permutations n rack) ->
  is_valid_word D (join perm) = true ->
  In m (first_move_placements b perm n true
        ++ first_move_placements b perm n false) ->
  In m (_generate_first_move D b rack).
Proof.
  intros Hn Hperm Hvalid Hm. unfold _generate_first_move.
  apply in_flat_map. exists n. split.
  { unfold range. apply in_seq. lia. }
  apply in_flat_map. exists perm. split; [done|].
  by rewrite Hvalid.
Qed.

(** C1 (amended). On the empty board, with the rack C A T S X X X and any
    word list that holds "CATS", the first-move generator emits CATS along
    row 7 at each of the four starts 4..7 that cover the centre (7,7), and
    the score attached to each is (3 + 1 + 1 + 1) * 2 = 12: C is worth 3 and
    the centre is a double-word cell. *)
Theorem first_move_CATS_scores_12 (DICTIONARY : gset string) (start : nat) :
  "CATS" ∈ DICTIONARY ->
  4 <= start <= 7 ->
  In (mkMove [(7, start, "C"); (7, start + 1, "A");
              (7, start + 2, "T"); (7, start + 3, "S")] 12 false)
     (_generate_first_move DICTIONARY empty_board rack_CATSXXX).
Proof.
  intros HD Hstart.
  apply (first_move_intro _ _ _ ["C"; "A"; "T"; "S"] 4).
  - simpl. lia.
  - apply list_elem_of_In. compute_done.
  - unfold is_valid_word. by apply bool_decide_eq_true_2.
  - apply in_or_app. left.
    assert (start = 4 \/ start = 5 \/ start = 6 \/ start = 7) as Hs by lia.
    destruct Hs as [-> | [-> | [-> | ->]]]; vm_compute; tauto.
Qed.

Lemma first_move_CATS_scores_12_witness :
  In (mkMove [(7, 4, "C"); (7, 5, "A"); (7, 6, "T"); (7, 7, "S")] 12 false)
     (_generate_first_move {["CAT"; "CATS"]} empty_board rack_CATSXXX).
Proof.
  apply (first_move_CATS_scores_12 {["CAT"; "CATS"]} 4).
  - compute_done.
  - lia.
Defined.

(** C1 as stated fails: with the word list {CAT, CATS} no move the
    generator emits for that rack carries the score 4; in particular no
    placement of CATS does. *)
Lemma first_move_CATS_never_4 :
  ~ exists m : Move,
      In m (_generate_first_move {["CAT"; "CATS"]} empty_board rack_CATSXXX)
      /\ map tile_letter (tiles_placed m) = ["C"; "A"; "T"; "S"]
      /\ score m = 4%Z.
Proof.
  intros (m & Hin & _ & Hscore).
  assert (Forall (fun m : Move => score m <> 4%Z)
            (_generate_first_move {["CAT"; "CATS"]} empty_board rack_CATSXXX))
    as Hall.
  { compute_done. }
  rewrite Forall_forall in Hall.
  apply list_elem_of_In in Hin. by apply (Hall m Hin).
Qed.

(** ** [apply_move] on a move the player cannot make *)

Lemma write_tiles_place (b b' : Board) (tiles : list Tile) :
  write_tiles b tiles = Some b' -> b' = place_tiles b tiles.
Proof.
  revert b. induction tiles as [|t ts IH]; intros b H; simpl in *.
  - by injection H.
  - destruct (b !! tile_row t) as [row|]; simpl in H; [|done].
    case_bool_decide; [|done]. by apply IH.
Qed.

(** C8 (amended). [apply_move] checks nothing: for every state and every
    Place move whose cells lie on the board, applied for a player who has a
    rack and a score, it writes the move's tiles to the board and adds the
    move's score to that player's total, whether or not the rack holds the
    letters; the letters the rack does not hold are left out of the removal,
    and the replacement tiles are drawn all the same. *)
Theorem apply_move_does_not_validate (rng : nat -> nat) (s : ScrabbleState)
    (m : Move) (b' : Board) (rack : list string) (sc : Z) :
  is_pass m = false ->
  write_tiles (board s) (tiles_placed m) = Some b' ->
  racks s !! current_player s = Some rack ->
  scores s !! current_player s = Some sc ->
  exists s',
    apply_move rng s m = Some s'
    /\ board s' = place_tiles (board s) (tiles_placed m)
    /\ scores s' = <[current_player s := (sc + score m)%Z]> (scores s)
    /\ racks s' !! current_player s
       = Some (remove_tiles rack (map tile_letter (tiles_placed m))
               ++ (_draw_tiles rng (tile_pool s) (length (tiles_placed m))).1)
    /\ tile_pool s'
       = (_draw_tiles rng (tile_pool s) (length (tiles_placed m))).2
    /\ passes_in_a_row s' = 0
    /\ current_player s' = (3 - current_player s)%Z.
Proof.
  intros Hpass Hw Hrack Hsc. unfold apply_move.
  rewrite Hpass, Hw, Hsc, Hrack. simpl.
  destruct (_draw_tiles rng (tile_pool s) (length (tiles_placed m)))
    as [new_tiles next_pool] eqn:Hdraw.
  eexists. split; [reflexivity|]. simpl.
  rewrite lookup_insert_eq.
  repeat split; try done. by apply write_tiles_place.
Qed.

Lemma apply_move_does_not_validate_witness :
  exists s',
    apply_move (fun _ => 0) unshuffled_game injected_move = Some s'
    /\ board s' = place_tiles (board unshuffled_game) (tiles_placed injected_move)
    /\ scores s'
       = <[current_player unshuffled_game := (0 + score injected_move)%Z]>
           (scores unshuffled_game)
    /\ racks s' !! current_player unshuffled_game
       = Some (remove_tiles ["_"; "_"; "Z"; "Y"; "Y"; "X"; "W"]
                 (map tile_letter (tiles_placed injected_move))
               ++ (_draw_tiles (fun _ => 0) (tile_pool unshuffled_game)
                     (length (tiles_placed injected_move))).1)
    /\ tile_pool s'
       = (_draw_tiles (fun _ => 0) (tile_pool unshuffled_game)
            (length (tiles_placed injected_move))).2
    /\ passes_in_a_row s' = 0
    /\ current_player s' = (3 - current_player unshuffled_game)%Z.
Proof.
  apply (apply_move_does_not_validate (fun _ => 0) unshuffled_game
           injected_move
           (place_tiles empty_board [(7, 7, "Q"); (7, 8, "I")])
           ["_"; "_"; "Z"; "Y"; "Y"; "X"; "W"] 0%Z);
    vm_compute; reflexivity.
Defined.

(** C8 as stated fails: the injected move is not rejected.  Player 1 holds
    neither Q nor I and has 0 points, yet the call returns a state with both
    tiles on the board, 1000 points on player 1's account and a rack of
    nine tiles. *)
Lemma injected_move_is_scored :
  can_place ["_"; "_"; "Z"; "Y"; "Y"; "X"; "W"]
            (map tile_letter (tiles_placed injected_move)) = false
  /\ racks unshuffled_game !! 1%Z = Some ["_"; "_"; "Z"; "Y"; "Y"; "X"; "W"]
  /\ scores unshuffled_game !! 1%Z = Some 0%Z
  /\ (fun s' => (cell (board s') 7 7, cell (board s') 7 8,
                 scores s' !! 1%Z, racks s' !! 1%Z))
       <$> apply_move (fun _ => 0) unshuffled_game injected_move
     = Some ("Q", "I", Some 1000%Z,
             Some ["_"; "_"; "Z"; "Y"; "Y"; "X"; "W"; "A"; "A"]).
Proof. vm_compute. repeat split. Qed.

(** ** The shape of [get_legal_moves] *)

Lemma shuffled_AAT_is_a_shuffle : shuffled_AAT ≡ₚ unshuffled_pool.
Proof. compute_done. Qed.



(** ** Boards *)

Lemma filled_true (s : string) : filled s = true <-> s <> EmptyString.
Proof.
  unfold filled. rewrite negb_true_iff, bool_decide_eq_false. tauto.
Qed.

Lemma filled_false (s : string) : filled s = false <-> s = EmptyString.
Proof.
  unfold filled. rewrite negb_false_iff, bool_decide_eq_true. tauto.
Qed.

Lemma wf_empty_board : wf_board empty_board.
Proof.
  split; [reflexivity|]. unfold empty_board.
  apply Forall_replicate. reflexivity.
Qed.

Lemma wf_board_row (b : Board) (r : nat) :
  wf_board b -> r < BOARD_SIZE ->
  exists row, b !! r = Some row /\ length row = BOARD_SIZE.
Proof.
  intros [Hlen Hrows] Hr.
  destruct (lookup_lt_is_Some_2 b r) as [row Hrow]; [lia|].
  exists row. split; [done|].
  by apply (Forall_lookup_1 _ _ _ _ Hrows Hrow).
Qed.

Lemma cell_lookup (b : Board) (r c : nat) (row : list string) :
  b !! r = Some row -> cell b r c = nth c row EmptyString.
Proof. intros H. unfold cell. by rewrite (nth_lookup_Some _ _ _ _ H). Qed.

Lemma set_cell_lookup (b : Board) (r c : nat) (x : string) (row : list string) :
  b !! r = Some row -> set_cell b r c x = <[r := <[c := x]> row]> b.
Proof. intros H. unfold set_cell. by rewrite (nth_lookup_Some _ _ _ _ H). Qed.

Lemma set_cell_outside (b : Board) (r c : nat) (x : string) :
  length b <= r -> set_cell b r c x = b.
Proof. intros H. unfold set_cell. by apply list_insert_ge. Qed.

Lemma wf_set_cell (b : Board) (r c : nat) (x : string) :
  wf_board b -> wf_board (set_cell b r c x).
Proof.
  intros Hwf. destruct (decide (r < length b)) as [Hr|Hr].
  - destruct Hwf as [Hlen Hrows].
    destruct (lookup_lt_is_Some_2 b r Hr) as [row Hrow].
    rewrite (set_cell_lookup _ _ _ _ _ Hrow). split.
    + by rewrite length_insert.
    + apply Forall_insert; [done|]. rewrite length_insert.
      by apply (Forall_lookup_1 _ _ _ _ Hrows Hrow).
  - rewrite set_cell_outside by lia. done.
Qed.

Lemma wf_place_tiles (b : Board) (tiles : list Tile) :
  wf_board b -> wf_board (place_tiles b tiles).
Proof.
  revert b. induction tiles as [|t ts IH]; intros b Hwf; simpl; [done|].
  apply IH. by apply wf_set_cell.
Qed.

Lemma cell_set_cell_eq (b : Board) (r c : nat) (x : string) :
  wf_board b -> r < BOARD_SIZE -> c < BOARD_SIZE ->
  cell (set_cell b r c x) r c = x.
Proof.
  intros Hwf Hr Hc.
  destruct (wf_board_row b r Hwf Hr) as (row & Hrow & Hlen).
  rewrite (set_cell_lookup _ _ _ _ _ Hrow).
  assert (r < length b) as Hrb by (by apply lookup_lt_Some in Hrow).
  rewrite (cell_lookup _ _ _ (<[c:=x]> row)) by (by apply list_lookup_insert_eq).
  apply nth_lookup_Some. apply list_lookup_insert_eq. lia.
Qed.

Lemma cell_set_cell_ne (b : Board) (r c r' c' : nat) (x : string) :
  (r', c') <> (r, c) ->
  cell (set_cell b r c x) r' c' = cell b r' c'.
Proof.
  intros Hne. destruct (decide (r < length b)) as [Hr|Hr].
  - destruct (lookup_lt_is_Some_2 b r Hr) as [row Hrow].
    rewrite (set_cell_lookup _ _ _ _ _ Hrow).
    destruct (decide (r' = r)) as [->|Hrr].
    + rewrite (cell_lookup _ _ _ (<[c:=x]> row))
        by (by apply list_lookup_insert_eq).
      rewrite (cell_lookup _ _ _ row) by done.
      rewrite !nth_lookup. rewrite list_lookup_insert_ne; [done|].
      intros ->. by apply Hne.
    + unfold cell. rewrite !(nth_lookup _ r').
      by rewrite list_lookup_insert_ne by done.
  - by rewrite set_cell_outside by lia.
Qed.

Lemma cell_place_tiles_other (b : Board) (tiles : list Tile) (r c : nat) :
  (r, c) ∉ tile_pos <$> tiles ->
  cell (place_tiles b tiles) r c = cell b r c.
Proof.
  revert b. induction tiles as [|t ts IH]; intros b Hnot; simpl; [done|].
  rewrite fmap_cons, not_elem_of_cons in Hnot. destruct Hnot as [Hne Hnot].
  rewrite IH by done. by apply cell_set_cell_ne.
Qed.

Lemma cell_place_tiles_new (b : Board) (tiles : list Tile) (t : Tile) :
  wf_board b ->
  NoDup (tile_pos <$> tiles) ->
  Forall (fun t => tile_row t < BOARD_SIZE /\ tile_col t < BOARD_SIZE) tiles ->
  t ∈ tiles ->
  cell (place_tiles b tiles) (tile_row t) (tile_col t) = tile_letter t.
Proof.
  revert b. induction tiles as [|u ts IH]; intros b Hwf Hnd Hin Ht; simpl.
  - by apply elem_of_nil in Ht.
  - rewrite fmap_cons in Hnd. apply NoDup_cons in Hnd as [Hu Hnd].
    apply Forall_cons in Hin as [[Hur Huc] Hin].
    apply elem_of_cons in Ht as [->|Ht].
    + rewrite cell_place_tiles_other by done.
      by apply cell_set_cell_eq.
    + apply IH; try done. by apply wf_set_cell.
Qed.

Lemma row_tiles_insert (row : list string) (c : nat) (x : string) :
  row !! c = Some EmptyString -> x <> EmptyString ->
  row_tiles (<[c := x]> row) = S (row_tiles row).
Proof.
  intros Hc Hx. unfold row_tiles.
  assert (c < length row) as Hlt by (by apply lookup_lt_Some in Hc).
  rewrite insert_take_drop by done.
  rewrite <- (take_drop_middle row c EmptyString Hc) at 3.
  rewrite !filter_app, !length_app.
  rewrite filter_cons_True by done.
  rewrite (filter_cons_False _ EmptyString) by (intros H; by apply H).
  simpl. lia.
Qed.

Lemma tiles_on_board_set_cell (b : Board) (r c : nat) (x : string) :
  wf_board b -> r < BOARD_SIZE -> c < BOARD_SIZE ->
  cell b r c = EmptyString -> x <> EmptyString ->
  tiles_on_board (set_cell b r c x) = S (tiles_on_board b).
Proof.
  intros Hwf Hr Hc Hcell Hx.
  destruct (wf_board_row b r Hwf Hr) as (row & Hrow & Hlen).
  rewrite (set_cell_lookup _ _ _ _ _ Hrow).
  assert (r < length b) as Hrb by (by apply lookup_lt_Some in Hrow).
  unfold tiles_on_board.
  rewrite insert_take_drop by done.
  rewrite <- (take_drop_middle b r row Hrow) at 3.
  rewrite !sum_list_with_app. simpl.
  rewrite row_tiles_insert; [lia| |done].
  rewrite (cell_lookup _ _ _ _ Hrow) in Hcell.
  destruct (lookup_lt_is_Some_2 row c) as [y Hy]; [lia|].
  rewrite (nth_lookup_Some _ _ _ _ Hy) in Hcell. by subst y.
Qed.

Lemma fits_in_range (b : Board) (tiles : list Tile) :
  fits b tiles ->
  Forall (fun t => tile_row t < BOARD_SIZE /\ tile_col t < BOARD_SIZE) tiles.
Proof.
  intros [_ H]. eapply Forall_impl; [exact H|].
  intros t (Hr & Hc & _). done.
Qed.

Lemma tiles_on_board_place (b : Board) (tiles : list Tile) :
  wf_board b -> fits b tiles ->
  tiles_on_board (place_tiles b tiles) = tiles_on_board b + length tiles.
Proof.
  revert b. induction tiles as [|t ts IH]; intros b Hwf [Hnd Hall]; simpl.
  - lia.
  - rewrite fmap_cons in Hnd. apply NoDup_cons in Hnd as [Ht Hnd].
    apply Forall_cons in Hall as [(Hr & Hc & Hcell & Hx) Hall].
    rewrite IH.
    + rewrite tiles_on_board_set_cell by done. lia.
    + by apply wf_set_cell.
    + split; [done|].
      apply Forall_forall. intros u Hu.
      pose proof (proj1 (Forall_forall _ _) Hall u Hu) as (Hur & Huc & Hucell & Hux).
      repeat split; try done.
      rewrite cell_set_cell_ne; [done|].
      intros Heq. apply Ht. apply list_elem_of_fmap. exists u. done.
Qed.

Lemma write_tiles_in_range (b : Board) (tiles : list Tile) :
  wf_board b ->
  Forall (fun t => tile_row t < BOARD_SIZE /\ tile_col t < BOARD_SIZE) tiles ->
  write_tiles b tiles = Some (place_tiles b tiles).
Proof.
  revert b. induction tiles as [|t ts IH]; intros b Hwf Hall; simpl; [done|].
  apply Forall_cons in Hall as [[Hr Hc] Hall].
  destruct (wf_board_row b _ Hwf Hr) as (row & Hrow & Hlen).
  rewrite Hrow. simpl. rewrite bool_decide_eq_true_2 by lia.
  apply IH; [by apply wf_set_cell|done].
Qed.

(** ** Racks and the pool *)

Lemma str_in_true (x : string) (xs : list string) : str_in x xs = true <-> x ∈ xs.
Proof. unfold str_in. apply bool_decide_eq_true. Qed.

Lemma remove_first_perm (x : string) (xs : list string) :
  x ∈ xs -> xs ≡ₚ x :: remove_first x xs.
Proof.
  induction xs as [|y ys IH]; intros Hin; simpl.
  - by apply elem_of_nil in Hin.
  - case_bool_decide as Hy.
    + by subst y.
    + apply elem_of_cons in Hin as [->|Hin]; [done|].
      rewrite (IH Hin) at 1. apply Permutation_swap.
Qed.

Lemma remove_first_length (x : string) (xs : list string) :
  x ∈ xs -> S (length (remove_first x xs)) = length xs.
Proof.
  intros Hin. by rewrite (Permutation_length (remove_first_perm x xs Hin)).
Qed.

Lemma remove_first_elem (x y : string) (xs : list string) :
  y ∈ remove_first x xs -> y ∈ xs.
Proof.
  induction xs as [|z zs IH]; simpl; [done|].
  case_bool_decide as Hz.
  - intros Hy. by apply elem_of_cons; right.
  - rewrite !elem_of_cons. intros [->|Hy]; [by left|right; by apply IH].
Qed.

Lemma remove_first_Forall (P : string -> Prop) (x : string) (xs : list string) :
  Forall P xs -> Forall P (remove_first x xs).
Proof.
  rewrite !Forall_forall. intros H y Hy. apply H.
  by apply (remove_first_elem x).
Qed.

Lemma remove_tiles_Forall (P : string -> Prop) (rack tiles : list string) :
  Forall P rack -> Forall P (remove_tiles rack tiles).
Proof.
  revert rack. induction tiles as [|t ts IH]; intros rack H; simpl; [done|].
  destruct (str_in t rack); apply IH; [by apply remove_first_Forall|done].
Qed.

Lemma can_place_length (rack tiles : list string) :
  can_place rack tiles = true ->
  length (remove_tiles rack tiles) + length tiles = length rack.
Proof.
  revert rack. induction tiles as [|t ts IH]; intros rack H; simpl in *.
  - lia.
  - destruct (str_in t rack) eqn:Hin; [|done].
    apply str_in_true in Hin.
    rewrite <- (remove_first_length t rack Hin).
    specialize (IH _ H). lia.
Qed.

Lemma can_place_elem (rack tiles : list string) :
  can_place rack tiles = true -> Forall (fun t => t ∈ rack) tiles.
Proof.
  revert rack. induction tiles as [|t ts IH]; intros rack H; simpl in *.
  - constructor.
  - destruct (str_in t rack) eqn:Hin; [|done].
    apply str_in_true in Hin. constructor; [done|].
    eapply Forall_impl; [by apply IH|].
    intros y Hy. by apply (remove_first_elem t).
Qed.

Lemma can_place_submseteq (rack tiles : list string) :
  tiles ⊆+ rack -> can_place rack tiles = true.
Proof.
  revert rack. induction tiles as [|t ts IH]; intros rack H; simpl; [done|].
  assert (t ∈ rack) as Hin.
  { apply (elem_of_submseteq (t :: ts)); [by left|done]. }
  rewrite (proj2 (str_in_true _ _) Hin).
  apply IH. rewrite (remove_first_perm t rack Hin) in H.
  by apply (submseteq_app_inv_l ts _ [t]).
Qed.

Lemma permutations_spec {A : Type} (k : nat) (pool perm : list A) :
  In perm (permutations k pool) -> length perm = k /\ perm ⊆+ pool.
Proof.
  revert pool perm. induction k as [|k IH]; intros pool perm; simpl.
  - intros [<-|[]]. split; [done|]. apply submseteq_nil_l.
  - rewrite in_flat_map. intros (i & _ & Hi).
    destruct (pool !! i) as [x|] eqn:Hx; [|done].
    apply in_map_iff in Hi as (p & <- & Hp).
    destruct (IH _ _ Hp) as [Hlen Hsub]. split; [simpl; lia|].
    rewrite (delete_Permutation pool i x Hx).
    by apply submseteq_skip.
Qed.

Lemma draw_loop_spec (P : string -> Prop) (rng : nat -> nat)
    (i n : nat) (pool drawn : list string) :
  n <= length pool -> Forall P pool -> Forall P drawn ->
  length (draw_loop rng i n pool drawn).1 = length drawn + n
  /\ length (draw_loop rng i n pool drawn).2 + n = length pool
  /\ Forall P (draw_loop rng i n pool drawn).1
  /\ Forall P (draw_loop rng i n pool drawn).2.
Proof.
  revert i pool drawn. induction n as [|n IH]; intros i pool drawn Hn Hp Hd.
  - simpl. repeat split; try done; lia.
  - simpl.
    set (tile := nth (rng i mod length pool) pool EmptyString).
    assert (tile ∈ pool) as Hin.
    { apply list_elem_of_In, nth_In, Nat.mod_upper_bound. lia. }
    pose proof (remove_first_length tile pool Hin) as Hlen.
    destruct (IH (S i) (remove_first tile pool) (drawn ++ [tile]))
      as (H1 & H2 & H3 & H4).
    + lia.
    + by apply remove_first_Forall.
    + apply Forall_app. split; [done|]. constructor; [|constructor].
      by apply (proj1 (Forall_forall _ _) Hp).
    + rewrite length_app in H1. simpl in H1.
      repeat split; try done; lia.
Qed.

Lemma _draw_tiles_spec (P : string -> Prop) (rng : nat -> nat)
    (pool : list string) (count : nat) :
  Forall P pool ->
  length (_draw_tiles rng pool count).1 = Nat.min count (length pool)
  /\ length (_draw_tiles rng pool count).2 + Nat.min count (length pool)
     = length pool
  /\ Forall P (_draw_tiles rng pool count).1
  /\ Forall P (_draw_tiles rng pool count).2.
Proof.
  intros Hp. unfold _draw_tiles.
  assert (Nat.min count (length pool) <= length pool) as Hle by lia.
  destruct (draw_loop_spec P rng 0 (Nat.min count (length pool)) pool []
              Hle Hp (Forall_nil_2 P))
    as (H1 & H2 & H3 & H4).
  simpl in H1. done.
Qed.

(** ** What the generator emits *)

Lemma span_elem (h : bool) (row col start n : nat) (perm : list string) (t : Tile) :
  In t (span h row col start n perm) <->
  exists i, i < n
            /\ t = if h then (row, start + i, nth i perm EmptyString)
                   else (start + i, col, nth i perm EmptyString).
Proof.
  unfold span, range. rewrite in_map_iff. split.
  - intros (i & <- & Hi). apply in_seq in Hi. exists i. split; [lia|done].
  - intros (i & Hi & ->). exists i. split; [done|]. apply in_seq. lia.
Qed.

Lemma span_letters (h : bool) (row col start : nat) (perm : list string) :
  map tile_letter (span h row col start (length perm) perm) = perm.
Proof.
  unfold span, range. rewrite map_map.
  rewrite Nat.sub_0_r.
  transitivity (map (fun i => nth i perm EmptyString) (seq 0 (length perm))).
  - apply map_ext. intros i. by destruct h.
  - apply nth_ext with (d := EmptyString) (d' := EmptyString).
    + by rewrite length_map, length_seq.
    + intros i Hi. rewrite length_map, length_seq in Hi.
      rewrite (nth_indep _ _ (nth 0 perm EmptyString))
        by (by rewrite length_map, length_seq).
      rewrite (map_nth (fun i => nth i perm EmptyString)).
      by rewrite seq_nth.
Qed.

Lemma span_NoDup (h : bool) (row col start n : nat) (perm : list string) :
  NoDup (tile_pos <$> span h row col start n perm).
Proof.
  unfold span, range. rewrite Nat.sub_0_r.
  change (map ?f ?l) with (f <$> l). rewrite <- list_fmap_compose.
  apply NoDup_fmap_2; [|apply NoDup_seq].
  intros i j. destruct h; unfold tile_pos, tile_row, tile_col; simpl;
    intros Heq; injection Heq; lia.
Qed.

Lemma first_move_placements_elim (b : Board) (perm : list string)
    (n : nat) (h : bool) (m : Move) :
  In m (first_move_placements b perm n h) ->
  exists start,
    start <= 7 < start + n /\ start + n <= BOARD_SIZE
    /\ m = mkMove (span h 7 7 start n perm)
                  (_calculate_score b (span h 7 7 start n perm)) false.
Proof.
  unfold first_move_placements. rewrite in_flat_map.
  intros (start & Hstart & Hm). unfold range in Hstart.
  apply in_seq in Hstart. unfold BOARD_SIZE in *.
  destruct ((start <=? 7) && (7 <? start + n)) eqn:Hc; [|done].
  apply andb_true_iff in Hc as [H1 H2].
  apply Nat.leb_le in H1. apply Nat.ltb_lt in H2.
  destruct Hm as [<-|[]]. exists start. split; [lia|]. split; [lia|done].
Qed.

Lemma first_move_elim (D : gset string) (b : Board) (rack : list string)
    (m : Move) :
  In m (_generate_first_move D b rack) ->
  exists n perm h start,
    2 <= n /\ In perm (permutations n rack)
    /\ is_valid_word D (join perm) = true
    /\ start <= 7 < start + n /\ start + n <= BOARD_SIZE
    /\ m = mkMove (span h 7 7 start n perm)
                  (_calculate_score b (span h 7 7 start n perm)) false.
Proof.
  unfold _generate_first_move. rewrite in_flat_map.
  intros (n & Hn & Hm). unfold range in Hn. apply in_seq in Hn.
  apply in_flat_map in Hm as (perm & Hperm & Hm).
  destruct (is_valid_word D (join perm)) eqn:Hvalid; [|done]. simpl in Hm.
  apply in_app_or in Hm as [Hm|Hm];
    apply first_move_placements_elim in Hm as (start & H1 & H2 & ->).
  - exists n, perm, true, start. repeat split; try done; lia.
  - exists n, perm, false, start. repeat split; try done; lia.
Qed.

Lemma walk_cells_spec (b : Board) (cells tiles tiles' : list Tile)
    (used used' : list string) :
  walk_cells b cells tiles used = Some (tiles', used') ->
  tiles' = tiles ++ List.filter (is_empty_at b) cells
  /\ used' = used ++ map tile_letter (List.filter (is_empty_at b) cells)
  /\ Forall (fun t => is_empty_at b t = false ->
                      cell b (tile_row t) (tile_col t) = tile_letter t) cells.
Proof.
  revert tiles used. induction cells as [|t ts IH]; intros tiles used H;
    simpl in *.
  - injection H as <- <-. by rewrite !app_nil_r.
  - change (bool_decide (cell b (tile_row t) (tile_col t) = EmptyString))
      with (is_empty_at b t) in H.
    destruct (is_empty_at b t) eqn:He.
    + apply IH in H as (-> & -> & Hall). simpl.
      rewrite <- !app_assoc. simpl. repeat split; try done.
      constructor; [|done]. by rewrite He.
    + case_bool_decide as Hl; [|done].
      apply IH in H as (-> & -> & Hall). repeat split; try done.
      constructor; done.
Qed.

Lemma place_at_anchor_elim (D : gset string) (b : Board)
    (rack perm : list string) (n ar ac : nat) (h : bool) (pos : nat) (m : Move) :
  In m (place_at_anchor D b rack perm n ar ac h pos) ->
  let start := along ar ac h - pos in
  let tiles := List.filter (is_empty_at b) (span h ar ac start n perm) in
  pos <= along ar ac h /\ start + n <= BOARD_SIZE
  /\ Forall (fun t => is_empty_at b t = false ->
                      cell b (tile_row t) (tile_col t) = tile_letter t)
            (span h ar ac start n perm)
  /\ tiles <> []
  /\ can_place rack (map tile_letter tiles) = true
  /\ is_valid_word D (_get_word_at (place_tiles b tiles) ar ac h) = true
  /\ _validate_placement D b tiles h = true
  /\ m = mkMove tiles (_calculate_score b tiles) false.
Proof.
  intros Hm start tiles. unfold place_at_anchor in Hm.
  destruct ((along ar ac h <? pos)
            || (BOARD_SIZE <? along ar ac h - pos + n)) eqn:Hb; [done|].
  apply orb_false_iff in Hb as [Hb1 Hb2].
  apply Nat.ltb_ge in Hb1. apply Nat.ltb_ge in Hb2.
  fold (span h ar ac (along ar ac h - pos) n perm) in Hm. fold start in Hm, Hb2.
  destruct (walk_cells b (span h ar ac start n perm) [] [])
    as [[tp used]|] eqn:Hwalk; [|done].
  apply walk_cells_spec in Hwalk as (Htp & Hused & Hall).
  simpl in Htp, Hused. fold tiles in Htp, Hused. subst tp used.
  destruct (length tiles =? 0) eqn:Hlen; [done|].
  destruct (can_place rack (map tile_letter tiles)) eqn:Hcan; [|done].
  simpl in Hm.
  destruct (is_valid_word D (_get_word_at (place_tiles b tiles) ar ac h))
    eqn:Hmain; [|done]. simpl in Hm.
  destruct (_validate_placement D b tiles h) eqn:Hval; [|done].
  destruct Hm as [<-|[]].
  repeat split; try done.
  intros ->. done.
Qed.

Lemma find_anchors_elim (b : Board) (r c : nat) :
  In (r, c) (_find_anchors b) ->
  r < BOARD_SIZE /\ c < BOARD_SIZE /\ cell b r c = EmptyString.
Proof.
  unfold _find_anchors. rewrite in_flat_map. intros (r' & Hr & H).
  apply in_flat_map in H as (c' & Hc & H).
  unfold range in Hr, Hc. apply in_seq in Hr. apply in_seq in Hc.
  destruct (filled (cell b r' c')) eqn:Hf; [done|]. simpl in H.
  match type of H with In _ (if ?cond then _ else _) => destruct cond end;
    [|done].
  destruct H as [H|[]]. injection H as <- <-.
  apply filled_false in Hf. repeat split; [lia|lia|done].
Qed.

Lemma build_words_elim (D : gset string) (b : Board) (rack : list string)
    (ar ac : nat) (h : bool) (m : Move) :
  In m (_build_words_at_anchor D b rack ar ac h) ->
  exists n perm pos,
    2 <= n /\ In perm (permutations n rack)
    /\ is_valid_word D (join perm) = true /\ pos < n
    /\ In m (place_at_anchor D b rack perm n ar ac h pos).
Proof.
  unfold _build_words_at_anchor. rewrite in_flat_map. intros (n & Hn & H).
  unfold range in Hn. apply in_seq in Hn.
  apply in_flat_map in H as (perm & Hperm & H).
  destruct (is_valid_word D (join perm)) eqn:Hvalid; [|done]. simpl in H.
  apply in_flat_map in H as (pos & Hpos & H).
  unfold range in Hpos. apply in_seq in Hpos.
  exists n, perm, pos. repeat split; try done; lia.
Qed.

Lemma connected_elim (D : gset string) (b : Board) (rack : list string)
    (m : Move) :
  In m (_generate_connected_moves D b rack) ->
  exists ar ac h,
    In (ar, ac) (_find_anchors b)
    /\ In m (_build_words_at_anchor D b rack ar ac h).
Proof.
  unfold _generate_connected_moves. rewrite in_flat_map.
  intros ([ar ac] & Hanchor & H). simpl in H.
  apply in_app_or in H as [H|H]; [exists ar, ac, true|exists ar, ac, false];
    done.
Qed.

Lemma board_empty_spec (b : Board) (r c : nat) :
  board_empty b = true -> r < BOARD_SIZE -> c < BOARD_SIZE ->
  cell b r c = EmptyString.
Proof.
  unfold board_empty. intros H Hr Hc.
  rewrite forallb_forall in H.
  assert (In r (range 0 BOARD_SIZE)) as Hir by (apply in_seq; lia).
  specialize (H r Hir). rewrite forallb_forall in H.
  assert (In c (range 0 BOARD_SIZE)) as Hic by (apply in_seq; lia).
  specialize (H c Hic). apply negb_true_iff in H. by apply filled_false.
Qed.

(** A letter taken from a rack of proper tiles is a proper tile. *)
Lemma can_place_nonempty (rack letters : list string) :
  Forall (fun x => x <> EmptyString) rack ->
  can_place rack letters = true ->
  Forall (fun x => x <> EmptyString) letters.
Proof.
  intros Hrack Hcan. apply can_place_elem in Hcan.
  eapply Forall_impl; [exact Hcan|].
  intros x Hx. by apply (proj1 (Forall_forall _ _) Hrack).
Qed.

Lemma filter_is_empty_fits (b : Board) (h : bool) (row col start n : nat)
    (perm rack : list string) :
  row < BOARD_SIZE -> col < BOARD_SIZE -> start + n <= BOARD_SIZE ->
  Forall (fun x => x <> EmptyString) rack ->
  can_place rack
    (map tile_letter (List.filter (is_empty_at b) (span h row col start n perm)))
  = true ->
  fits b (List.filter (is_empty_at b) (span h row col start n perm)).
Proof.
  intros Hrow Hcol Hn Hrack Hcan. split.
  - assert (List.filter (is_empty_at b) (span h row col start n perm)
            `sublist_of` span h row col start n perm) as Hsub.
    { clear. induction (span h row col start n perm) as [|t ts IH]; simpl;
        [done|].
      destruct (is_empty_at b t); by constructor. }
    eapply sublist_NoDup; [apply span_NoDup|by apply fmap_sublist].
  - pose proof (can_place_nonempty _ _ Hrack Hcan) as Hne.
    rewrite Forall_forall in Hne.
    apply Forall_forall. intros t Ht. apply list_elem_of_In in Ht.
    apply filter_In in Ht as [Hspan He].
    apply bool_decide_eq_true in He.
    assert (tile_letter t <> EmptyString) as Hl.
    { apply Hne. apply list_elem_of_In, in_map, filter_In. split; [done|].
      by apply bool_decide_eq_true. }
    apply span_elem in Hspan as (i & Hi & ->).
    destruct h; unfold tile_row, tile_col in *; simpl in *;
      repeat split; try done; lia.
Qed.

(** ** Legal moves fit the board and the rack *)

Lemma filter_all_true {A : Type} (f : A -> bool) (l : list A) :
  (forall x, In x l -> f x = true) -> List.filter f l = l.
Proof.
  induction l as [|x xs IH]; intros H; simpl; [done|].
  rewrite (H x) by (by left). f_equal. apply IH. intros y Hy. apply H. by right.
Qed.

Lemma first_move_placeable (D : gset string) (b : Board) (rack : list string)
    (m : Move) :
  board_empty b = true -> proper_tiles rack ->
  In m (_generate_first_move D b rack) -> placeable b rack m.
Proof.
  intros Hempty Hrack Hm.
  apply first_move_elim in Hm
    as (n & perm & h & start & Hn & Hperm & _ & Hstart & Hfit & ->).
  apply permutations_spec in Hperm as [Hlen Hsub]. subst n.
  assert (List.filter (is_empty_at b) (span h 7 7 start (length perm) perm)
          = span h 7 7 start (length perm) perm) as Hall.
  { apply filter_all_true. intros t Ht.
    apply span_elem in Ht as (i & Hi & ->). unfold is_empty_at.
    apply bool_decide_eq_true. unfold BOARD_SIZE in *.
    destruct h; apply board_empty_spec;
      unfold BOARD_SIZE, tile_row, tile_col; simpl; try done; lia. }
  split; [done|]. simpl.
  assert (can_place rack
            (map tile_letter (span h 7 7 start (length perm) perm)) = true)
    as Hcan.
  { rewrite span_letters. by apply can_place_submseteq. }
  split; [|done].
  rewrite <- Hall. apply (filter_is_empty_fits _ _ _ _ _ _ _ rack);
    unfold BOARD_SIZE in *; try done; try lia.
  by rewrite Hall.
Qed.

Lemma connected_placeable (D : gset string) (b : Board) (rack : list string)
    (m : Move) :
  proper_tiles rack ->
  In m (_generate_connected_moves D b rack) -> placeable b rack m.
Proof.
  intros Hrack Hm.
  apply connected_elim in Hm as (ar & ac & h & Hanchor & Hm).
  apply find_anchors_elim in Hanchor as (Har & Hac & _).
  apply build_words_elim in Hm as (n & perm & pos & _ & _ & _ & Hpos & Hm).
  apply place_at_anchor_elim in Hm
    as (Hle & Hfit & _ & _ & Hcan & _ & _ & ->).
  split; [done|]. simpl. split; [|done].
  by apply (filter_is_empty_fits _ _ _ _ _ _ _ rack).
Qed.

Lemma legal_move_cases (D : gset string) (s : ScrabbleState) (p : Z)
    (rack : list string) (moves : list Move) (m : Move) :
  racks s !! p = Some rack -> proper_tiles rack ->
  get_legal_moves D s p = Some moves -> m ∈ moves ->
  m = pass_move \/ placeable (board s) rack m.
Proof.
  intros Hrack Hproper Hmoves Hm. unfold get_legal_moves in Hmoves.
  destruct (is_terminal s).
  - injection Hmoves as <-. by apply elem_of_nil in Hm.
  - rewrite Hrack in Hmoves. simpl in Hmoves. injection Hmoves as <-.
    apply elem_of_app in Hm as [Hm|Hm].
    + right. apply list_elem_of_In in Hm.
      destruct (board_empty (board s)) eqn:Hempty.
      * by apply (first_move_placeable D).
      * by apply (connected_placeable D).
    + left. by apply list_elem_of_singleton in Hm.
Qed.

(** ** Tile conservation *)

Lemma deal_spec (P : string -> Prop) (n : nat) (pool rack : list string) :
  Forall P pool -> Forall P rack ->
  length (deal n pool rack).1 + length (deal n pool rack).2
  = length rack + length pool
  /\ Forall P (deal n pool rack).1 /\ Forall P (deal n pool rack).2.
Proof.
  revert pool rack. induction n as [|n IH]; intros pool rack Hp Hr; simpl.
  - done.
  - destruct (last pool) as [tile|] eqn:Hlast.
    + apply last_Some in Hlast as [pool' ->].
      rewrite removelast_last.
      apply Forall_app in Hp as [Hp' Ht].
      destruct (IH pool' (rack ++ [tile])) as (H1 & H2 & H3); [done| |].
      { apply Forall_app. done. }
      rewrite !length_app in *. simpl in *. repeat split; try done. lia.
    + by apply IH.
Qed.

Lemma unshuffled_pool_facts :
  length unshuffled_pool = 100 /\ proper_tiles unshuffled_pool.
Proof. split; [reflexivity|]. unfold proper_tiles. compute_done. Qed.

Lemma tiles_on_empty_board : tiles_on_board empty_board = 0.
Proof. reflexivity. Qed.

Lemma create_new_game_inv (shuffled : list string) :
  shuffled ≡ₚ unshuffled_pool -> game_inv (create_new_game shuffled).
Proof.
  intros Hperm.
  destruct unshuffled_pool_facts as [Hlen Hproper].
  assert (length shuffled = 100) as Hlen'
    by (by rewrite (Permutation_length Hperm)).
  assert (proper_tiles shuffled) as Hproper'.
  { unfold proper_tiles. by rewrite Hperm. }
  unfold create_new_game.
  destruct (deal_spec (fun x => x <> EmptyString) RACK_SIZE shuffled []
              Hproper' (Forall_nil_2 _)) as (H1 & H2 & H3).
  destruct (deal RACK_SIZE shuffled []) as [rack1 pool1] eqn:Hd1.
  simpl in H1, H2, H3.
  destruct (deal_spec (fun x => x <> EmptyString) RACK_SIZE pool1 []
              H3 (Forall_nil_2 _)) as (H4 & H5 & H6).
  destruct (deal RACK_SIZE pool1 []) as [rack2 pool2] eqn:Hd2.
  simpl in H4, H5, H6.
  constructor; simpl.
  - apply wf_empty_board.
  - by left.
  - exists rack1. by rewrite lookup_insert_ne, lookup_insert_eq.
  - exists rack2. by rewrite lookup_insert_eq.
  - by rewrite lookup_insert_ne, lookup_insert_eq.
  - by rewrite lookup_insert_eq.
  - done.
  - unfold total_tiles, rack_of. simpl.
    rewrite lookup_insert_ne, !lookup_insert_eq by done. simpl.
    try rewrite tiles_on_empty_board. simpl. lia.
Qed.

Lemma apply_move_pass (rng : nat -> nat) (s : ScrabbleState) (m : Move) :
  is_pass m = true ->
  apply_move rng s m
  = Some {| board := board s;
            tile_pool := tile_pool s;
            racks := racks s;
            current_player := (3 - current_player s)%Z;
            scores := scores s;
            passes_in_a_row := passes_in_a_row s + 1 |}.
Proof. intros H. unfold apply_move. by rewrite H. Qed.

Lemma apply_move_place (rng : nat -> nat) (s : ScrabbleState) (m : Move)
    (rack : list string) (sc : Z) :
  is_pass m = false ->
  write_tiles (board s) (tiles_placed m)
  = Some (place_tiles (board s) (tiles_placed m)) ->
  racks s !! current_player s = Some rack ->
  scores s !! current_player s = Some sc ->
  apply_move rng s m
  = Some {| board := place_tiles (board s) (tiles_placed m);
            tile_pool :=
              (_draw_tiles rng (tile_pool s) (length (tiles_placed m))).2;
            racks :=
              <[current_player s :=
                  remove_tiles rack (map tile_letter (tiles_placed m))
                  ++ (_draw_tiles rng (tile_pool s)
                        (length (tiles_placed m))).1]> (racks s);
            current_player := (3 - current_player s)%Z;
            scores := <[current_player s := (sc + score m)%Z]> (scores s);
            passes_in_a_row := 0 |}.
Proof.
  intros Hpass Hw Hrack Hsc. unfold apply_move.
  rewrite Hpass, Hw, Hsc, Hrack. simpl.
  by destruct (_draw_tiles rng (tile_pool s) (length (tiles_placed m))).
Qed.

Lemma pass_inv (s : ScrabbleState) :
  game_inv s ->
  game_inv {| board := board s;
              tile_pool := tile_pool s;
              racks := racks s;
              current_player := (3 - current_player s)%Z;
              scores := scores s;
              passes_in_a_row := passes_in_a_row s + 1 |}.
Proof.
  intros [Hb Hp Hr1 Hr2 Hs1 Hs2 Hpool Htot]. constructor; simpl; try done.
  destruct Hp as [-> | ->]; [by right|by left].
Qed.

Lemma place_inv (rng : nat -> nat) (s : ScrabbleState) (m : Move)
    (rack : list string) (sc : Z) :
  game_inv s ->
  racks s !! current_player s = Some rack ->
  placeable (board s) rack m ->
  game_inv
    {| board := place_tiles (board s) (tiles_placed m);
       tile_pool :=
         (_draw_tiles rng (tile_pool s) (length (tiles_placed m))).2;
       racks :=
         <[current_player s :=
             remove_tiles rack (map tile_letter (tiles_placed m))
             ++ (_draw_tiles rng (tile_pool s)
                   (length (tiles_placed m))).1]> (racks s);
       current_player := (3 - current_player s)%Z;
       scores := <[current_player s := (sc + score m)%Z]> (scores s);
       passes_in_a_row := 0 |}.
Proof.
  intros [Hb Hp (r1 & Hr1 & Hp1) (r2 & Hr2 & Hp2) Hs1 Hs2 Hpool Htot]
         Hrack (Hpass & Hfits & Hcan).
  destruct (_draw_tiles_spec (fun x => x <> EmptyString) rng (tile_pool s)
              (length (tiles_placed m)) Hpool) as (Hd1 & Hd2 & Hd3 & Hd4).
  pose proof (can_place_length _ _ Hcan) as Hlen.
  rewrite length_map in Hlen.
  pose proof (tiles_on_board_place _ _ Hb Hfits) as Hcount.
  assert (proper_tiles
            (remove_tiles rack (map tile_letter (tiles_placed m))
             ++ (_draw_tiles rng (tile_pool s) (length (tiles_placed m))).1))
    as Hnew.
  { apply Forall_app. split; [|done]. apply remove_tiles_Forall.
    destruct Hp as [Hp|Hp]; rewrite Hp in Hrack;
      [assert (rack = r1) as -> by congruence
      |assert (rack = r2) as -> by congruence]; done. }
  unfold total_tiles, rack_of in Htot. rewrite Hr1, Hr2 in Htot.
  simpl in Htot.
  constructor; simpl.
  - by apply wf_place_tiles.
  - destruct Hp as [-> | ->]; [by right|by left].
  - destruct Hp as [-> | ->].
    + rewrite lookup_insert_eq. eauto.
    + rewrite lookup_insert_ne by done. eauto.
  - destruct Hp as [-> | ->].
    + rewrite lookup_insert_ne by done. eauto.
    + rewrite lookup_insert_eq. eauto.
  - destruct Hp as [-> | ->].
    + by rewrite lookup_insert_eq.
    + by rewrite lookup_insert_ne.
  - destruct Hp as [-> | ->].
    + by rewrite lookup_insert_ne.
    + by rewrite lookup_insert_eq.
  - done.
  - unfold total_tiles, rack_of. simpl.
    destruct Hp as [Hp|Hp]; rewrite Hp in *.
    + rewrite lookup_insert_eq, lookup_insert_ne, Hr2 by done. simpl.
      rewrite length_app.
      assert (rack = r1) as -> by congruence. lia.
    + rewrite lookup_insert_eq, lookup_insert_ne, Hr1 by done. simpl.
      rewrite length_app.
      assert (rack = r2) as -> by congruence. lia.
Qed.

(** A legal move of the player to move always applies, and leads to a state
    that satisfies the invariant again. *)
Lemma legal_move_applies (D : gset string) (rng : nat -> nat)
    (s : ScrabbleState) (moves : list Move) (m : Move) :
  game_inv s ->
  get_legal_moves D s (current_player s) = Some moves ->
  m ∈ moves ->
  exists s', apply_move rng s m = Some s' /\ game_inv s'.
Proof.
  intros Hinv Hmoves Hm.
  assert (exists rack sc, racks s !! current_player s = Some rack
                          /\ proper_tiles rack
                          /\ scores s !! current_player s = Some sc)
    as (rack & sc & Hrack & Hproper & Hsc).
  { destruct Hinv as [_ Hp (r1 & Hr1 & Hp1) (r2 & Hr2 & Hp2) [s1 Hs1] [s2 Hs2]
                        _ _].
    destruct Hp as [-> | ->]; eauto 10. }
  destruct (legal_move_cases D s _ rack moves m Hrack Hproper Hmoves Hm)
    as [-> | Hplace].
  - eexists. split; [by apply apply_move_pass|]. by apply pass_inv.
  - eexists. split.
    + apply (apply_move_place rng s m rack sc); try done.
      * by destruct Hplace.
      * destruct Hplace as (_ & Hfits & _).
        apply write_tiles_in_range; [by destruct Hinv|].
        by apply (fits_in_range (board s)).
    + by apply place_inv.
Qed.

Lemma reachable_inv (D : gset string) (s : ScrabbleState) :
  reachable D s -> game_inv s.
Proof.
  induction 1 as [shuffled Hperm | s s' moves m rng Hreach IH Hmoves Hm Happ].
  - by apply create_new_game_inv.
  - destruct (legal_move_applies D rng s moves m IH Hmoves Hm)
      as (s'' & Happ' & Hinv).
    congruence.
Qed.

(** C3. Tile conservation: in every state reachable from [create_new_game]
    by legal moves of the player to move, the two rack sizes, the pool size
    and the number of non-empty board cells add up to 100. *)
Theorem tile_conservation (DICTIONARY : gset string) (s : ScrabbleState) :
  reachable DICTIONARY s -> total_tiles s = 100.
Proof. intros Hreach. by destruct (reachable_inv DICTIONARY s Hreach). Qed.

Lemma tile_conservation_witness : total_tiles after_AT = 100.
Proof.
  apply (tile_conservation {["AT"]}).
  apply (reach_move _ game_AAT after_AT
           (default [] (get_legal_moves {["AT"]} game_AAT 1))
           move_AT (fun _ => 0)).
  - apply reach_new. exact shuffled_AAT_is_a_shuffle.
  - vm_compute. reflexivity.
  - apply (bool_decide_unpack _). vm_compute. exact I.
  - vm_compute. reflexivity.
Defined.

(** ** Runs *)

Lemma scan_back_spec (ln : nat -> string) (p : nat) :
  scan_back ln p <= p
  /\ (forall q, scan_back ln p <= q < p -> filled (ln q) = true)
  /\ (scan_back ln p = 0 \/ filled (ln (scan_back ln p - 1)) = false).
Proof.
  induction p as [|p (IH1 & IH2 & IH3)]; simpl.
  - split; [lia|]. split; [intros q; lia|by left].
  - destruct (filled (ln p)) eqn:Hf.
    + split; [lia|]. split; [|done].
      intros q Hq. destruct (decide (q = p)) as [->|Hne]; [done|].
      apply IH2. lia.
    + split; [lia|]. split; [intros q; lia|].
      right. simpl. by rewrite Nat.sub_0_r.
Qed.

Lemma scan_back_unique (ln : nat -> string) (p s : nat) :
  s <= p ->
  (forall q, s <= q < p -> filled (ln q) = true) ->
  (s = 0 \/ filled (ln (s - 1)) = false) ->
  scan_back ln p = s.
Proof.
  induction p as [|p IH]; intros Hle Hall Hstop; simpl.
  - lia.
  - destruct (decide (s = S p)) as [->|Hne].
    + destruct Hstop as [?|Hstop]; [lia|].
      simpl in Hstop. rewrite Nat.sub_0_r in Hstop. by rewrite Hstop.
    + rewrite (Hall p) by lia. apply IH; [lia| |done].
      intros q Hq. apply Hall. lia.
Qed.

Lemma scan_fwd_loop_spec (ln : nat -> string) (fuel e : nat) :
  e <= scan_fwd_loop ln fuel e <= e + fuel
  /\ (forall q, e < q <= scan_fwd_loop ln fuel e -> filled (ln q) = true)
  /\ (scan_fwd_loop ln fuel e = e + fuel
      \/ filled (ln (S (scan_fwd_loop ln fuel e))) = false).
Proof.
  revert e. induction fuel as [|fuel IH]; intros e; simpl.
  - split; [lia|]. split; [intros q; lia|left; lia].
  - destruct (filled (ln (S e))) eqn:Hf.
    + destruct (IH (S e)) as (H1 & H2 & H3).
      split; [lia|]. split.
      * intros q Hq. destruct (decide (q = S e)) as [->|Hne]; [done|].
        apply H2. lia.
      * destruct H3 as [H3|H3]; [left; lia|by right].
    + split; [lia|]. split; [intros q; lia|by right].
Qed.

Lemma scan_fwd_loop_unique (ln : nat -> string) (fuel e0 e : nat) :
  e0 <= e <= e0 + fuel ->
  (forall q, e0 < q <= e -> filled (ln q) = true) ->
  (e = e0 + fuel \/ filled (ln (S e)) = false) ->
  scan_fwd_loop ln fuel e0 = e.
Proof.
  revert e0. induction fuel as [|fuel IH]; intros e0 Hle Hall Hstop; simpl.
  - lia.
  - destruct (decide (e = e0)) as [->|Hne].
    + destruct Hstop as [?|Hstop]; [lia|]. by rewrite Hstop.
    + rewrite (Hall (S e0)) by lia. apply IH; [lia| |].
      * intros q Hq. apply Hall. lia.
      * destruct Hstop as [Hstop|Hstop]; [left; lia|by right].
Qed.

Lemma scan_fwd_spec (ln : nat -> string) (p : nat) :
  p < BOARD_SIZE ->
  p <= scan_fwd ln p < BOARD_SIZE
  /\ (forall q, p < q <= scan_fwd ln p -> filled (ln q) = true)
  /\ (scan_fwd ln p = BOARD_SIZE - 1
      \/ filled (ln (scan_fwd ln p + 1)) = false).
Proof.
  intros Hp. unfold scan_fwd.
  destruct (scan_fwd_loop_spec ln (BOARD_SIZE - 1 - p) p) as (H1 & H2 & H3).
  unfold BOARD_SIZE in *. split; [lia|]. split; [done|].
  destruct H3 as [H3|H3]; [left; lia|right]. by rewrite Nat.add_1_r.
Qed.

Lemma scan_fwd_unique (ln : nat -> string) (p e : nat) :
  p <= e < BOARD_SIZE ->
  (forall q, p < q <= e -> filled (ln q) = true) ->
  (e = BOARD_SIZE - 1 \/ filled (ln (e + 1)) = false) ->
  scan_fwd ln p = e.
Proof.
  intros Hle Hall Hstop. unfold scan_fwd. unfold BOARD_SIZE in *.
  apply scan_fwd_loop_unique; [lia|done|].
  destruct Hstop as [Hstop|Hstop]; [left; lia|right].
  by rewrite Nat.add_1_r in Hstop.
Qed.

(** Two cells joined by filled cells lie in the same run. *)
Lemma same_run (ln : nat -> string) (p p' : nat) :
  p < BOARD_SIZE -> p' < BOARD_SIZE ->
  (forall q, Nat.min p p' <= q <= Nat.max p p' -> filled (ln q) = true) ->
  scan_back ln p' = scan_back ln p /\ scan_fwd ln p' = scan_fwd ln p.
Proof.
  intros Hp Hp' Hall.
  destruct (scan_back_spec ln p) as (B1 & B2 & B3).
  destruct (scan_fwd_spec ln p Hp) as (F1 & F2 & F3).
  assert (forall q, scan_back ln p <= q <= scan_fwd ln p ->
                    filled (ln q) = true) as Hrun.
  { intros q Hq. destruct (decide (q < p)); [apply B2; lia|].
    destruct (decide (q = p)) as [->|]; [apply Hall; lia|apply F2; lia]. }
  assert (scan_back ln p <= p') as Hs.
  { destruct (decide (scan_back ln p <= p')); [done|].
    destruct B3 as [B3|B3]; [lia|].
    rewrite Hall in B3 by lia. done. }
  assert (p' <= scan_fwd ln p) as He.
  { destruct (decide (p' <= scan_fwd ln p)); [done|].
    destruct F3 as [F3|F3]; [unfold BOARD_SIZE in *; lia|].
    rewrite Hall in F3 by lia. done. }
  split.
  - apply scan_back_unique; [done| |done]. intros q Hq. apply Hrun. lia.
  - apply scan_fwd_unique; [lia| |done]. intros q Hq. apply Hrun. lia.
Qed.

Lemma String_length_append (s1 s2 : string) :
  String.length (String.append s1 s2) = String.length s1 + String.length s2.
Proof. induction s1 as [|a s1 IH]; simpl; [done|]. by rewrite IH. Qed.

Lemma join_length_ge (xs : list string) :
  Forall (fun x => x <> EmptyString) xs ->
  length xs <= String.length (join xs).
Proof.
  induction 1 as [|x xs Hx _ IH]; simpl; [lia|].
  rewrite String_length_append. destruct x; [done|]. simpl. lia.
Qed.

(** A run of more than one cell spells more than one character. *)
Lemma run_length_word (b : Board) (row col : nat) (h : bool) :
  along row col h < BOARD_SIZE ->
  filled (line b row col h (along row col h)) = true ->
  run_length b row col h <= String.length (_get_word_at b row col h).
Proof.
  intros Hp Hfilled. unfold run_length, run_start, run_end, _get_word_at.
  set (ln := line b row col h). set (p := along row col h).
  destruct (scan_back_spec ln p) as (B1 & B2 & B3).
  destruct (scan_fwd_spec ln p Hp) as (F1 & F2 & F3).
  etransitivity; [|apply join_length_ge].
  - rewrite length_map. unfold range. by rewrite length_seq.
  - apply Forall_forall. intros x Hx. apply list_elem_of_In in Hx.
    apply in_map_iff in Hx as (q & <- & Hq). unfold range in Hq.
    apply in_seq in Hq. apply filled_true.
    destruct (decide (q < p)); [apply B2; lia|].
    destruct (decide (q = p)) as [->|]; [done|apply F2; lia].
Qed.

(** ** Words formed by a generated placement *)

Section Placement.

Variable b : Board.
Variable h : bool.
Variables row col start n : nat.
Variable perm : list string.

Hypothesis Hwf : wf_board b.
Hypothesis Hrow : row < BOARD_SIZE.
Hypothesis Hcol : col < BOARD_SIZE.
Hypothesis Hn : start + n <= BOARD_SIZE.

(** The tiles the move lays down and the board after it. *)
Let tiles : list Tile := List.filter (is_empty_at b) (span h row col start n perm).
Let after : Board := place_tiles b tiles.

Hypothesis Hfits : fits b tiles.
Hypothesis Hkeep :
  Forall (fun t => is_empty_at b t = false ->
                   cell b (tile_row t) (tile_col t) = tile_letter t)
         (span h row col start n perm).

(** The [i]-th cell of the span. *)
Let at_ (i : nat) : Tile :=
  if h then (row, start + i, nth i perm EmptyString)
  else (start + i, col, nth i perm EmptyString).

Lemma at_in_span (i : nat) : i < n -> In (at_ i) (span h row col start n perm).
Proof. intros Hi. apply span_elem. by exists i. Qed.

Lemma at_pos_inj (i j : nat) : tile_pos (at_ i) = tile_pos (at_ j) -> i = j.
Proof.
  unfold at_, tile_pos, tile_row, tile_col. destruct h; simpl;
    intros Heq; injection Heq; lia.
Qed.

Lemma line_at (bd : Board) (i : nat) :
  line bd row col h (start + i) = cell bd (tile_row (at_ i)) (tile_col (at_ i)).
Proof. unfold at_, line, tile_row, tile_col. by destruct h. Qed.

Lemma tiles_elem (t : Tile) :
  t ∈ tiles <-> exists i, i < n /\ t = at_ i /\ is_empty_at b t = true.
Proof.
  unfold tiles. rewrite list_elem_of_In, filter_In, span_elem. split.
  - intros [(i & Hi & ->) He]. by exists i.
  - intros (i & Hi & -> & He). split; [by exists i|done].
Qed.

(** After the move every cell of the span holds the letter of the word. *)
Lemma span_line_after (i : nat) :
  i < n -> line after row col h (start + i) = nth i perm EmptyString.
Proof.
  intros Hi. rewrite line_at. unfold after.
  destruct (is_empty_at b (at_ i)) eqn:He.
  - rewrite cell_place_tiles_new; try done.
    + unfold at_, tile_letter. by destruct h.
    + by destruct Hfits.
    + by apply (fits_in_range b).
    + apply tiles_elem. by exists i.
  - rewrite cell_place_tiles_other.
    + rewrite Forall_forall in Hkeep.
      rewrite (Hkeep (at_ i)); [|by apply list_elem_of_In, at_in_span|done].
      unfold at_, tile_letter. by destruct h.
    + intros Hpos. apply list_elem_of_fmap in Hpos as (t & Hpos & Ht).
      apply tiles_elem in Ht as (j & Hj & -> & Hej).
      apply at_pos_inj in Hpos. subst j. congruence.
Qed.

Lemma span_line_filled (i : nat) :
  i < n -> filled (line after row col h (start + i)) = true.
Proof.
  intros Hi. apply filled_true. rewrite span_line_after by done.
  destruct (is_empty_at b (at_ i)) eqn:He.
  - destruct Hfits as [_ Hall]. rewrite Forall_forall in Hall.
    assert (at_ i ∈ tiles) as Hin by (apply tiles_elem; by exists i).
    destruct (Hall _ Hin) as (_ & _ & _ & Hl).
    unfold at_, tile_letter in Hl. by destruct h.
  - rewrite Forall_forall in Hkeep.
    pose proof (Hkeep (at_ i) (proj2 (list_elem_of_In _ _) (at_in_span i Hi)) He)
      as Hk.
    unfold is_empty_at in He. apply bool_decide_eq_false in He.
    rewrite Hk in He. unfold at_, tile_letter in He. by destruct h.
Qed.

(** A cell off the span is as it was. *)
Lemma off_span_after (r c : nat) :
  (forall i, i < n -> (r, c) <> tile_pos (at_ i)) ->
  cell after r c = cell b r c.
Proof.
  intros Hoff. unfold after. apply cell_place_tiles_other.
  intros Hpos. apply list_elem_of_fmap in Hpos as (t & Hpos & Ht).
  apply tiles_elem in Ht as (j & Hj & -> & _). by apply (Hoff j).
Qed.

(** Along the placement, every tile laid down reads the same word as any
    other cell of the span. *)
Lemma main_word_same (i j : nat) :
  i < n -> j < n ->
  _get_word_at after (tile_row (at_ i)) (tile_col (at_ i)) h
  = _get_word_at after (tile_row (at_ j)) (tile_col (at_ j)) h.
Proof.
  intros Hi Hj. unfold _get_word_at.
  assert (forall k, line after (tile_row (at_ k)) (tile_col (at_ k)) h
                    = line after row col h) as Hline.
  { intros k. unfold at_, line, tile_row, tile_col. by destruct h. }
  assert (forall k, along (tile_row (at_ k)) (tile_col (at_ k)) h = start + k)
    as Halong.
  { intros k. unfold at_, along, tile_row, tile_col. by destruct h. }
  rewrite !Hline, !Halong.
  destruct (same_run (line after row col h) (start + j) (start + i))
    as [-> ->]; unfold BOARD_SIZE in *; try lia; [|done].
  intros q Hq.
  replace q with (start + (q - start)) by lia.
  apply span_line_filled. lia.
Qed.

End Placement.

Lemma line_along (bd : Board) (r c : nat) (h : bool) :
  line bd r c h (along r c h) = cell bd r c.
Proof. by destruct h. Qed.

Lemma place_at_anchor_sound (D : gset string) (b : Board)
    (rack perm : list string) (n ar ac : nat) (h : bool) (pos : nat) (m : Move) :
  wf_board b -> proper_tiles rack ->
  ar < BOARD_SIZE -> ac < BOARD_SIZE -> pos < n ->
  In m (place_at_anchor D b rack perm n ar ac h pos) ->
  runs_valid D (place_tiles b (tiles_placed m)) (tiles_placed m).
Proof.
  intros Hwf Hrack Har Hac Hpos Hm.
  apply place_at_anchor_elim in Hm
    as (Hle & Hfit & Hkeep & _ & Hcan & Hmain & Hval & ->).
  simpl. set (start := along ar ac h - pos) in *.
  pose proof (filter_is_empty_fits b h ar ac start n perm rack
                Har Hac Hfit Hrack Hcan) as Hfits.
  intros t h' Ht Hrun.
  pose proof Ht as Ht'.
  apply tiles_elem in Ht' as (i & Hi & -> & He).
  assert (h' = h \/ h' = negb h) as [-> | ->]
    by (destruct h, h'; auto).
  - rewrite (main_word_same b h ar ac start n perm Hwf Har Hac Hfit Hfits
               Hkeep i pos Hi Hpos).
    replace (tile_row _) with ar; [replace (tile_col _) with ac; [done|]|];
      unfold start, along, tile_row, tile_col in *; destruct h; simpl;
      try done; lia.
  - unfold _validate_placement in Hval. rewrite forallb_forall in Hval.
    specialize (Hval _ (proj1 (list_elem_of_In _ _) Ht)).
    apply negb_true_iff, andb_false_iff in Hval as [Hval|Hval].
    + apply Nat.ltb_ge in Hval.
      set (t := if h then (ar, start + i, nth i perm EmptyString)
                else (start + i, ac, nth i perm EmptyString)) in *.
      pose proof (run_length_word
                    (place_tiles b
                       (List.filter (is_empty_at b) (span h ar ac start n perm)))
                    (tile_row t) (tile_col t) (negb h)) as Hlen.
      rewrite line_along in Hlen.
      assert (cell (place_tiles b
                      (List.filter (is_empty_at b) (span h ar ac start n perm)))
                   (tile_row t) (tile_col t)
              = line (place_tiles b
                        (List.filter (is_empty_at b)
                           (span h ar ac start n perm)))
                     ar ac h (start + i)) as Hcell.
      { unfold t, line, tile_row, tile_col. by destruct h. }
      rewrite Hcell in Hlen.
      rewrite (span_line_filled b h ar ac start n perm) in Hlen by done.
      assert (along (tile_row t) (tile_col t) (negb h) < BOARD_SIZE) as Hal.
      { unfold t, along, tile_row, tile_col. destruct h; simpl; lia. }
      specialize (Hlen Hal eq_refl). lia.
    + by apply negb_false_iff in Hval.
Qed.

Lemma connected_sound (D : gset string) (b : Board) (rack : list string)
    (m : Move) :
  wf_board b -> proper_tiles rack ->
  In m (_generate_connected_moves D b rack) ->
  runs_valid D (place_tiles b (tiles_placed m)) (tiles_placed m).
Proof.
  intros Hwf Hrack Hm.
  apply connected_elim in Hm as (ar & ac & h & Hanchor & Hm).
  apply find_anchors_elim in Hanchor as (Har & Hac & _).
  apply build_words_elim in Hm as (n & perm & pos & _ & _ & _ & Hpos & Hm).
  by apply (place_at_anchor_sound D b rack perm n ar ac h pos).
Qed.

Lemma map_nth_seq (perm : list string) :
  map (fun i => nth i perm EmptyString) (seq 0 (length perm)) = perm.
Proof.
  induction perm as [|x xs IH]; simpl; [done|].
  f_equal. rewrite <- seq_shift, map_map. simpl. exact IH.
Qed.

Lemma first_move_sound (D : gset string) (b : Board) (rack : list string)
    (m : Move) :
  wf_board b -> board_empty b = true -> proper_tiles rack ->
  In m (_generate_first_move D b rack) ->
  runs_valid D (place_tiles b (tiles_placed m)) (tiles_placed m).
Proof.
  intros Hwf Hempty Hrack Hm.
  apply first_move_elim in Hm
    as (n & perm & h & start & Hn & Hperm & Hvalid & Hstart & Hfit & ->).
  apply permutations_spec in Hperm as [Hlen Hsub]. simpl.
  assert (7 < BOARD_SIZE) as H7 by (unfold BOARD_SIZE; lia).
  assert (forall r c, r < BOARD_SIZE -> c < BOARD_SIZE ->
                      cell b r c = EmptyString) as Hcells.
  { intros r c Hr Hc. by apply board_empty_spec. }
  assert (List.filter (is_empty_at b) (span h 7 7 start n perm)
          = span h 7 7 start n perm) as Hall.
  { apply filter_all_true. intros t Ht.
    apply span_elem in Ht as (i & Hi & ->). unfold is_empty_at.
    apply bool_decide_eq_true.
    destruct h; apply Hcells; unfold BOARD_SIZE, tile_row, tile_col in *;
      simpl; lia. }
  rewrite <- Hall.
  assert (can_place rack
            (map tile_letter
               (List.filter (is_empty_at b) (span h 7 7 start n perm)))
          = true) as Hcan.
  { rewrite Hall. subst n. rewrite span_letters.
    by apply can_place_submseteq. }
  pose proof (filter_is_empty_fits b h 7 7 start n perm rack
                H7 H7 Hfit Hrack Hcan) as Hfits.
  assert (Forall (fun t => is_empty_at b t = false ->
                           cell b (tile_row t) (tile_col t) = tile_letter t)
                 (span h 7 7 start n perm)) as Hkeep.
  { apply Forall_forall. intros t Ht He. apply list_elem_of_In in Ht.
    rewrite <- Hall in Ht. apply filter_In in Ht as [_ Ht]. congruence. }
  set (after := place_tiles b
                  (List.filter (is_empty_at b) (span h 7 7 start n perm))).
  assert (forall i, i < n ->
            line after 7 7 h (start + i) = nth i perm EmptyString) as Hon.
  { intros i Hi. by apply span_line_after. }
  assert (forall i, i < n -> filled (line after 7 7 h (start + i)) = true)
    as Hfilled.
  { intros i Hi. by apply span_line_filled. }
  assert (forall r c, r < BOARD_SIZE -> c < BOARD_SIZE ->
            (forall i, i < n ->
               (r, c) <> (if h then (7, start + i) else (start + i, 7))) ->
            filled (cell after r c) = false) as Hoff.
  { intros r c Hr Hc Hne. apply filled_false.
    unfold after. rewrite (off_span_after b h 7 7 start n perm).
    - by apply Hcells.
    - intros i Hi. specialize (Hne i Hi).
      unfold tile_pos, tile_row, tile_col. by destruct h. }
  intros t h' Ht Hrun.
  apply tiles_elem in Ht as (i & Hi & -> & He).
  assert (h' = h \/ h' = negb h) as [-> | ->]
    by (destruct h, h'; auto).
  - unfold _get_word_at.
    assert (line after
              (tile_row (if h then (7, start + i, nth i perm EmptyString)
                         else (start + i, 7, nth i perm EmptyString)))
              (tile_col (if h then (7, start + i, nth i perm EmptyString)
                         else (start + i, 7, nth i perm EmptyString))) h
            = line after 7 7 h) as ->.
    { unfold line, tile_row, tile_col. by destruct h. }
    assert (along
              (tile_row (if h then (7, start + i, nth i perm EmptyString)
                         else (start + i, 7, nth i perm EmptyString)))
              (tile_col (if h then (7, start + i, nth i perm EmptyString)
                         else (start + i, 7, nth i perm EmptyString))) h
            = start + i) as ->.
    { unfold along, tile_row, tile_col. by destruct h. }
    rewrite (scan_back_unique _ _ start).
    + rewrite (scan_fwd_unique _ _ (start + n - 1)).
      * unfold range.
        replace (start + n - 1 + 1 - start) with n by lia.
        replace (seq start n) with (map (Nat.add start) (seq 0 n)).
        -- rewrite map_map.
           rewrite (map_ext_in _ (fun i => nth i perm EmptyString)).
           ++ subst n. by rewrite map_nth_seq.
           ++ intros j Hj. apply in_seq in Hj. apply Hon. lia.
        -- change (map ?f ?l) with (f <$> l). rewrite fmap_add_seq.
           by rewrite Nat.add_0_r.
      * unfold BOARD_SIZE in *. lia.
      * intros q Hq. replace q with (start + (q - start)) by lia.
        apply Hfilled. lia.
      * destruct (decide (start + n = BOARD_SIZE)) as [Heq|Hne];
          [left; unfold BOARD_SIZE in *; lia|right].
        replace (line after 7 7 h (start + n - 1 + 1))
          with (cell after (if h then 7 else start + n)
                           (if h then start + n else 7)).
        -- apply Hoff; unfold BOARD_SIZE in *; destruct h; try lia;
             intros j Hj Heq; injection Heq; lia.
        -- unfold line. replace (start + n - 1 + 1) with (start + n) by lia.
           by destruct h.
    + lia.
    + intros q Hq. replace q with (start + (q - start)) by lia.
      apply Hfilled. lia.
    + destruct (decide (start = 0)) as [Heq|Hne]; [by left|right].
      replace (line after 7 7 h (start - 1))
        with (cell after (if h then 7 else start - 1)
                         (if h then start - 1 else 7)).
      * apply Hoff; unfold BOARD_SIZE in *; destruct h; try lia;
          intros j Hj Heq; injection Heq; lia.
      * unfold line. by destruct h.
  - exfalso. unfold run_length, run_start, run_end in Hrun.
    set (t := if h then (7, start + i, nth i perm EmptyString)
              else (start + i, 7, nth i perm EmptyString)) in *.
    assert (along (tile_row t) (tile_col t) (negb h) = 7) as Hal.
    { unfold t, along, tile_row, tile_col. by destruct h. }
    rewrite Hal in Hrun.
    assert (forall q, q < BOARD_SIZE -> q <> 7 ->
              filled (line after (tile_row t) (tile_col t) (negb h) q) = false)
      as Hside.
    { intros q Hq Hq7.
      replace (line after (tile_row t) (tile_col t) (negb h) q)
        with (cell after (if h then q else start + i)
                         (if h then start + i else q)).
      - apply Hoff; unfold BOARD_SIZE in *; destruct h; try lia;
          intros j Hj Heq; injection Heq; lia.
      - unfold t, line, tile_row, tile_col. by destruct h. }
    rewrite (scan_back_unique _ _ 7) in Hrun; [|lia|intros q; lia|].
    + rewrite (scan_fwd_unique _ _ 7) in Hrun; [lia|done|intros q; lia|].
      right. apply Hside; unfold BOARD_SIZE; lia.
    + right. apply Hside; unfold BOARD_SIZE; simpl; lia.
Qed.

Lemma apply_move_board (rng : nat -> nat) (s s' : ScrabbleState) (m : Move) :
  is_pass m = false -> apply_move rng s m = Some s' ->
  board s' = place_tiles (board s) (tiles_placed m).
Proof.
  intros Hpass Happ. unfold apply_move in Happ. rewrite Hpass in Happ.
  simpl in Happ.
  destruct (write_tiles (board s) (tiles_placed m)) as [b'|] eqn:Hw;
    [|done]. simpl in Happ.
  destruct (scores s !! current_player s); [|done]. simpl in Happ.
  destruct (racks s !! current_player s); [|done]. simpl in Happ.
  destruct (_draw_tiles rng (tile_pool s) (length (tiles_placed m))).
  injection Happ as <-. simpl. by apply write_tiles_place.
Qed.

(** The run [_get_word_at] reads through a filled cell is the maximal
    contiguous run of filled cells through it: it contains the cell, all its
    cells are filled, and it stops at the edge of the board or at an empty
    cell on either side. *)
Lemma run_is_maximal (b : Board) (row col : nat) (h : bool) :
  along row col h < BOARD_SIZE ->
  filled (cell b row col) = true ->
  run_start b row col h <= along row col h <= run_end b row col h
  /\ run_end b row col h < BOARD_SIZE
  /\ (forall q, run_start b row col h <= q <= run_end b row col h ->
                filled (line b row col h q) = true)
  /\ (run_start b row col h = 0
      \/ filled (line b row col h (run_start b row col h - 1)) = false)
  /\ (run_end b row col h = BOARD_SIZE - 1
      \/ filled (line b row col h (run_end b row col h + 1)) = false)
  /\ _get_word_at b row col h
     = join (map (line b row col h)
                 (seq (run_start b row col h) (run_length b row col h))).
Proof.
  intros Hp Hcell. unfold run_start, run_end, run_length, _get_word_at.
  rewrite <- (line_along b row col h) in Hcell.
  set (ln := line b row col h) in *. set (p := along row col h) in *.
  destruct (scan_back_spec ln p) as (B1 & B2 & B3).
  destruct (scan_fwd_spec ln p Hp) as (F1 & F2 & F3).
  repeat split; try done; try lia.
  intros q Hq. destruct (decide (q < p)); [apply B2; lia|].
  destruct (decide (q = p)) as [->|]; [done|apply F2; lia].
Qed.

(** C4. Generator soundness: for every state with a 15 x 15 board whose
    player to move holds proper (non-empty) tiles, every Place move that
    [get_legal_moves] returns for that player leaves, once applied, a board
    on which every maximal horizontal and vertical run of more than one cell
    through a newly placed tile is a valid word. *)
Theorem generator_soundness (DICTIONARY : gset string) (rng : nat -> nat)
    (s s' : ScrabbleState) (rack : list string) (moves : list Move)
    (m : Move) :
  wf_board (board s) ->
  racks s !! current_player s = Some rack ->
  proper_tiles rack ->
  get_legal_moves DICTIONARY s (current_player s) = Some moves ->
  m ∈ moves ->
  is_pass m = false ->
  apply_move rng s m = Some s' ->
  forall (t : Tile) (horizontal : bool),
    t ∈ tiles_placed m ->
    1 < run_length (board s') (tile_row t) (tile_col t) horizontal ->
    is_valid_word DICTIONARY
      (_get_word_at (board s') (tile_row t) (tile_col t) horizontal) = true.
Proof.
  intros Hwf Hrack Hproper Hmoves Hm Hpass Happ.
  rewrite (apply_move_board rng s s' m Hpass Happ).
  unfold get_legal_moves in Hmoves.
  destruct (is_terminal s).
  { injection Hmoves as <-. by apply elem_of_nil in Hm. }
  rewrite Hrack in Hmoves. simpl in Hmoves. injection Hmoves as <-.
  apply elem_of_app in Hm as [Hm|Hm].
  - apply list_elem_of_In in Hm.
    destruct (board_empty (board s)) eqn:Hempty.
    + by apply (first_move_sound DICTIONARY (board s) rack m).
    + by apply (connected_sound DICTIONARY (board s) rack m).
  - apply list_elem_of_singleton in Hm. by subst m.
Qed.

Lemma generator_soundness_witness :
  is_valid_word {["AT"]} (_get_word_at (board after_AT) 7 6 true) = true.
Proof.
  apply (generator_soundness {["AT"]} (fun _ => 0) game_AAT after_AT
           ["A"; "A"; "T"; "E"; "R"; "S"; "N"]
           (default [] (get_legal_moves {["AT"]} game_AAT 1)) move_AT)
    with (t := (7, 6, "A")) (horizontal := true).
  - exact wf_empty_board.
  - vm_compute. reflexivity.
  - unfold proper_tiles. apply (bool_decide_unpack _). vm_compute. exact I.
  - vm_compute. reflexivity.
  - apply (bool_decide_unpack _). vm_compute. exact I.
  - reflexivity.
  - vm_compute. reflexivity.
  - apply (bool_decide_unpack _). vm_compute. exact I.
  - vm_compute. lia.
Defined.

(** ** Alpha-beta against minimax *)

Lemma tag_range (v : Value) :
  (-1 <= tag v <= 1)%Z /\ (tag v <> 0%Z -> num v = 0%Z).
Proof. destruct v; simpl; lia. Qed.

Lemma vle_iff (a b : Value) :
  vle a b = true <->
  (tag a < tag b)%Z \/ (tag a = tag b /\ (num a <= num b)%Z).
Proof.
  destruct a, b; simpl; rewrite ?Z.leb_le; try lia;
    split; (discriminate || lia || auto).
Qed.

Lemma vle_false_iff (a b : Value) :
  vle a b = false <->
  (tag b < tag a)%Z \/ (tag a = tag b /\ (num b < num a)%Z).
Proof.
  destruct a, b; simpl; rewrite ?Z.leb_gt; try lia;
    split; (discriminate || lia || auto).
Qed.

Lemma vlt_iff (a b : Value) :
  vlt a b = true <->
  (tag a < tag b)%Z \/ (tag a = tag b /\ (num a < num b)%Z).
Proof. unfold vlt. rewrite negb_true_iff, vle_false_iff. lia. Qed.

Lemma vlt_false_iff (a b : Value) :
  vlt a b = false <->
  (tag b < tag a)%Z \/ (tag a = tag b /\ (num b <= num a)%Z).
Proof. unfold vlt. rewrite negb_false_iff, vle_iff. lia. Qed.

Lemma value_eq_iff (a b : Value) :
  a = b <-> tag a = tag b /\ num a = num b.
Proof.
  split; [by intros ->|].
  destruct a, b; simpl; intros [H1 H2]; try discriminate; congruence.
Qed.

Lemma vmax_cases (a b : Value) :
  (vlt a b = true /\ vmax a b = b) \/ (vlt a b = false /\ vmax a b = a).
Proof. unfold vmax. destruct (vlt a b); auto. Qed.

Lemma vmin_cases (a b : Value) :
  (vlt b a = true /\ vmin a b = b) \/ (vlt b a = false /\ vmin a b = a).
Proof. unfold vmin. destruct (vlt b a); auto. Qed.

(** Facts about the order: split on each [vmax] and [vmin], then hand the
    comparisons to [lia] as statements about [tag] and [num]. *)
Ltac value_order :=
  unfold bound in *; intros;
  repeat match goal with
         | |- context [vmax ?x ?y] =>
             let Hc := fresh in let He := fresh in
             destruct (vmax_cases x y) as [[Hc He]|[Hc He]];
             rewrite ?He in *; clear He
         | H : context [vmax ?x ?y] |- _ =>
             let Hc := fresh in let He := fresh in
             destruct (vmax_cases x y) as [[Hc He]|[Hc He]];
             rewrite ?He in *; clear He
         | |- context [vmin ?x ?y] =>
             let Hc := fresh in let He := fresh in
             destruct (vmin_cases x y) as [[Hc He]|[Hc He]];
             rewrite ?He in *; clear He
         | H : context [vmin ?x ?y] |- _ =>
             let Hc := fresh in let He := fresh in
             destruct (vmin_cases x y) as [[Hc He]|[Hc He]];
             rewrite ?He in *; clear He
         end;
  rewrite ?vle_iff, ?vle_false_iff, ?vlt_iff, ?vlt_false_iff, ?value_eq_iff
    in *;
  repeat match goal with v : Value |- _ => destruct v end;
  unfold tag, num in *;
  lia.

Lemma vmax_absorb (a m r : Value) :
  vmax (vmax a m) (vmax m r) = vmax a (vmax m r).
Proof. value_order. Qed.

Lemma vmin_absorb (b m r : Value) :
  vmin (vmin b m) (vmin m r) = vmin b (vmin m r).
Proof. value_order. Qed.

Lemma vmax_NegInf_r (a : Value) : vmax a NegInf = a.
Proof. by destruct a. Qed.

Lemma vmin_PosInf_r (b : Value) : vmin b PosInf = b.
Proof. by destruct b. Qed.

Lemma bound_exact (a b v : Value) : bound a b v v.
Proof. unfold bound. auto. Qed.

Lemma bound_NegInf (a b : Value) : vlt a b = true -> bound a b NegInf NegInf.
Proof. value_order. Qed.

Lemma bound_PosInf (a b : Value) : vlt a b = true -> bound a b PosInf PosInf.
Proof. value_order. Qed.

Lemma bound_max_step (a b V m v r : Value) :
  vlt (vmax a m) b = true ->
  bound a b V m ->
  bound (vmax a m) b v r ->
  bound a b (vmax V v) (vmax m r).
Proof. value_order. Qed.

Lemma bound_max_cut (a b V Vf m : Value) :
  vlt a b = true ->
  bound a b V m ->
  vle b (vmax a m) = true ->
  vle V Vf = true ->
  bound a b Vf m.
Proof. value_order. Qed.

Lemma bound_min_step (a b V m v r : Value) :
  vlt a (vmin b m) = true ->
  bound a b V m ->
  bound a (vmin b m) v r ->
  bound a b (vmin V v) (vmin m r).
Proof. value_order. Qed.

Lemma bound_min_cut (a b V Vf m : Value) :
  vlt a b = true ->
  bound a b V m ->
  vle (vmin b m) a = true ->
  vle Vf V = true ->
  bound a b Vf m.
Proof. value_order. Qed.

Lemma vlt_vmax_l (a m b : Value) : vlt (vmax a m) b = true -> vlt a b = true.
Proof. value_order. Qed.

Lemma vlt_vmin_r (a b m : Value) : vlt a (vmin b m) = true -> vlt a b = true.
Proof. value_order. Qed.

Lemma foldl_vmax_ge (V : Value) (vs : list Value) :
  vle V (foldl vmax V vs) = true.
Proof.
  revert V. induction vs as [|v vs IH]; intros V; simpl.
  - value_order.
  - specialize (IH (vmax V v)). revert IH.
    generalize (foldl vmax (vmax V v) vs). intros W. value_order.
Qed.

Lemma foldl_vmin_le (V : Value) (vs : list Value) :
  vle (foldl vmin V vs) V = true.
Proof.
  revert V. induction vs as [|v vs IH]; intros V; simpl.
  - value_order.
  - specialize (IH (vmin V v)). revert IH.
    generalize (foldl vmin (vmin V v) vs). intros W. value_order.
Qed.

Lemma root_choice (best v r : Value) :
  (vlt best PosInf = true -> bound best PosInf v r) ->
  vlt best r = vlt best v /\ (vlt best v = true -> r = v).
Proof.
  intros H. split; [|revert H; value_order].
  destruct (vlt best r) eqn:E1, (vlt best v) eqn:E2; try done;
    exfalso; revert H E1 E2; value_order.
Qed.

Lemma vmax_best (best v : Value) :
  vmax best (if vlt best v then v else best) = (if vlt best v then v else best).
Proof. destruct (vlt best v) eqn:E; revert E; value_order. Qed.

Section AlphaBeta.

Variable DICTIONARY : gset string.
Variable oracle : list nat -> nat -> nat.

(** The maximizing loop, entered with the value [m] it has so far, the
    window [(vmax alpha m, beta)], and [V] the greatest reference value of
    the children already seen. *)
Lemma max_loop_sound rec_mm rec_ab (state : ScrabbleState) (path : list nat)
    (alpha beta : Value) :
  refines rec_mm rec_ab ->
  forall (moves : list Move) (i : nat) (vs : list Value) (V m : Value),
    AlphaBetaMinimax.children_values oracle rec_mm state path i moves = Some vs ->
    exists r,
      AlphaBetaMinimax.max_loop oracle rec_ab state path i moves m (vmax alpha m) beta = Some r
      /\ (vlt (vmax alpha m) beta = true -> bound alpha beta V m ->
          bound alpha beta (foldl vmax V vs) r).
Proof.
  intros Hrec.
  induction moves as [|move rest IH]; intros i vs V m Hvs; simpl in *.
  - injection Hvs as <-. eauto.
  - destruct (apply_move _ state move) as [next_state|]; [|done].
    simpl in *.
    destruct (rec_mm next_state (path ++ [i])) as [v|] eqn:Hv; [|done].
    simpl in *.
    destruct (AlphaBetaMinimax.children_values _ _ _ _ (S i) rest)
      as [vs'|] eqn:Hvs'; [|done].
    simpl in Hvs. injection Hvs as <-.
    destruct (Hrec _ _ (vmax alpha m) beta _ Hv) as (r0 & -> & Hr0).
    simpl. rewrite vmax_absorb.
    destruct (IH (S i) vs' (vmax V v) (vmax m r0) Hvs') as (r & Hloop & Hr).
    destruct (vle beta (vmax alpha (vmax m r0))) eqn:Hcut.
    + eexists. split; [done|]. intros Hwin HV. simpl.
      apply (bound_max_cut alpha beta (vmax V v)).
      * by eapply vlt_vmax_l.
      * apply bound_max_step; auto.
      * done.
      * apply foldl_vmax_ge.
    + exists r. split; [done|]. intros Hwin HV. simpl. apply Hr.
      * unfold vlt. by rewrite Hcut.
      * apply bound_max_step; auto.
Qed.

(** The minimizing loop, dually. *)
Lemma min_loop_sound rec_mm rec_ab (state : ScrabbleState) (path : list nat)
    (alpha beta : Value) :
  refines rec_mm rec_ab ->
  forall (moves : list Move) (i : nat) (vs : list Value) (V m : Value),
    AlphaBetaMinimax.children_values oracle rec_mm state path i moves = Some vs ->
    exists r,
      AlphaBetaMinimax.min_loop oracle rec_ab state path i moves m alpha (vmin beta m) = Some r
      /\ (vlt alpha (vmin beta m) = true -> bound alpha beta V m ->
          bound alpha beta (foldl vmin V vs) r).
Proof.
  intros Hrec.
  induction moves as [|move rest IH]; intros i vs V m Hvs; simpl in *.
  - injection Hvs as <-. eauto.
  - destruct (apply_move _ state move) as [next_state|]; [|done].
    simpl in *.
    destruct (rec_mm next_state (path ++ [i])) as [v|] eqn:Hv; [|done].
    simpl in *.
    destruct (AlphaBetaMinimax.children_values _ _ _ _ (S i) rest)
      as [vs'|] eqn:Hvs'; [|done].
    simpl in Hvs. injection Hvs as <-.
    destruct (Hrec _ _ alpha (vmin beta m) _ Hv) as (r0 & -> & Hr0).
    simpl. rewrite vmin_absorb.
    destruct (IH (S i) vs' (vmin V v) (vmin m r0) Hvs') as (r & Hloop & Hr).
    destruct (vle (vmin beta (vmin m r0)) alpha) eqn:Hcut.
    + eexists. split; [done|]. intros Hwin HV. simpl.
      apply (bound_min_cut alpha beta (vmin V v)).
      * by eapply vlt_vmin_r.
      * apply bound_min_step; auto.
      * done.
      * apply foldl_vmin_le.
    + exists r. split; [done|]. intros Hwin HV. simpl. apply Hr.
      * unfold vlt. by rewrite Hcut.
      * apply bound_min_step; auto.
Qed.

(** [_minimax_value] against the reference, at every depth and window. *)
Lemma minimax_value_sound (depth : nat) (maximizing_player_id : Z) :
  refines
    (AlphaBetaMinimax.brute_force_value DICTIONARY oracle depth
       maximizing_player_id)
    (fun s p a b =>
       AlphaBetaMinimax._minimax_value DICTIONARY oracle depth s p a b
         maximizing_player_id).
Proof.
  induction depth as [|depth IH]; intros s p a b v Hv; simpl in *.
  - exists v. split; [done|]. intros _. apply bound_exact.
  - destruct (is_terminal s).
    { exists v. split; [done|]. intros _. apply bound_exact. }
    destruct (get_legal_moves DICTIONARY s (current_player s))
      as [moves|]; [|done].
    simpl in *.
    destruct (AlphaBetaMinimax.children_values _ _ _ _ _ _)
      as [vs|] eqn:Hvs; [|done].
    simpl in Hv.
    destruct (bool_decide (current_player s = maximizing_player_id)).
    + injection Hv as <-.
      destruct (max_loop_sound _ _ s p a b IH moves 0 vs NegInf NegInf Hvs)
        as (r & Hloop & Hr).
      rewrite vmax_NegInf_r in Hloop, Hr.
      exists r. split; [done|]. intros Hwin. apply Hr; [done|].
      by apply bound_NegInf.
    + injection Hv as <-.
      destruct (min_loop_sound _ _ s p a b IH moves 0 vs PosInf PosInf Hvs)
        as (r & Hloop & Hr).
      rewrite vmin_PosInf_r in Hloop, Hr.
      exists r. split; [done|]. intros Hwin. apply Hr; [done|].
      by apply bound_PosInf.
Qed.

(** The root loop keeps [alpha] equal to [best_value], and chooses as the
    reference does. *)
Lemma root_loop_sound (max_depth : nat) (state : ScrabbleState) :
  forall (moves : list Move) (i : nat) (vs : list Value)
         (best_value : Value) (best_move : option Move),
    AlphaBetaMinimax.children_values oracle
      (AlphaBetaMinimax.brute_force_value DICTIONARY oracle (max_depth - 1)
         (current_player state))
      state [] i moves = Some vs ->
    AlphaBetaMinimax.root_loop DICTIONARY oracle max_depth state i moves
      best_value best_move best_value
    = Some (foldl AlphaBetaMinimax.first_best (best_value, best_move)
              (zip moves vs)).
Proof.
  induction moves as [|move rest IH]; intros i vs best bm Hvs; simpl in *.
  - by injection Hvs as <-.
  - destruct (apply_move _ state move) as [next_state|]; [|done].
    simpl in *.
    destruct (AlphaBetaMinimax.brute_force_value _ _ _ _ next_state [i])
      as [v|] eqn:Hv; [|done].
    simpl in *.
    destruct (AlphaBetaMinimax.children_values _ _ _ _ (S i) rest)
      as [vs'|] eqn:Hvs'; [|done].
    simpl in Hvs. injection Hvs as <-.
    destruct (minimax_value_sound _ _ _ _ best PosInf _ Hv) as (r & -> & Hr).
    simpl.
    destruct (root_choice best v r Hr) as [Hsame Heq].
    unfold AlphaBetaMinimax.first_best at 2. simpl. rewrite <- Hsame.
    pose proof (vmax_best best r) as Hbest.
    destruct (vlt best r) eqn:Hlt.
    + rewrite <- Heq by congruence. rewrite Hbest. by apply IH.
    + rewrite Hbest. by apply IH.
Qed.

(** The pruned search returns what the reference returns, whenever the
    reference returns. *)
Lemma find_best_move_sound (max_depth : nat) (state : ScrabbleState)
    (x : Value * option Move) :
  AlphaBetaMinimax.brute_force_best DICTIONARY oracle max_depth state = Some x ->
  AlphaBetaMinimax.find_best_move DICTIONARY oracle max_depth state = Some x.
Proof.
  unfold AlphaBetaMinimax.brute_force_best, AlphaBetaMinimax.find_best_move.
  destruct (get_legal_moves DICTIONARY state (current_player state))
    as [[|move rest]|]; simpl; try done.
  destruct (apply_move _ state move) as [next_state|] eqn:Happ; [|done].
  simpl.
  destruct (AlphaBetaMinimax.brute_force_value _ _ _ _ next_state [0])
    as [v|] eqn:Hv; [|done].
  simpl.
  destruct (AlphaBetaMinimax.children_values _ _ _ _ 1 rest)
    as [vs|] eqn:Hvs; [|done].
  simpl. intros <-.
  pose proof (root_loop_sound max_depth state (move :: rest) 0 (v :: vs)
                NegInf None) as Hroot.
  simpl in Hroot.
  rewrite Happ in Hroot. simpl in Hroot. rewrite Hv in Hroot.
  simpl in Hroot. rewrite Hvs in Hroot. simpl in Hroot.
  by specialize (Hroot eq_refl).
Qed.

(** *** The reference is defined on the states of a game *)

Lemma get_utility_total (s : ScrabbleState) (maximizing_player_id : Z) :
  game_inv s ->
  maximizing_player_id = 1%Z \/ maximizing_player_id = 2%Z ->
  exists u, get_utility s maximizing_player_id = Some u.
Proof.
  intros [_ _ _ _ [s1 Hs1] [s2 Hs2] _ _] [-> | ->]; unfold get_utility;
    [change (3 - 1)%Z with 2%Z | change (3 - 2)%Z with 1%Z];
    rewrite Hs1, Hs2; simpl; eauto.
Qed.

Lemma get_legal_moves_total (s : ScrabbleState) :
  game_inv s ->
  exists moves, get_legal_moves DICTIONARY s (current_player s) = Some moves.
Proof.
  intros [_ Hp (r1 & Hr1 & _) (r2 & Hr2 & _) _ _ _ _].
  unfold get_legal_moves. destruct (is_terminal s); [eauto|].
  destruct Hp as [-> | ->]; [rewrite Hr1|rewrite Hr2]; simpl; eauto.
Qed.

Lemma children_values_total
    (rec : ScrabbleState -> list nat -> option Value)
    (state : ScrabbleState) (path : list nat) (all_moves : list Move) :
  game_inv state ->
  get_legal_moves DICTIONARY state (current_player state) = Some all_moves ->
  (forall s p, game_inv s -> exists v, rec s p = Some v) ->
  forall (moves : list Move) (i : nat),
    moves ⊆ all_moves ->
    exists vs, AlphaBetaMinimax.children_values oracle rec state path i moves = Some vs.
Proof.
  intros Hinv Hall Hrec.
  induction moves as [|move rest IH]; intros i Hsub; simpl.
  - eauto.
  - destruct (legal_move_applies DICTIONARY (oracle (path ++ [i])) state
                all_moves move Hinv Hall) as (s' & -> & Hinv').
    { apply Hsub. left. }
    simpl. destruct (Hrec s' (path ++ [i]) Hinv') as (v & ->). simpl.
    destruct (IH (S i)) as (vs & ->).
    { intros m Hm. apply Hsub. by right. }
    simpl. eauto.
Qed.

Lemma brute_force_value_total (depth : nat) (maximizing_player_id : Z) :
  maximizing_player_id = 1%Z \/ maximizing_player_id = 2%Z ->
  forall s p,
    game_inv s ->
    exists v,
      AlphaBetaMinimax.brute_force_value DICTIONARY oracle depth
        maximizing_player_id s p = Some v.
Proof.
  intros Hmax. induction depth as [|depth IH]; intros s p Hinv; simpl.
  - destruct (get_utility_total s _ Hinv Hmax) as (u & ->). simpl. eauto.
  - destruct (is_terminal s).
    { destruct (get_utility_total s _ Hinv Hmax) as (u & ->). simpl. eauto. }
    destruct (get_legal_moves_total s Hinv) as (moves & Hmoves).
    rewrite Hmoves. simpl.
    destruct (children_values_total _ s p moves Hinv Hmoves IH moves 0)
      as (vs & Hvs); [done|].
    rewrite Hvs. simpl.
    destruct (bool_decide _); eauto.
Qed.

Lemma brute_force_best_total (max_depth : nat) (state : ScrabbleState) :
  game_inv state ->
  exists x,
    AlphaBetaMinimax.brute_force_best DICTIONARY oracle max_depth state
    = Some x.
Proof.
  intros Hinv. unfold AlphaBetaMinimax.brute_force_best.
  destruct (get_legal_moves_total state Hinv) as (moves & Hmoves).
  rewrite Hmoves. simpl.
  destruct moves as [|move rest]; [eauto|].
  destruct (children_values_total
              (AlphaBetaMinimax.brute_force_value DICTIONARY oracle
                 (max_depth - 1) (current_player state))
              state [] (move :: rest) Hinv Hmoves) with (moves := move :: rest)
    (i := 0) as (vs & Hvs).
  - intros s p. apply brute_force_value_total. by destruct Hinv.
  - done.
  - rewrite Hvs. simpl. eauto.
Qed.

End AlphaBeta.

(** C5. Alpha-beta equivalence.  For every dictionary, every random source,
    every state and every depth limit of at least 1: whenever brute-force
    depth-limited minimax over the same game tree, without pruning, yields
    a root value and a first move of greatest value, [find_best_move]
    computes that same value and selects that same move; and on every state
    that satisfies the game invariant, which the states reachable from a new
    game do, both return. *)
Theorem alpha_beta_equals_minimax (DICTIONARY : gset string)
    (oracle : list nat -> nat -> nat) (max_depth : nat)
    (state : ScrabbleState) :
  1 <= max_depth ->
  (forall x,
     AlphaBetaMinimax.brute_force_best DICTIONARY oracle max_depth state
     = Some x ->
     AlphaBetaMinimax.find_best_move DICTIONARY oracle max_depth state
     = Some x)
  /\ (game_inv state ->
      exists best_value best_move,
        AlphaBetaMinimax.brute_force_best DICTIONARY oracle max_depth state
        = Some (best_value, best_move)
        /\ AlphaBetaMinimax.find_best_move DICTIONARY oracle max_depth state
           = Some (best_value, best_move)).
Proof.
  intros _. split.
  - intros x. apply find_best_move_sound.
  - intros Hinv.
    destruct (brute_force_best_total DICTIONARY oracle max_depth state Hinv)
      as ([best_value best_move] & Hbest).
    exists best_value, best_move. split; [done|].
    by apply find_best_move_sound.
Qed.

Lemma alpha_beta_equals_minimax_witness :
  (forall x,
     AlphaBetaMinimax.brute_force_best {["AT"]} (fun _ _ => 0) 2 game_AAT
     = Some x ->
     AlphaBetaMinimax.find_best_move {["AT"]} (fun _ _ => 0) 2 game_AAT
     = Some x)
  /\ (game_inv game_AAT ->
      exists best_value best_move,
        AlphaBetaMinimax.brute_force_best {["AT"]} (fun _ _ => 0) 2 game_AAT
        = Some (best_value, best_move)
        /\ AlphaBetaMinimax.find_best_move {["AT"]} (fun _ _ => 0) 2 game_AAT
           = Some (best_value, best_move)).
Proof.
  apply (alpha_beta_equals_minimax {["AT"]} (fun _ _ => 0) 2 game_AAT). lia.
Defined.

(** ** The calls [MonteCarlo.find_best_move] makes *)

Section MonteCarloTrace.

Variable DICTIONARY : gset string.
Variable hash : list Tile * bool -> Z.
Variable R : Type.
Variable R0 : R.
Variable Radd : R -> R -> R.
Variable Rdiv : R -> nat -> R.
Variable Rlt : R -> R -> bool.
Variable heuristic_fn : ScrabbleState -> Z -> R.
Variable tape : nat -> nat -> nat.

Lemma playouts_trace (state : ScrabbleState) (move : Move) :
  forall (n k : nat) (total_value : R) (log : list Event) res,
    MonteCarlo.playouts R Radd heuristic_fn tape n state move k total_value log
    = Some res ->
    res.1.2 = k + n
    /\ exists evs,
         res.2 = log ++ evs
         /\ length evs = 2 * n
         /\ forall j, j < n -> playout_at tape state move k j evs.
Proof.
  induction n as [|n IH]; intros k total_value log res Hres; simpl in Hres.
  - injection Hres as <-. simpl. split; [lia|].
    exists []. rewrite app_nil_r. split; [done|]. split; [done|]. lia.
  - destruct (apply_move (tape k) state move) as [next_state|] eqn:Happ;
      [|done].
    simpl in Hres. apply IH in Hres as (Hk & evs & Hlog & Hlen & Hevs).
    split; [lia|].
    exists ([EvApply move next_state;
             EvHeuristic next_state (current_player state)] ++ evs).
    split; [by rewrite Hlog, <- app_assoc|].
    split; [simpl; lia|].
    intros [|j] Hj.
    + exists next_state. rewrite Nat.add_0_r. by repeat split.
    + destruct (Hevs j) as (s' & Happ' & He1 & He2); [lia|].
      exists s'. replace (k + S j) with (S k + j) by lia.
      split; [done|].
      replace (2 * S j) with (S (S (2 * j))) by lia.
      replace (S (S (2 * j)) + 1) with (S (S (2 * j + 1))) by lia.
      by split.
Qed.

Lemma playout_at_app_l (state : ScrabbleState) (move : Move) (k j : nat)
    (evs evs' : list Event) :
  playout_at tape state move k j evs -> playout_at tape state move k j (evs ++ evs').
Proof.
  intros (s' & Happ & He1 & He2). exists s'. split; [done|].
  split; by apply lookup_app_l_Some.
Qed.

Lemma playout_at_app_r (state : ScrabbleState) (move : Move) (k j n : nat)
    (evs evs' : list Event) :
  length evs = 2 * n ->
  playout_at tape state move (k + n) j evs' ->
  playout_at tape state move k (n + j) (evs ++ evs').
Proof.
  intros Hlen (s' & Happ & He1 & He2). exists s'.
  replace (k + (n + j)) with (k + n + j) by lia.
  split; [done|].
  split; (rewrite lookup_app_r by lia);
    [replace (2 * (n + j) - length evs) with (2 * j) by lia
    |replace (2 * (n + j) + 1 - length evs) with (2 * j + 1) by lia]; done.
Qed.

Lemma evaluate_moves_trace (ppm : nat) (state : ScrabbleState) :
  0 < ppm ->
  forall (moves : list Move) (k : nat) (move_values : list (Move * R))
         (log : list Event) res,
    MonteCarlo.evaluate_moves hash R R0 Radd Rdiv heuristic_fn tape ppm state
      moves k move_values log = Some res ->
    exists evs,
      res.2 = log ++ evs
      /\ length evs = 2 * (ppm * length moves)
      /\ forall j, j < ppm * length moves ->
           exists move,
             moves !! (j / ppm) = Some move
             /\ playout_at tape state move k j evs.
Proof.
  intros Hppm.
  induction moves as [|move rest IH]; intros k move_values log res Hres;
    simpl in Hres.
  - injection Hres as <-. exists []. simpl. rewrite app_nil_r.
    split; [done|]. split; [lia|]. intros j Hj. lia.
  - destruct (MonteCarlo.playouts _ _ _ _ ppm state move k R0 log)
      as [[[total_value k'] log']|] eqn:Hplay; [|done].
    simpl in Hres.
    apply playouts_trace in Hplay as (Hk & evs1 & Hlog1 & Hlen1 & Hevs1).
    simpl in Hk, Hlog1. subst k' log'.
    apply IH in Hres as (evs2 & Hlog2 & Hlen2 & Hevs2).
    exists (evs1 ++ evs2).
    split; [by rewrite Hlog2, <- app_assoc|].
    split; [rewrite length_app; simpl; lia|].
    intros j Hj. destruct (decide (j < ppm)) as [Hlt|Hge].
    + exists move. rewrite Nat.div_small by done. split; [done|].
      apply playout_at_app_l. by apply Hevs1.
    + destruct (Hevs2 (j - ppm)) as (move' & Hmove' & Hat).
      { simpl in Hj. lia. }
      exists move'.
      replace j with ((j - ppm) + 1 * ppm) at 1 by lia.
      rewrite Nat.div_add by lia. rewrite Nat.add_1_r. split; [done|].
      replace j with (ppm + (j - ppm)) by lia.
      by apply playout_at_app_r.
Qed.

Lemma playouts_per_move_pos (num_playouts : nat) (moves : list Move) :
  0 < MonteCarlo.playouts_per_move num_playouts moves.
Proof.
  unfold MonteCarlo.playouts_per_move.
  destruct (Nat.eqb_spec (num_playouts / length moves) 0); lia.
Qed.

(** *** The search returns on the states of a game *)

Lemma playouts_total (state : ScrabbleState) (move : Move) :
  (forall rng, exists s', apply_move rng state move = Some s') ->
  forall (n k : nat) (total_value : R) (log : list Event),
    exists res,
      MonteCarlo.playouts R Radd heuristic_fn tape n state move k total_value
        log = Some res.
Proof.
  intros Happ. induction n as [|n IH]; intros k total_value log; simpl.
  - eauto.
  - destruct (Happ (tape k)) as (s' & ->). simpl. apply IH.
Qed.

Lemma evaluate_moves_total (ppm : nat) (state : ScrabbleState) :
  forall (moves : list Move) (k : nat) (move_values : list (Move * R))
         (log : list Event),
    (forall move rng, move ∈ moves ->
                      exists s', apply_move rng state move = Some s') ->
    exists res,
      MonteCarlo.evaluate_moves hash R R0 Radd Rdiv heuristic_fn tape ppm
        state moves k move_values log = Some res.
Proof.
  induction moves as [|move rest IH]; intros k move_values log Happ; simpl.
  - eauto.
  - destruct (playouts_total state move) with (n := ppm) (k := k)
      (total_value := R0) (log := log) as ([[total_value k'] log'] & ->).
    { intros rng. apply Happ. left. }
    simpl. apply IH. intros m rng Hm. apply Happ. by right.
Qed.

Lemma MonteCarlo_find_best_move_total (num_playouts : nat)
    (state : ScrabbleState) :
  game_inv state ->
  exists best_move log,
    MonteCarlo.find_best_move DICTIONARY hash R R0 Radd Rdiv Rlt heuristic_fn
      tape num_playouts state = Some (best_move, log).
Proof.
  intros Hinv. unfold MonteCarlo.find_best_move.
  destruct (get_legal_moves_total DICTIONARY state Hinv) as (moves & Hmoves).
  rewrite Hmoves. simpl. destruct moves as [|move rest]; [eauto|].
  destruct (evaluate_moves_total
              (MonteCarlo.playouts_per_move num_playouts (move :: rest))
              state (move :: rest) 0 [] [])
    as ([move_values log] & ->).
  { intros m rng Hm.
    destruct (legal_move_applies DICTIONARY rng state _ m Hinv Hmoves Hm)
      as (s' & Hs' & _).
    eauto. }
  simpl. destruct (MonteCarlo.best_key R Rlt move_values); eauto.
Qed.

(** C2 (amended). In [MonteCarlo.find_best_move] every candidate move is
    applied [playouts_per_move] times, once in each playout, and each
    application draws tiles anew; the heuristic call of a playout receives
    the successor that playout's application returned.  With [moves] the
    legal moves and [ppm] the playouts per move, the trace of calls has
    [2 * (ppm * length moves)] entries, and for every [j] below
    [ppm * length moves] entry [2 * j] is the application of move number
    [j / ppm] with the random numbers of call [j], and entry [2 * j + 1]
    the heuristic call on the state that application returned.  On a state
    that satisfies the game invariant the search returns. *)
Theorem monte_carlo_applies_per_playout (num_playouts : nat)
    (state : ScrabbleState) (moves : list Move) :
  get_legal_moves DICTIONARY state (current_player state) = Some moves ->
  let ppm := MonteCarlo.playouts_per_move num_playouts moves in
  (forall best_move log,
     MonteCarlo.find_best_move DICTIONARY hash R R0 Radd Rdiv Rlt
       heuristic_fn tape num_playouts state = Some (best_move, log) ->
     length log = 2 * (ppm * length moves)
     /\ forall j, j < ppm * length moves ->
          exists move next_state,
            moves !! (j / ppm) = Some move
            /\ apply_move (tape j) state move = Some next_state
            /\ log !! (2 * j) = Some (EvApply move next_state)
            /\ log !! (2 * j + 1)
               = Some (EvHeuristic next_state (current_player state)))
  /\ (game_inv state ->
      exists best_move log,
        MonteCarlo.find_best_move DICTIONARY hash R R0 Radd Rdiv Rlt
          heuristic_fn tape num_playouts state = Some (best_move, log)).
Proof.
  intros Hmoves ppm. split; [|apply MonteCarlo_find_best_move_total].
  intros best_move log. unfold MonteCarlo.find_best_move.
  rewrite Hmoves. simpl. destruct moves as [|move rest].
  { intros [= _ <-]. simpl. split; [lia|]. intros j Hj. lia. }
  fold ppm.
  destruct (MonteCarlo.evaluate_moves _ _ _ _ _ _ _ ppm state (move :: rest)
              0 [] []) as [[move_values log']|] eqn:Heval; [|done].
  simpl. intros Hres.
  assert (log' = log) as ->.
  { destruct (MonteCarlo.best_key R Rlt move_values); congruence. }
  apply evaluate_moves_trace in Heval as (evs & Hlog & Hlen & Hevs);
    [|apply playouts_per_move_pos].
  simpl in Hlog. subst evs. split; [done|].
  intros j Hj. destruct (Hevs j Hj) as (m & Hm & s' & Happ & He1 & He2).
  exists m, s'. by repeat split.
Qed.

End MonteCarloTrace.

Lemma monte_carlo_applies_per_playout_witness :
  let moves := default [] (get_legal_moves {["AT"]} game_AAT 1) in
  let ppm := MonteCarlo.playouts_per_move 18 moves in
  (forall best_move log,
     search_AAT = Some (best_move, log) ->
     length log = 2 * (ppm * length moves)
     /\ forall j, j < ppm * length moves ->
          exists move next_state,
            moves !! (j / ppm) = Some move
            /\ apply_move (fun _ => 10 * j) game_AAT move = Some next_state
            /\ log !! (2 * j) = Some (EvApply move next_state)
            /\ log !! (2 * j + 1)
               = Some (EvHeuristic next_state (current_player game_AAT)))
  /\ (game_inv game_AAT ->
      exists best_move log, search_AAT = Some (best_move, log)).
Proof.
  apply (monte_carlo_applies_per_playout {["AT"]} (fun _ => 0%Z) Z 0%Z Z.add
           (fun x n => (x / Z.of_nat n)%Z) Z.ltb (fun _ _ => 0%Z)
           (fun k _ => 10 * k) 18 game_AAT).
  vm_compute. reflexivity.
Defined.

(** The first candidate of [search_AAT] is applied twice, and its two
    playouts hand the heuristic two different successor states: the first
    drew A A, the second C D. *)
Lemma playouts_apply_the_move_again :
  (fun r : option (Move * list Event) =>
     r ≫= fun '(_, log) => Some (event_rack <$> take 4 log)) search_AAT
  = Some [(Some move_AT, Some ["A"; "E"; "R"; "S"; "N"; "A"; "A"]);
          (None, Some ["A"; "E"; "R"; "S"; "N"; "A"; "A"]);
          (Some move_AT, Some ["A"; "E"; "R"; "S"; "N"; "C"; "D"]);
          (None, Some ["A"; "E"; "R"; "S"; "N"; "C"; "D"])].
Proof. vm_compute. reflexivity. Qed.

(** ** [apply_move] on the object store *)

Lemma alloc_spec (h h1 : Store.Heap) (o : Store.Obj) (l : Store.loc) :
  Store.alloc h o = (h1, l) ->
  h !! l = None /\ h1 = <[l := o]> h /\ h ⊆ h1 /\ h1 !! l = Some o.
Proof.
  unfold Store.alloc. intros [= <- <-].
  assert (h !! fresh (dom h) = None) as Hfresh.
  { apply not_elem_of_dom. apply is_fresh. }
  split; [done|]. split; [done|]. split.
  - by apply insert_subseteq.
  - apply lookup_insert_eq.
Qed.

(** From here on [alloc] is used through [alloc_spec] only. *)
Opaque Store.alloc.

Lemma get_strs_inv (h : Store.Heap) (l : Store.loc) (xs : list string) :
  Store.get_strs h l = Some xs <-> h !! l = Some (Store.StrList xs).
Proof.
  unfold Store.get_strs. destruct (h !! l) as [[]|]; split; congruence.
Qed.

Lemma get_rows_inv (h : Store.Heap) (l : Store.loc) (rows : list Store.loc) :
  Store.get_rows h l = Some rows <-> h !! l = Some (Store.RowList rows).
Proof.
  unfold Store.get_rows. destruct (h !! l) as [[]|]; split; congruence.
Qed.

Lemma get_racks_inv (h : Store.Heap) (l : Store.loc) (d : gmap Z Store.loc) :
  Store.get_racks h l = Some d <-> h !! l = Some (Store.RackDict d).
Proof.
  unfold Store.get_racks. destruct (h !! l) as [[]|]; split; congruence.
Qed.

Lemma get_scores_inv (h : Store.Heap) (l : Store.loc) (d : gmap Z Z) :
  Store.get_scores h l = Some d <-> h !! l = Some (Store.ScoreDict d).
Proof.
  unfold Store.get_scores. destruct (h !! l) as [[]|]; split; congruence.
Qed.

Lemma get_state_inv (h : Store.Heap) (l : Store.loc) b tp rk cp sc pa :
  Store.get_state h l = Some (b, tp, rk, cp, sc, pa)
  <-> h !! l = Some (Store.StateObj b tp rk cp sc pa).
Proof.
  unfold Store.get_state. destruct (h !! l) as [[]|]; split; congruence.
Qed.

(** A store that only grew still answers every read as before. *)
Lemma get_strs_weaken (h h' : Store.Heap) (l : Store.loc) (xs : list string) :
  h ⊆ h' -> Store.get_strs h l = Some xs -> Store.get_strs h' l = Some xs.
Proof.
  rewrite !get_strs_inv. intros Hsub Hl. by eapply lookup_weaken.
Qed.

Lemma get_rows_weaken (h h' : Store.Heap) (l : Store.loc) rows :
  h ⊆ h' -> Store.get_rows h l = Some rows -> Store.get_rows h' l = Some rows.
Proof.
  rewrite !get_rows_inv. intros Hsub Hl. by eapply lookup_weaken.
Qed.

Lemma get_racks_weaken (h h' : Store.Heap) (l : Store.loc) d :
  h ⊆ h' -> Store.get_racks h l = Some d -> Store.get_racks h' l = Some d.
Proof.
  rewrite !get_racks_inv. intros Hsub Hl. by eapply lookup_weaken.
Qed.

Lemma get_scores_weaken (h h' : Store.Heap) (l : Store.loc) d :
  h ⊆ h' -> Store.get_scores h l = Some d -> Store.get_scores h' l = Some d.
Proof.
  rewrite !get_scores_inv. intros Hsub Hl. by eapply lookup_weaken.
Qed.

Lemma represents_weaken (h h' : Store.Heap) (l : Store.loc)
    (s : ScrabbleState) :
  h ⊆ h' -> Store.represents h l s -> Store.represents h' l s.
Proof.
  intros Hsub (b & tp & rk & sc & rows & rd & Hl & Hb & Hrows & Htp & Hrk
               & Hracks & Hall & Hsc).
  exists b, tp, rk, sc, rows, rd.
  split; [by eapply lookup_weaken|].
  split; [by eapply get_rows_weaken|].
  split.
  { eapply Forall2_impl; [exact Hrows|]. intros r xs. by apply get_strs_weaken. }
  split; [by eapply get_strs_weaken|].
  split; [by eapply get_racks_weaken|].
  split.
  { intros p. rewrite Hracks. destruct (rd !! p) as [r|] eqn:Hr; [|done].
    simpl. destruct (Hall p r Hr) as [xs Hxs]. rewrite Hxs.
    symmetry. by eapply get_strs_weaken. }
  split; [|by eapply get_scores_weaken].
  intros p r Hr. destruct (Hall p r Hr) as [xs Hxs]. exists xs.
  by eapply get_strs_weaken.
Qed.

(** [copy_rows]: the store grows, the copies are new and hold what the
    originals hold. *)
Lemma copy_rows_spec (h0 : Store.Heap) :
  forall (rows : list Store.loc) (h : Store.Heap) (contents : Board),
    h0 ⊆ h ->
    Forall2 (fun r xs => Store.get_strs h r = Some xs) rows contents ->
    exists h1 rows',
      Store.copy_rows h rows = Some (h1, rows')
      /\ h ⊆ h1
      /\ Forall (fun r => h0 !! r = None) rows'
      /\ Forall2 (fun r xs => Store.get_strs h1 r = Some xs) rows' contents.
Proof.
  induction rows as [|r rs IH]; intros h contents Hsub Hrows.
  - apply Forall2_nil_inv_l in Hrows as ->. exists h, []. simpl.
    by repeat split.
  - apply Forall2_cons_inv_l in Hrows as (xs & contents' & Hr & Hrs & ->).
    simpl. rewrite Hr. simpl.
    destruct (Store.alloc h (Store.StrList xs)) as [h1 r'] eqn:Ha. simpl.
    apply alloc_spec in Ha as (Hfresh & _ & Hsub1 & Hr').
    destruct (IH h1 contents') as (h2 & rs' & -> & Hsub2 & Hnew & Hcopy).
    { by etrans. }
    { eapply Forall2_impl; [exact Hrs|]. intros. by eapply get_strs_weaken. }
    exists h2, (r' :: rs'). simpl. split; [done|].
    split; [by etrans|]. split.
    + constructor; [|done]. by eapply lookup_weaken_None.
    + constructor; [|done]. apply get_strs_inv. eapply lookup_weaken; [|done].
      done.
Qed.

Lemma copy_rows_frame :
  forall (rows : list Store.loc) (h h1 : Store.Heap) rows',
    Store.copy_rows h rows = Some (h1, rows') ->
    h ⊆ h1 /\ Forall (fun r => h !! r = None) rows'.
Proof.
  induction rows as [|r rs IH]; intros h h1 rows' Hcopy; simpl in Hcopy.
  - by injection Hcopy as <- <-.
  - destruct (Store.get_strs h r) as [xs|]; [|done]. simpl in Hcopy.
    destruct (Store.alloc h (Store.StrList xs)) as [h' r'] eqn:Ha.
    simpl in Hcopy.
    apply alloc_spec in Ha as (Hfresh & _ & Hsub & _).
    destruct (Store.copy_rows h' rs) as [[h2 rs']|] eqn:Hrs; [|done].
    simpl in Hcopy. injection Hcopy as <- <-.
    apply IH in Hrs as [Hsub2 Hnew]. split; [by etrans|].
    apply Forall_cons. split; [exact Hfresh|].
    eapply Forall_impl; [exact Hnew|]. intros l Hl. simpl in Hl.
    exact (lookup_weaken_None _ _ _ Hl Hsub).
Qed.

Lemma copy_racks_frame :
  forall (items : list (Z * Store.loc)) (h h1 : Store.Heap) acc acc',
    Store.copy_racks h items acc = Some (h1, acc') -> h ⊆ h1.
Proof.
  induction items as [|[p r] rest IH]; intros h h1 acc acc' Hcopy;
    simpl in Hcopy.
  - by injection Hcopy as <- <-.
  - destruct (Store.get_strs h r) as [xs|]; [|done]. simpl in Hcopy.
    destruct (Store.alloc h (Store.StrList xs)) as [h' r'] eqn:Ha.
    simpl in Hcopy.
    apply alloc_spec in Ha as (_ & _ & Hsub & _).
    apply IH in Hcopy. by etrans.
Qed.

Lemma copy_racks_spec :
  forall (items : list (Z * Store.loc)) (h : Store.Heap)
         (acc : gmap Z Store.loc),
    NoDup items.*1 ->
    Forall (fun pr => is_Some (Store.get_strs h pr.2)) items ->
    map_Forall (fun _ r => is_Some (Store.get_strs h r)) acc ->
    exists h1 acc',
      Store.copy_racks h items acc = Some (h1, acc')
      /\ h ⊆ h1
      /\ map_Forall (fun _ r => is_Some (Store.get_strs h1 r)) acc'
      /\ forall p,
           rack_contents h1 acc' p
           = match list_to_map (M := gmap Z Store.loc) items !! p with
             | Some r => Store.get_strs h r
             | None => rack_contents h acc p
             end.
Proof.
  induction items as [|[p r] rest IH]; intros h acc Hnodup Hitems Hacc.
  - exists h, acc. simpl. split; [done|]. split; [done|]. split; [done|].
    intros p. by rewrite lookup_empty.
  - simpl in Hnodup. apply NoDup_cons in Hnodup as [Hp Hnodup].
    apply Forall_cons in Hitems as [[xs Hr] Hitems]. simpl in Hr.
    simpl. rewrite Hr. simpl.
    destruct (Store.alloc h (Store.StrList xs)) as [h' r'] eqn:Ha. simpl.
    apply alloc_spec in Ha as (Hfresh & _ & Hsub & Hr').
    destruct (IH h' (<[p := r']> acc)) as (h1 & acc' & -> & Hsub1 & Hall & Hc).
    { done. }
    { eapply Forall_impl; [exact Hitems|]. intros pr [ys Hys]. exists ys.
      by eapply get_strs_weaken. }
    { apply map_Forall_insert_2.
      - exists xs. by apply get_strs_inv.
      - intros q l Hl. destruct (Hacc q l Hl) as [ys Hys]. exists ys.
        by eapply get_strs_weaken. }
    exists h1, acc'. split; [done|]. split; [by etrans|]. split; [done|].
    intros q. rewrite Hc. simpl.
    destruct (list_to_map rest !! q) as [l|] eqn:Hq.
    + assert (q <> p) as Hne.
      { intros ->. apply Hp. apply list_elem_of_fmap.
        exists (p, l). split; [done|]. by apply elem_of_list_to_map_2. }
      rewrite lookup_insert_ne by done. rewrite Hq.
      apply Forall_forall with (x := (q, l)) in Hitems as [ys Hys].
      * simpl in Hys. rewrite Hys. by eapply get_strs_weaken.
      * by apply elem_of_list_to_map_2.
    + unfold rack_contents. destruct (decide (q = p)) as [->|Hne].
      * rewrite !lookup_insert_eq. simpl. rewrite Hr. by apply get_strs_inv.
      * rewrite !lookup_insert_ne by done. rewrite Hq.
        destruct (acc !! q) as [l|] eqn:Hl; [|done]. simpl.
        destruct (Hacc q l Hl) as [ys Hys]. rewrite Hys.
        by eapply get_strs_weaken.
Qed.

Lemma apply_move_pass_store (rng : nat -> nat) (h : Store.Heap)
    (self : Store.loc) (s : ScrabbleState) (move : Move) :
  Store.represents h self s ->
  is_pass move = true ->
  exists h' l',
    Store.apply_move rng h self move = Some (h', l')
    /\ h ⊆ h'
    /\ h !! l' = None
    /\ Store.represents h' l' (pass_successor s).
Proof.
  intros (b & tp & rk & sc & rows & rd & Hself & Hb & Hrows & Htp & Hrk
          & Hracks & Hall & Hsc) Hpass.
  unfold Store.apply_move.
  apply get_state_inv in Hself as Hst. rewrite Hst. simpl.
  rewrite Hb. simpl.
  destruct (copy_rows_spec h rows h (board s)) as
    (h1 & rows' & -> & Hsub1 & Hnew1 & Hrows'); [done|done|].
  simpl.
  destruct (Store.alloc h1 (Store.RowList rows')) as [h2 b'] eqn:Ha2.
  apply alloc_spec in Ha2 as (Hf2 & _ & Hsub2 & Hb').
  assert (h ⊆ h2) as Hh2 by (by etrans).
  rewrite (get_strs_weaken h h2 tp _ Hh2 Htp). simpl.
  destruct (Store.alloc h2 (Store.StrList (tile_pool s))) as [h3 tp'] eqn:Ha3.
  apply alloc_spec in Ha3 as (Hf3 & _ & Hsub3 & Htp').
  assert (h ⊆ h3) as Hh3 by (by etrans).
  rewrite (get_racks_weaken h h3 rk _ Hh3 Hrk). simpl.
  destruct (copy_racks_spec (map_to_list rd) h3 ∅)
    as (h4 & rd' & -> & Hsub4 & Hall' & Hrd').
  { apply NoDup_fst_map_to_list. }
  { apply Forall_forall. intros [p r] Hpr. apply elem_of_map_to_list in Hpr.
    destruct (Hall p r Hpr) as [xs Hxs]. exists xs. simpl.
    by eapply get_strs_weaken. }
  { apply map_Forall_empty. }
  simpl.
  assert (h ⊆ h4) as Hh4 by (by etrans).
  destruct (Store.alloc h4 (Store.RackDict rd')) as [h5 rk'] eqn:Ha5.
  apply alloc_spec in Ha5 as (Hf5 & _ & Hsub5 & Hrk').
  assert (h ⊆ h5) as Hh5 by (by etrans).
  rewrite (get_scores_weaken h h5 sc _ Hh5 Hsc). simpl.
  destruct (Store.alloc h5 (Store.ScoreDict (scores s))) as [h6 sc'] eqn:Ha6.
  apply alloc_spec in Ha6 as (Hf6 & _ & Hsub6 & Hsc').
  assert (h ⊆ h6) as Hh6 by (by etrans).
  destruct (Store.alloc h6 _) as [h7 next_state] eqn:Ha7.
  apply alloc_spec in Ha7 as (Hf7 & -> & Hsub7 & Hns).
  rewrite Hpass. simpl.
  assert (next_state <> self) as Hne.
  { intros <-. apply (lookup_weaken _ _ _ _ Hself) in Hh6. congruence. }
  match goal with
  | |- context [Store.get_state ?hh self] =>
      assert (Store.get_state hh self
              = Some (b, tp, rk, current_player s, sc, passes_in_a_row s))
        as ->
  end.
  { apply get_state_inv. rewrite lookup_insert_ne by done.
    by eapply lookup_weaken. }
  simpl. unfold Store.get_state. rewrite lookup_insert_eq. simpl.
  eexists _, next_state. split; [reflexivity|].
  rewrite insert_insert_eq.
  assert (h6 ⊆ <[next_state := Store.StateObj b' tp' rk' (3 - current_player s)
                                 sc' (passes_in_a_row s + 1)]> h6) as Hsub'.
  { by apply insert_subseteq. }
  split; [by etrans|]. split; [by eapply lookup_weaken_None|].
  exists b', tp', rk', sc', rows', rd'. simpl.
  split; [apply lookup_insert_eq|].
  assert (forall l xs, Store.get_strs h4 l = Some xs ->
                       Store.get_strs (<[next_state := Store.StateObj b' tp' rk'
                         (3 - current_player s) sc' (passes_in_a_row s + 1)]> h6) l
                       = Some xs) as Hstrs.
  { intros l xs Hl. eapply get_strs_weaken; [|exact Hl].
    etrans; [exact Hsub5|]. by etrans. }
  split.
  { apply get_rows_inv. eapply lookup_weaken; [exact Hb'|].
    etrans; [exact Hsub3|]. etrans; [exact Hsub4|]. etrans; [exact Hsub5|].
    by etrans. }
  split.
  { eapply Forall2_impl; [exact Hrows'|]. intros r xs Hr. apply Hstrs.
    eapply get_strs_weaken; [|exact Hr].
    etrans; [exact Hsub2|]. by etrans. }
  split.
  { apply Hstrs. eapply get_strs_weaken; [exact Hsub4|]. by apply get_strs_inv. }
  split.
  { apply get_racks_inv. eapply lookup_weaken; [exact Hrk'|]. by etrans. }
  split.
  { intros p. specialize (Hrd' p). rewrite list_to_map_to_list in Hrd'.
    rewrite Hracks. unfold rack_contents in Hrd'.
    destruct (rd' !! p) as [r'|] eqn:Hr'; simpl in *.
    - destruct (Hall' p r' Hr') as [xs Hxs]. rewrite (Hstrs _ _ Hxs).
      rewrite Hxs in Hrd'.
      destruct (rd !! p) as [r|] eqn:Hr; simpl; [|by rewrite lookup_empty in Hrd'].
      destruct (Hall p r Hr) as [ys Hys]. rewrite Hys.
      rewrite (get_strs_weaken h h3 r ys Hh3 Hys) in Hrd'. congruence.
    - destruct (rd !! p) as [r|] eqn:Hr; simpl; [|done].
      destruct (Hall p r Hr) as [ys Hys].
      rewrite (get_strs_weaken h h3 r ys Hh3 Hys) in Hrd'. done. }
  split.
  { intros p r' Hr'. destruct (Hall' p r' Hr') as [xs Hxs]. exists xs.
    by apply Hstrs. }
  apply get_scores_inv. eapply lookup_weaken; [exact Hsc'|]. done.
Qed.

(** The tile loop writes into rows of the new board only. *)
Lemma write_tiles_frame (h0 : Store.Heap) (ns b' tp' rk' : Store.loc)
    (cp' : Z) (sc' : Store.loc) (pa' : nat) (rows' : list Store.loc) :
  Forall (fun r => h0 !! r = None) rows' ->
  forall (tiles : list Tile) (hi h8 : Store.Heap),
    h0 ⊆ hi ->
    hi !! ns = Some (Store.StateObj b' tp' rk' cp' sc' pa') ->
    hi !! b' = Some (Store.RowList rows') ->
    Store.write_tiles hi ns tiles = Some h8 ->
    h0 ⊆ h8 /\ h8 !! ns = Some (Store.StateObj b' tp' rk' cp' sc' pa').
Proof.
  intros Hnew. induction tiles as [|t ts IH]; intros hi h8 Hsub Hns Hb Hw;
    simpl in Hw.
  - by injection Hw as <-.
  - apply get_state_inv in Hns as Hst. rewrite Hst in Hw. simpl in Hw.
    apply get_rows_inv in Hb as Hrows. rewrite Hrows in Hw. simpl in Hw.
    destruct (rows' !! tile_row t) as [r|] eqn:Hr; [|done]. simpl in Hw.
    destruct (Store.get_strs hi r) as [xs|] eqn:Hxs; [|done]. simpl in Hw.
    destruct (bool_decide (tile_col t < length xs)); [|done].
    apply get_strs_inv in Hxs.
    apply IH in Hw; [done| | |].
    + apply insert_subseteq_r; [|done].
      eapply Forall_forall in Hnew; [exact Hnew|].
      by eapply list_elem_of_lookup_2.
    + rewrite lookup_insert_ne; [done|]. intros ->. congruence.
    + rewrite lookup_insert_ne; [done|]. intros ->. congruence.
Qed.

(** Every write of [apply_move] goes to an object the call created:
    the store it was given is part of the store it leaves, and the state
    it returns is a new object. *)
Lemma apply_move_frame (rng : nat -> nat) (h : Store.Heap) (self : Store.loc)
    (move : Move) (h' : Store.Heap) (l' : Store.loc) :
  Store.apply_move rng h self move = Some (h', l') ->
  h ⊆ h' /\ h !! l' = None.
Proof.
  unfold Store.apply_move. intros Happ.
  destruct (Store.get_state h self) as [[[[[[b tp] rk] cp] sc] pa]|] eqn:Hst;
    [|done].
  simpl in Happ.
  destruct (Store.get_rows h b) as [rows|] eqn:Hb; [|done]. simpl in Happ.
  destruct (Store.copy_rows h rows) as [[h1 rows']|] eqn:Hcopy; [|done].
  simpl in Happ. apply copy_rows_frame in Hcopy as [Hsub1 Hnew].
  destruct (Store.alloc h1 (Store.RowList rows')) as [h2 b'] eqn:Ha2.
  apply alloc_spec in Ha2 as (Hf2 & _ & Hsub2 & Hb').
  destruct (Store.get_strs h2 tp) as [pool|] eqn:Hpool; [|done].
  simpl in Happ.
  destruct (Store.alloc h2 (Store.StrList pool)) as [h3 tp'] eqn:Ha3.
  apply alloc_spec in Ha3 as (Hf3 & _ & Hsub3 & Htp').
  destruct (Store.get_racks h3 rk) as [rd|] eqn:Hrd; [|done].
  simpl in Happ.
  destruct (Store.copy_racks h3 (map_to_list rd) ∅) as [[h4 rd']|] eqn:Hcr;
    [|done].
  simpl in Happ. apply copy_racks_frame in Hcr as Hsub4.
  destruct (Store.alloc h4 (Store.RackDict rd')) as [h5 rk'] eqn:Ha5.
  apply alloc_spec in Ha5 as (Hf5 & _ & Hsub5 & Hrk').
  destruct (Store.get_scores h5 sc) as [sd|] eqn:Hsd; [|done].
  simpl in Happ.
  destruct (Store.alloc h5 (Store.ScoreDict sd)) as [h6 sc'] eqn:Ha6.
  apply alloc_spec in Ha6 as (Hf6 & _ & Hsub6 & Hsc').
  destruct (Store.alloc h6 _) as [h7 next_state] eqn:Ha7.
  apply alloc_spec in Ha7 as (Hf7 & _ & Hsub7 & Hns).
  assert (h ⊆ h2) as Hh2 by (by etrans).
  assert (h ⊆ h3) as Hh3 by (by etrans).
  assert (h ⊆ h4) as Hh4 by (by etrans).
  assert (h ⊆ h5) as Hh5 by (by etrans).
  assert (h ⊆ h6) as Hh6 by (by etrans).
  assert (h ⊆ h7) as Hh7 by (by etrans).
  assert (h !! b' = None) as Hnb by (by eapply lookup_weaken_None).
  assert (h !! tp' = None) as Hntp by (by eapply lookup_weaken_None).
  assert (h !! rk' = None) as Hnrk by (by eapply lookup_weaken_None).
  assert (h !! sc' = None) as Hnsc by (by eapply lookup_weaken_None).
  assert (h !! next_state = None) as Hnns by (by eapply lookup_weaken_None).
  destruct (is_pass move); simpl in Happ.
  - destruct (Store.get_state h7 self) as [[[[[[? ?] ?] ?] ?] pa_now]|];
      [|done].
    simpl in Happ.
    destruct (Store.get_state h7 next_state)
      as [[[[[[nb ntp] nrk] ncp] nsc] ?]|]; [|done].
    simpl in Happ. injection Happ as <- <-. split; [|done].
    by apply insert_subseteq_r.
  - destruct (Store.write_tiles h7 next_state (tiles_placed move))
      as [h8|] eqn:Hw; [|done].
    simpl in Happ.
    eapply write_tiles_frame in Hw as [Hh8 Hns8];
      [|exact Hnew|exact Hh7|exact Hns|].
    2:{ eapply lookup_weaken; [exact Hb'|]. etrans; [exact Hsub3|].
        etrans; [exact Hsub4|]. etrans; [exact Hsub5|]. by etrans. }
    rewrite (proj2 (get_state_inv _ _ _ _ _ _ _ _) Hns8) in Happ.
    simpl in Happ.
    destruct (Store.get_scores h8 sc') as [nsd|] eqn:Hnsd; [|done].
    simpl in Happ. apply get_scores_inv in Hnsd.
    destruct (nsd !! cp) as [old_score|]; [|done]. simpl in Happ.
    match type of Happ with
    | context [Store.get_state ?hh next_state] => set (h9 := hh) in *
    end.
    assert (h ⊆ h9) as Hh9 by (by apply insert_subseteq_r).
    assert (h9 !! next_state
            = Some (Store.StateObj b' tp' rk' (3 - cp) sc' 0)) as Hns9.
    { subst h9. rewrite lookup_insert_ne; [done|]. intros ->. congruence. }
    rewrite (proj2 (get_state_inv _ _ _ _ _ _ _ _) Hns9) in Happ.
    simpl in Happ.
    destruct (Store.get_racks h9 rk') as [nrd|] eqn:Hnrd; [|done].
    simpl in Happ.
    destruct (nrd !! cp) as [rack_loc|]; [|done]. simpl in Happ.
    destruct (Store.get_strs h9 rack_loc) as [rack|]; [|done].
    simpl in Happ. unfold Store._draw_tiles in Happ.
    rewrite (proj2 (get_state_inv _ _ _ _ _ _ _ _) Hns9) in Happ.
    simpl in Happ.
    destruct (Store.get_strs h9 tp') as [pool9|] eqn:Hpool9; [|done].
    simpl in Happ. apply get_strs_inv in Hpool9.
    destruct (draw_loop rng 0 _ pool9 []) as [drawn pool'] eqn:Hdraw.
    simpl in Happ.
    match type of Happ with
    | context [Store.alloc ?hh _] => set (h10 := hh) in *
    end.
    assert (h ⊆ h10) as Hh10 by (by apply insert_subseteq_r).
    assert (h10 !! next_state
            = Some (Store.StateObj b' tp' rk' (3 - cp) sc' 0)) as Hns10.
    { subst h10. rewrite lookup_insert_ne; [done|]. intros ->. congruence. }
    destruct (Store.alloc h10 _) as [h11 new_rack] eqn:Ha11.
    apply alloc_spec in Ha11 as (Hf11 & _ & Hsub11 & _).
    assert (h ⊆ h11) as Hh11 by (by etrans).
    assert (h11 !! next_state
            = Some (Store.StateObj b' tp' rk' (3 - cp) sc' 0)) as Hns11.
    { by eapply lookup_weaken. }
    rewrite (proj2 (get_state_inv _ _ _ _ _ _ _ _) Hns11) in Happ.
    simpl in Happ.
    destruct (Store.get_racks h11 rk') as [nrd'|] eqn:Hnrd'; [|done].
    simpl in Happ. apply get_racks_inv in Hnrd'.
    match type of Happ with
    | context [Store.get_state ?hh next_state] => set (h12 := hh) in *
    end.
    assert (h ⊆ h12) as Hh12 by (by apply insert_subseteq_r).
    assert (h12 !! next_state
            = Some (Store.StateObj b' tp' rk' (3 - cp) sc' 0)) as Hns12.
    { subst h12. rewrite lookup_insert_ne; [done|]. intros ->. congruence. }
    rewrite (proj2 (get_state_inv _ _ _ _ _ _ _ _) Hns12) in Happ.
    simpl in Happ. injection Happ as <- <-. split; [|done].
    by apply insert_subseteq_r.
Qed.

Lemma small_heap_represents : Store.represents small_heap 0 small_state.
Proof.
  exists 1, 3, 4, 7, small_rows, small_racks.
  split; [done|]. split; [done|].
  split; [by repeat constructor|].
  split; [done|]. split; [done|]. split; [|split; [|done]].
  - intros p. simpl. unfold small_racks.
    destruct (decide (p = 2%Z)) as [->|H2].
    { by rewrite !lookup_insert_eq. }
    rewrite !(lookup_insert_ne _ 2%Z) by done.
    destruct (decide (p = 1%Z)) as [->|H1].
    { by rewrite !lookup_insert_eq. }
    rewrite !(lookup_insert_ne _ 1%Z) by done.
    by rewrite !lookup_empty.
  - unfold small_racks. apply map_Forall_insert_2; [by eexists|].
    apply map_Forall_insert_2; [by eexists|]. apply map_Forall_empty.
Qed.

(** C9. Pass frame.  Let the object at [self] stand for the state [s].
    On a Pass move [apply_move] returns a new object that stands for a
    state with the board, tile pool, racks and scores of [s], one more
    pass in a row and the opponent to move, which is also what the call
    returns when states are passed by value.  Whatever the move, a call
    that returns leaves every object of the store it was given as it was:
    the object at [self] still stands for [s]. *)
Theorem apply_move_pass_frame (rng : nat -> nat) (h : Store.Heap)
    (self : Store.loc) (s : ScrabbleState) (move : Move) :
  Store.represents h self s ->
  (is_pass move = true ->
   exists h' l' s',
     Store.apply_move rng h self move = Some (h', l')
     /\ h !! l' = None
     /\ Store.represents h' l' s'
     /\ apply_move rng s move = Some s'
     /\ board s' = board s
     /\ tile_pool s' = tile_pool s
     /\ racks s' = racks s
     /\ scores s' = scores s
     /\ passes_in_a_row s' = passes_in_a_row s + 1
     /\ current_player s' = (3 - current_player s)%Z)
  /\ (forall h' l',
        Store.apply_move rng h self move = Some (h', l') ->
        (forall l o, h !! l = Some o -> h' !! l = Some o)
        /\ Store.represents h' self s).
Proof.
  intros Hrep. split.
  - intros Hpass.
    destruct (apply_move_pass_store rng h self s move Hrep Hpass)
      as (h' & l' & Happ & _ & Hnew & Hrep').
    exists h', l', (pass_successor s).
    split; [done|]. split; [done|]. split; [done|].
    split; [by apply apply_move_pass|]. by repeat split.
  - intros h' l' Happ. apply apply_move_frame in Happ as [Hsub _]. split.
    + intros l o Hl. by eapply lookup_weaken.
    + by eapply represents_weaken.
Qed.

Lemma apply_move_pass_frame_witness :
  (is_pass pass_move = true ->
   exists h' l' s',
     Store.apply_move (fun _ => 0) small_heap 0 pass_move = Some (h', l')
     /\ small_heap !! l' = None
     /\ Store.represents h' l' s'
     /\ apply_move (fun _ => 0) small_state pass_move = Some s'
     /\ board s' = board small_state
     /\ tile_pool s' = tile_pool small_state
     /\ racks s' = racks small_state
     /\ scores s' = scores small_state
     /\ passes_in_a_row s' = passes_in_a_row small_state + 1
     /\ current_player s' = (3 - current_player small_state)%Z)
  /\ (forall h' l',
        Store.apply_move (fun _ => 0) small_heap 0 pass_move = Some (h', l') ->
        (forall l o, small_heap !! l = Some o -> h' !! l = Some o)
        /\ Store.represents h' 0 small_state).
Proof.
  apply (apply_move_pass_frame (fun _ => 0) small_heap 0 small_state pass_move).
  exact small_heap_represents.
Defined.

(** * Further properties of the game core *)

(** ** Turns, passes and the end of the game *)

(** [get_utility] is zero-sum: seen from the other player the utility of a
    state is the negated utility, and the two calls raise together. *)
Theorem get_utility_zero_sum (s : ScrabbleState) (maximizing_player_id : Z) :
  get_utility s (3 - maximizing_player_id)
  = Z.opp <$> get_utility s maximizing_player_id.
Proof.
  unfold get_utility.
  replace (3 - (3 - maximizing_player_id))%Z with maximizing_player_id by lia.
  destruct (scores s !! (3 - maximizing_player_id)%Z) as [theirs|],
    (scores s !! maximizing_player_id) as [mine|]; simpl; try done.
  f_equal. lia.
Qed.

(** Whatever the move, [apply_move] hands the turn to the other player and
    leaves that player's rack and score as they were. *)
Theorem apply_move_keeps_opponent (rng : nat -> nat) (s s' : ScrabbleState)
    (move : Move) :
  apply_move rng s move = Some s' ->
  let opponent_id := (3 - current_player s)%Z in
  current_player s' = opponent_id
  /\ racks s' !! opponent_id = racks s !! opponent_id
  /\ scores s' !! opponent_id = scores s !! opponent_id.
Proof.
  intros Happ opponent_id.
  assert (current_player s <> opponent_id) as Hne by (unfold opponent_id; lia).
  unfold apply_move in Happ. destruct (is_pass move); simpl in Happ.
  - by injection Happ as <-.
  - destruct (write_tiles _ _) as [next_board|]; [|done]. simpl in Happ.
    destruct (scores s !! current_player s) as [old_score|]; [|done].
    simpl in Happ.
    destruct (racks s !! current_player s) as [rack|]; [|done].
    simpl in Happ. destruct (_draw_tiles _ _ _) as [new_tiles next_pool].
    injection Happ as <-. simpl.
    by rewrite !lookup_insert_ne.
Qed.

Lemma apply_move_keeps_opponent_witness :
  current_player after_AT = 2%Z
  /\ racks after_AT !! 2%Z = racks game_AAT !! 2%Z
  /\ scores after_AT !! 2%Z = scores game_AAT !! 2%Z.
Proof.
  apply (apply_move_keeps_opponent (fun _ => 0) game_AAT after_AT move_AT).
  vm_compute. reflexivity.
Defined.

(** Two passes in a row end the game: after a pass answered by a pass the
    state is terminal, no move is legal for anyone, and board, pool, racks,
    scores and the player to move are those before the first pass. *)
Theorem two_passes_end_the_game (DICTIONARY : gset string)
    (rng1 rng2 : nat -> nat) (s s1 s2 : ScrabbleState) (m1 m2 : Move) :
  is_pass m1 = true ->
  is_pass m2 = true ->
  apply_move rng1 s m1 = Some s1 ->
  apply_move rng2 s1 m2 = Some s2 ->
  is_terminal s2 = true
  /\ (forall player_id, get_legal_moves DICTIONARY s2 player_id = Some [])
  /\ board s2 = board s
  /\ tile_pool s2 = tile_pool s
  /\ racks s2 = racks s
  /\ scores s2 = scores s
  /\ current_player s2 = current_player s.
Proof.
  intros Hp1 Hp2 H1 H2.
  rewrite (apply_move_pass rng1 s m1 Hp1) in H1. injection H1 as <-.
  rewrite (apply_move_pass rng2 _ m2 Hp2) in H2. injection H2 as <-.
  simpl.
  assert (is_terminal
            {| board := board s; tile_pool := tile_pool s; racks := racks s;
               current_player := (3 - (3 - current_player s))%Z;
               scores := scores s;
               passes_in_a_row := passes_in_a_row s + 1 + 1 |} = true)
    as Hterm.
  { unfold is_terminal. simpl.
    replace (passes_in_a_row s + 1 + 1) with (S (S (passes_in_a_row s)))
      by lia.
    apply orb_true_r. }
  split; [done|]. split.
  - intros player_id. unfold get_legal_moves. by rewrite Hterm.
  - repeat split. lia.
Qed.

Lemma two_passes_end_the_game_witness :
  is_terminal after_two_passes = true
  /\ (forall player_id,
        get_legal_moves {["AT"]} after_two_passes player_id = Some [])
  /\ board after_two_passes = board game_AAT
  /\ tile_pool after_two_passes = tile_pool game_AAT
  /\ racks after_two_passes = racks game_AAT
  /\ scores after_two_passes = scores game_AAT
  /\ current_player after_two_passes = current_player game_AAT.
Proof.
  apply (two_passes_end_the_game {["AT"]} (fun _ => 0) (fun _ => 0) game_AAT
           (default game_AAT (apply_move (fun _ => 0) game_AAT pass_move))
           after_two_passes pass_move pass_move);
    vm_compute; reflexivity.
Defined.

(** On a terminal state neither search looks at a single successor: both
    return the Pass move, and the Monte Carlo search makes no call at all. *)
Theorem searches_pass_on_terminal (DICTIONARY : gset string)
    (oracle : list nat -> nat -> nat) (max_depth : nat)
    (hash : list Tile * bool -> Z) (R : Type) (R0 : R) (Radd : R -> R -> R)
    (Rdiv : R -> nat -> R) (Rlt : R -> R -> bool)
    (heuristic_fn : ScrabbleState -> Z -> R) (tape : nat -> nat -> nat)
    (num_playouts : nat) (state : ScrabbleState) :
  is_terminal state = true ->
  snd <$> AlphaBetaMinimax.find_best_move DICTIONARY oracle max_depth state
  = Some (Some pass_move)
  /\ MonteCarlo.find_best_move DICTIONARY hash R R0 Radd Rdiv Rlt heuristic_fn
       tape num_playouts state
     = Some (pass_move, []).
Proof.
  intros Hterm.
  unfold AlphaBetaMinimax.find_best_move, MonteCarlo.find_best_move,
    get_legal_moves.
  by rewrite Hterm.
Qed.

Lemma searches_pass_on_terminal_witness :
  snd <$> AlphaBetaMinimax.find_best_move {["AT"]} (fun _ _ => 0) 2
            after_two_passes
  = Some (Some pass_move)
  /\ MonteCarlo.find_best_move {["AT"]} (fun _ => 0%Z) Z 0%Z Z.add
       (fun x n => (x / Z.of_nat n)%Z) Z.ltb (fun _ _ => 0%Z)
       (fun k _ => k) 18 after_two_passes
     = Some (pass_move, []).
Proof.
  apply (searches_pass_on_terminal {["AT"]} (fun _ _ => 0) 2 (fun _ => 0%Z)
           Z 0%Z Z.add (fun x n => (x / Z.of_nat n)%Z) Z.ltb (fun _ _ => 0%Z)
           (fun k _ => k) 18 after_two_passes).
  vm_compute. reflexivity.
Defined.

(** ** What a legal move does to a game *)

(** The successor of a state under one of its legal moves, spelled out:
    the Pass successor, or the placement of tiles the rack holds on empty
    cells of the board. *)
Lemma legal_move_result (D : gset string) (rng : nat -> nat)
    (s s' : ScrabbleState) (moves : list Move) (m : Move) :
  game_inv s ->
  get_legal_moves D s (current_player s) = Some moves ->
  m ∈ moves ->
  apply_move rng s m = Some s' ->
  (m = pass_move /\ s' = pass_successor s)
  \/ (exists rack sc,
        racks s !! current_player s = Some rack
        /\ scores s !! current_player s = Some sc
        /\ placeable (board s) rack m
        /\ s' = {| board := place_tiles (board s) (tiles_placed m);
                   tile_pool :=
                     (_draw_tiles rng (tile_pool s)
                        (length (tiles_placed m))).2;
                   racks :=
                     <[current_player s :=
                         remove_tiles rack (map tile_letter (tiles_placed m))
                         ++ (_draw_tiles rng (tile_pool s)
                               (length (tiles_placed m))).1]> (racks s);
                   current_player := (3 - current_player s)%Z;
                   scores :=
                     <[current_player s := (sc + score m)%Z]> (scores s);
                   passes_in_a_row := 0 |}).
Proof.
  intros Hinv Hmoves Hm Happ.
  assert (exists rack sc, racks s !! current_player s = Some rack
                          /\ proper_tiles rack
                          /\ scores s !! current_player s = Some sc)
    as (rack & sc & Hrack & Hproper & Hsc).
  { destruct Hinv as [_ Hp (r1 & Hr1 & Hp1) (r2 & Hr2 & Hp2) [s1 Hs1] [s2 Hs2]
                        _ _].
    destruct Hp as [-> | ->]; eauto 10. }
  destruct (legal_move_cases D s _ rack moves m Hrack Hproper Hmoves Hm)
    as [-> | Hplace].
  - left. split; [done|].
    rewrite apply_move_pass in Happ by done. by injection Happ as <-.
  - right. exists rack, sc. split; [done|]. split; [done|]. split; [done|].
    rewrite (apply_move_place rng s m rack sc) in Happ; try done.
    + by injection Happ as <-.
    + by destruct Hplace.
    + destruct Hplace as (_ & Hfits & _).
      apply write_tiles_in_range; [by destruct Hinv|].
      by apply (fits_in_range (board s)).
Qed.

(** A state reached by legal play never makes the core raise: the legal
    moves of the player to move can be listed, each of them applies under
    every outcome of the draw, and the successor is reachable again. *)
Theorem reachable_states_never_raise (DICTIONARY : gset string)
    (s : ScrabbleState) :
  reachable DICTIONARY s ->
  exists moves,
    get_legal_moves DICTIONARY s (current_player s) = Some moves
    /\ forall m rng,
         m ∈ moves ->
         exists s', apply_move rng s m = Some s' /\ reachable DICTIONARY s'.
Proof.
  intros Hreach. pose proof (reachable_inv _ _ Hreach) as Hinv.
  destruct (get_legal_moves_total DICTIONARY s Hinv) as (moves & Hmoves).
  exists moves. split; [done|]. intros m rng Hm.
  destruct (legal_move_applies DICTIONARY rng s moves m Hinv Hmoves Hm)
    as (s' & Happ & _).
  exists s'. split; [done|]. by eapply reach_move.
Qed.

Lemma reachable_states_never_raise_witness :
  exists moves,
    get_legal_moves {["AT"]} game_AAT (current_player game_AAT) = Some moves
    /\ forall m rng,
         m ∈ moves ->
         exists s', apply_move rng game_AAT m = Some s'
                    /\ reachable {["AT"]} s'.
Proof.
  apply (reachable_states_never_raise {["AT"]} game_AAT).
  apply reach_new. exact shuffled_AAT_is_a_shuffle.
Defined.

(** A legal placement puts at least one tile on the board. *)
Lemma legal_place_nonempty (D : gset string) (s : ScrabbleState) (p : Z)
    (moves : list Move) (m : Move) :
  get_legal_moves D s p = Some moves -> m ∈ moves -> is_pass m = false ->
  tiles_placed m <> [].
Proof.
  intros Hmoves Hm Hpass. unfold get_legal_moves in Hmoves.
  destruct (is_terminal s).
  { injection Hmoves as <-. by apply elem_of_nil in Hm. }
  destruct (racks s !! p) as [rack|]; [|done]. simpl in Hmoves.
  injection Hmoves as <-.
  apply elem_of_app in Hm as [Hm|Hm].
  - apply list_elem_of_In in Hm. destruct (board_empty (board s)).
    + apply first_move_elim in Hm
        as (n & perm & h & start & Hn & _ & _ & _ & _ & ->).
      simpl. unfold span, range. rewrite Nat.sub_0_r.
      destruct n as [|n]; [lia|]. done.
    + apply connected_elim in Hm as (ar & ac & h & _ & Hm).
      apply build_words_elim in Hm as (n & perm & pos & _ & _ & _ & _ & Hm).
      apply place_at_anchor_elim in Hm as (_ & _ & _ & Hne & _ & _ & _ & ->).
      done.
  - apply list_elem_of_singleton in Hm. by subst m.
Qed.

(** Every legal move brings the end of the game nearer: a placement takes
    at least one tile out of the pool, a pass counts towards the two that
    end the game. *)
Lemma move_decreases_plies_left (DICTIONARY : gset string)
    (rng : nat -> nat) (s s' : ScrabbleState) (player_id : Z)
    (moves : list Move) (m : Move) :
  get_legal_moves DICTIONARY s player_id = Some moves ->
  m ∈ moves ->
  apply_move rng s m = Some s' ->
  plies_left s' < plies_left s.
Proof.
  intros Hmoves Hm Happ.
  assert (is_terminal s = false) as Hterm.
  { unfold get_legal_moves in Hmoves. destruct (is_terminal s); [|done].
    injection Hmoves as <-. by apply elem_of_nil in Hm. }
  unfold is_terminal in Hterm. apply orb_false_iff in Hterm as [Hpool Hpasses].
  apply Nat.eqb_neq in Hpool. apply Nat.leb_gt in Hpasses.
  destruct (is_pass m) eqn:Hpass.
  - rewrite apply_move_pass in Happ by done. injection Happ as <-.
    unfold plies_left. simpl. lia.
  - pose proof (legal_place_nonempty _ _ _ _ _ Hmoves Hm Hpass) as Hne.
    assert (0 < length (tiles_placed m)) as Hk.
    { destruct (tiles_placed m); [done|simpl; lia]. }
    unfold apply_move in Happ. rewrite Hpass in Happ. simpl in Happ.
    destruct (write_tiles _ _) as [next_board|]; [|done]. simpl in Happ.
    destruct (scores s !! current_player s) as [old_score|]; [|done].
    simpl in Happ.
    destruct (racks s !! current_player s) as [rack|]; [|done].
    simpl in Happ.
    destruct (_draw_tiles_spec (fun _ => True) rng (tile_pool s)
                (length (tiles_placed m))) as (_ & Hd & _).
    { by apply Forall_true. }
    destruct (_draw_tiles _ _ _) as [new_tiles next_pool].
    injection Happ as <-. unfold plies_left. simpl in *. lia.
Qed.

Lemma plays_plies_left (D : gset string) (s s' : ScrabbleState) (n : nat) :
  plays D s n s' -> n + plies_left s' <= plies_left s.
Proof.
  induction 1 as [s|s s1 s' n moves m rng Hmoves Hm Happ _ IH]; [lia|].
  pose proof (move_decreases_plies_left _ _ _ _ _ _ _ Hmoves Hm Happ). lia.
Qed.

(** ** Dealing and the size of the racks *)

(** [deal] pops from the end of the pool: the rack receives the last [n]
    tiles of the pool, the last one first. *)
Lemma deal_pops (n : nat) :
  forall (pool rack : list string),
    n <= length pool ->
    deal n pool rack
    = (rack ++ reverse (drop (length pool - n) pool),
       take (length pool - n) pool).
Proof.
  induction n as [|n IH]; intros pool rack Hn; simpl.
  - rewrite Nat.sub_0_r, drop_all, take_ge by lia. simpl.
    by rewrite app_nil_r.
  - destruct (last pool) as [tile|] eqn:Hlast.
    + apply last_Some in Hlast as [pool' ->].
      rewrite removelast_last. rewrite length_app in *. simpl in *.
      rewrite IH by lia.
      replace (length pool' + 1 - S n) with (length pool' - n) by lia.
      rewrite drop_app_le, take_app_le by lia.
      rewrite reverse_app. simpl. by rewrite <- app_assoc.
    + apply last_None in Hlast as ->. simpl in Hn. lia.
Qed.

Lemma create_new_game_dealt (shuffled : list string) :
  length shuffled = 100 ->
  let s := create_new_game shuffled in
  racks s !! 1%Z = Some (reverse (drop 93 shuffled))
  /\ racks s !! 2%Z = Some (reverse (take 7 (drop 86 shuffled)))
  /\ tile_pool s = take 86 shuffled
  /\ board s = empty_board
  /\ current_player s = 1%Z
  /\ passes_in_a_row s = 0.
Proof.
  intros Hlen. unfold create_new_game, RACK_SIZE.
  rewrite (deal_pops 7 shuffled []) by lia. rewrite Hlen.
  change (100 - 7) with 93. cbv beta iota.
  rewrite (deal_pops 7 (take 93 shuffled) []) by (rewrite length_take; lia).
  rewrite length_take, Hlen.
  replace (93 `min` 100 - 7) with 86 by lia. cbv beta iota zeta.
  rewrite take_take. replace (86 `min` 93) with 86 by lia.
  assert (drop 86 (take 93 shuffled) = take 7 (drop 86 shuffled)) as ->.
  { rewrite take_drop_commute. done. }
  cbn [racks tile_pool board current_player passes_in_a_row app].
  split; [by rewrite lookup_insert_ne, lookup_insert_eq|].
  split; [by rewrite lookup_insert_eq|]. done.
Qed.

(** [create_new_game] deals from the end of the shuffled bag: player 1
    receives its last seven tiles, player 2 the seven before them, each
    rack in the order the tiles were popped, and the pool keeps the first
    86. *)
Theorem create_new_game_deals_from_the_end (shuffled : list string) :
  length shuffled = 100 ->
  let s := create_new_game shuffled in
  racks s !! 1%Z = Some (reverse (drop 93 shuffled))
  /\ racks s !! 2%Z = Some (reverse (take 7 (drop 86 shuffled)))
  /\ tile_pool s = take 86 shuffled
  /\ board s = empty_board
  /\ current_player s = 1%Z
  /\ passes_in_a_row s = 0.
Proof. exact (create_new_game_dealt shuffled). Qed.

Lemma create_new_game_deals_from_the_end_witness :
  let s := create_new_game shuffled_AAT in
  racks s !! 1%Z = Some (reverse (drop 93 shuffled_AAT))
  /\ racks s !! 2%Z = Some (reverse (take 7 (drop 86 shuffled_AAT)))
  /\ tile_pool s = take 86 shuffled_AAT
  /\ board s = empty_board
  /\ current_player s = 1%Z
  /\ passes_in_a_row s = 0.
Proof.
  apply (create_new_game_deals_from_the_end shuffled_AAT).
  vm_compute. reflexivity.
Defined.

Lemma create_new_game_racks_full (shuffled : list string) :
  shuffled ≡ₚ unshuffled_pool -> racks_full (create_new_game shuffled).
Proof.
  intros Hperm.
  assert (length shuffled = 100) as Hlen.
  { rewrite Hperm. by destruct unshuffled_pool_facts. }
  destruct (create_new_game_dealt shuffled Hlen)
    as (Hr1 & Hr2 & _).
  unfold racks_full, rack_of. rewrite Hr1, Hr2. simpl.
  rewrite !length_reverse, length_take, !length_drop, Hlen.
  unfold RACK_SIZE. lia.
Qed.

Lemma legal_move_racks_full (D : gset string) (rng : nat -> nat)
    (s s' : ScrabbleState) (moves : list Move) (m : Move) :
  game_inv s -> racks_full s ->
  get_legal_moves D s (current_player s) = Some moves ->
  m ∈ moves ->
  apply_move rng s m = Some s' ->
  racks_full s'.
Proof.
  intros Hinv Hfull Hmoves Hm Happ.
  assert (tile_pool s <> []) as Hpool.
  { unfold get_legal_moves in Hmoves.
    destruct (is_terminal s) eqn:Hterm.
    - injection Hmoves as <-. by apply elem_of_nil in Hm.
    - unfold is_terminal in Hterm. apply orb_false_iff in Hterm as [Hp _].
      apply Nat.eqb_neq in Hp. by destruct (tile_pool s). }
  destruct Hfull as (_ & _ & Hfull). destruct (Hfull Hpool) as [Hf1 Hf2].
  destruct (legal_move_result D rng s s' moves m Hinv Hmoves Hm Happ)
    as [[_ ->] | (rack & sc & Hrack & _ & (_ & _ & Hcan) & ->)].
  - unfold racks_full, rack_of, pass_successor in *. simpl. lia.
  - pose proof (can_place_length _ _ Hcan) as Hlen.
    rewrite length_map in Hlen.
    destruct (_draw_tiles_spec (fun _ => True) rng (tile_pool s)
                (length (tiles_placed m))) as (Hd1 & Hd2 & _).
    { by apply Forall_true. }
    unfold racks_full, rack_of in *. simpl.
    destruct (inv_player s Hinv) as [Hp|Hp]; rewrite Hp in *.
    + rewrite lookup_insert_eq, lookup_insert_ne by done. simpl.
      rewrite Hrack in Hf1. simpl in Hf1. rewrite length_app.
      split; [lia|]. split; [lia|]. intros Hpool'.
      assert (0 < length (_draw_tiles rng (tile_pool s)
                            (length (tiles_placed m))).2) as Hpos.
      { destruct (_draw_tiles _ _ _).2; [done|simpl; lia]. }
      lia.
    + rewrite lookup_insert_eq, lookup_insert_ne by done. simpl.
      rewrite Hrack in Hf2. simpl in Hf2. rewrite length_app.
      split; [lia|]. split; [lia|]. intros Hpool'.
      assert (0 < length (_draw_tiles rng (tile_pool s)
                            (length (tiles_placed m))).2) as Hpos.
      { destruct (_draw_tiles _ _ _).2; [done|simpl; lia]. }
      lia.
Qed.

(** In every state reached by legal play no rack holds more than seven
    tiles, and both racks hold exactly seven until the pool runs out. *)
Theorem racks_stay_full (DICTIONARY : gset string) (s : ScrabbleState) :
  reachable DICTIONARY s ->
  length (rack_of s 1) <= RACK_SIZE
  /\ length (rack_of s 2) <= RACK_SIZE
  /\ (tile_pool s <> [] ->
      length (rack_of s 1) = RACK_SIZE /\ length (rack_of s 2) = RACK_SIZE).
Proof.
  induction 1 as [shuffled Hperm | s s' moves m rng Hreach IH Hmoves Hm Happ].
  - by apply create_new_game_racks_full.
  - eapply legal_move_racks_full; [|exact IH|exact Hmoves|exact Hm|exact Happ].
    by eapply reachable_inv.
Qed.

Lemma racks_stay_full_witness :
  length (rack_of after_AT 1) <= RACK_SIZE
  /\ length (rack_of after_AT 2) <= RACK_SIZE
  /\ (tile_pool after_AT <> [] ->
      length (rack_of after_AT 1) = RACK_SIZE
      /\ length (rack_of after_AT 2) = RACK_SIZE).
Proof.
  apply (racks_stay_full {["AT"]} after_AT).
  apply (reach_move _ game_AAT after_AT
           (default [] (get_legal_moves {["AT"]} game_AAT 1))
           move_AT (fun _ => 0)).
  - apply reach_new. exact shuffled_AAT_is_a_shuffle.
  - vm_compute. reflexivity.
  - apply (bool_decide_unpack _). vm_compute. exact I.
  - vm_compute. reflexivity.
Defined.

(** ** Scores *)

Lemma letter_value_nonneg (letter : string) : (0 <= letter_value letter)%Z.
Proof.
  unfold letter_value. destruct (LETTER_VALUES !! letter) as [v|] eqn:Hv;
    [|done].
  simpl. unfold LETTER_VALUES in Hv. apply elem_of_list_to_map_2 in Hv.
  assert (Forall (fun lv : string * Z => (0 <= lv.2)%Z)
            [("A", 1); ("B", 3); ("C", 3); ("D", 2); ("E", 1); ("F", 4);
             ("G", 2); ("H", 4); ("I", 1); ("J", 8); ("K", 5); ("L", 1);
             ("M", 3); ("N", 1); ("O", 1); ("P", 3); ("Q", 10); ("R", 1);
             ("S", 1); ("T", 1); ("U", 1); ("V", 4); ("W", 4); ("X", 8);
             ("Y", 4); ("Z", 10); ("_", 0)]%Z) as Hall.
  { repeat constructor; simpl; lia. }
  rewrite Forall_forall in Hall. exact (Hall (letter, v) Hv).
Qed.

Lemma apply_premium_nonneg (premium letter_score multiplier : Z) :
  (0 <= letter_score)%Z -> (1 <= multiplier)%Z ->
  (0 <= (apply_premium premium (letter_score, multiplier)).1)%Z
  /\ (1 <= (apply_premium premium (letter_score, multiplier)).2)%Z.
Proof.
  intros Hl Hm. unfold apply_premium.
  repeat (destruct (_ =? _)%Z; [simpl; lia|]). simpl. lia.
Qed.

Lemma score_step_nonneg (ln : nat -> string) (prem : nat -> Z)
    (is_new : nat -> bool) (p : nat) (word_score word_multiplier : Z) :
  (0 <= word_score)%Z -> (1 <= word_multiplier)%Z ->
  let r :=
    let '(letter_score, word_multiplier') :=
      if is_new p
      then apply_premium (prem p) (letter_value (ln p), word_multiplier)
      else (letter_value (ln p), word_multiplier) in
    ((word_score + letter_score)%Z, word_multiplier') in
  (0 <= r.1)%Z /\ (1 <= r.2)%Z.
Proof.
  intros Hws Hwm. pose proof (letter_value_nonneg (ln p)) as Hl.
  destruct (is_new p).
  - pose proof (apply_premium_nonneg (prem p) (letter_value (ln p))
                  word_multiplier Hl Hwm) as [H1 H2].
    destruct (apply_premium _ _). simpl in *. lia.
  - simpl. lia.
Qed.

Lemma score_run_nonneg (ln : nat -> string) (prem : nat -> Z)
    (is_new : nat -> bool) (ps : list nat) :
  (0 <= score_run ln prem is_new ps)%Z.
Proof.
  unfold score_run.
  match goal with
  | |- context [foldl ?f ?a ps] =>
      assert (forall acc, (0 <= acc.1)%Z -> (1 <= acc.2)%Z ->
                          (0 <= (foldl f acc ps).1)%Z
                          /\ (1 <= (foldl f acc ps).2)%Z) as Hfold
  end.
  { induction ps as [|p ps IH]; intros [ws wm] Hws Hwm; cbn [foldl];
      [done|].
    destruct (score_step_nonneg ln prem is_new p ws wm Hws Hwm) as [H1 H2].
    by apply IH. }
  destruct (Hfold (0%Z, 1%Z)) as [H1 H2]; [simpl; lia|simpl; lia|].
  destruct (foldl _ _ ps) as [ws wm]. simpl in *. nia.
Qed.

Lemma cross_score_nonneg (temp_board : Board) (horizontal : bool) (t : Tile) :
  (0 <= cross_score temp_board horizontal t)%Z.
Proof.
  unfold cross_score. destruct (_ <? _); [|done]. apply score_run_nonneg.
Qed.

Lemma calculate_score_bounds (board : Board) (tiles_placed : list Tile) :
  (0 <= _calculate_score board tiles_placed)%Z
  /\ (length tiles_placed = 7 -> (50 <= _calculate_score board tiles_placed)%Z).
Proof.
  unfold _calculate_score. destruct tiles_placed as [|t ts]; [by split|].
  cbv beta iota zeta. remember (t :: ts) as tiles eqn:Htiles. clear Htiles.
  match goal with
  | |- context [foldl ?f 0%Z tiles] =>
      assert (forall acc l, (0 <= acc)%Z -> (0 <= foldl f acc l)%Z) as Hcross
  end.
  { intros acc l. revert acc. induction l as [|x l IH]; intros acc Hacc;
      cbn [foldl]; [done|].
    apply IH. pose proof (cross_score_nonneg
                            (place_tiles board tiles)
                            (length (remove_dups (map tile_row tiles)) =? 1) x).
    lia. }
  specialize (Hcross 0%Z tiles (Z.le_refl 0)).
  match goal with
  | |- context [(?main + foldl _ _ _ + _)%Z] =>
      assert (0 <= main)%Z as Hmain
  end.
  { destruct (_ =? 1); apply score_run_nonneg. }
  split.
  - destruct (length tiles =? 7); lia.
  - intros ->. change (7 =? 7) with true. cbv iota. lia.
Qed.

(** [_calculate_score] never returns a negative score, and a placement of
    seven tiles scores at least the bonus of 50. *)
Theorem _calculate_score_nonneg (board : Board) (tiles_placed : list Tile) :
  (0 <= _calculate_score board tiles_placed)%Z
  /\ (length tiles_placed = 7 -> (50 <= _calculate_score board tiles_placed)%Z).
Proof. exact (calculate_score_bounds board tiles_placed). Qed.

(** The score a legal move carries is the score [_calculate_score] gives
    its tiles on the board of the state. *)
Lemma legal_move_score (D : gset string) (s : ScrabbleState) (p : Z)
    (moves : list Move) (m : Move) :
  get_legal_moves D s p = Some moves -> m ∈ moves ->
  score m = _calculate_score (board s) (tiles_placed m).
Proof.
  intros Hmoves Hm. unfold get_legal_moves in Hmoves.
  destruct (is_terminal s).
  { injection Hmoves as <-. by apply elem_of_nil in Hm. }
  destruct (racks s !! p) as [rack|]; [|done]. simpl in Hmoves.
  injection Hmoves as <-.
  apply elem_of_app in Hm as [Hm|Hm].
  - apply list_elem_of_In in Hm. destruct (board_empty (board s)).
    + by apply first_move_elim in Hm
        as (n & perm & h & start & _ & _ & _ & _ & _ & ->).
    + apply connected_elim in Hm as (ar & ac & h & _ & Hm).
      apply build_words_elim in Hm as (n & perm & pos & _ & _ & _ & _ & Hm).
      by apply place_at_anchor_elim in Hm as (_ & _ & _ & _ & _ & _ & _ & ->).
  - apply list_elem_of_singleton in Hm. by subst m.
Qed.

(** A legal move never lowers a score: the mover's score grows by what
    [_calculate_score] gives the placed tiles on the board before the move,
    which is not negative (and 0 for a pass). *)
Theorem scores_never_decrease (DICTIONARY : gset string) (rng : nat -> nat)
    (s s' : ScrabbleState) (moves : list Move) (m : Move) :
  game_inv s ->
  get_legal_moves DICTIONARY s (current_player s) = Some moves ->
  m ∈ moves ->
  apply_move rng s m = Some s' ->
  exists old_score,
    scores s !! current_player s = Some old_score
    /\ scores s' !! current_player s
       = Some (old_score + _calculate_score (board s) (tiles_placed m))%Z
    /\ (0 <= _calculate_score (board s) (tiles_placed m))%Z.
Proof.
  intros Hinv Hmoves Hm Happ.
  pose proof (legal_move_score _ _ _ _ _ Hmoves Hm) as Hscore.
  destruct (calculate_score_bounds (board s) (tiles_placed m)) as [Hnn _].
  destruct (legal_move_result DICTIONARY rng s s' moves m Hinv Hmoves Hm Happ)
    as [[-> ->] | (rack & sc & _ & Hsc & _ & ->)].
  - assert (is_Some (scores s !! current_player s)) as [sc Hsc].
    { destruct (inv_player s Hinv) as [-> | ->]; by destruct Hinv. }
    exists sc. simpl. rewrite Hsc. split; [done|]. split; [|done].
    f_equal. lia.
  - exists sc. split; [done|]. simpl. rewrite lookup_insert_eq.
    by rewrite Hscore.
Qed.

Lemma scores_never_decrease_witness :
  exists old_score,
    scores game_AAT !! current_player game_AAT = Some old_score
    /\ scores after_AT !! current_player game_AAT
       = Some (old_score
               + _calculate_score (board game_AAT) (tiles_placed move_AT))%Z
    /\ (0 <= _calculate_score (board game_AAT) (tiles_placed move_AT))%Z.
Proof.
  apply (scores_never_decrease {["AT"]} (fun _ => 0) game_AAT after_AT
           (default [] (get_legal_moves {["AT"]} game_AAT 1)) move_AT).
  - apply create_new_game_inv. exact shuffled_AAT_is_a_shuffle.
  - vm_compute. reflexivity.
  - apply (bool_decide_unpack _). vm_compute. exact I.
  - vm_compute. reflexivity.
Defined.

(** ** What the generator proposes *)

Lemma can_place_uses_rack (rack tiles : list string) :
  can_place rack tiles = true -> tiles ⊆+ rack.
Proof.
  revert rack. induction tiles as [|t ts IH]; intros rack Hcan; simpl in Hcan.
  - apply submseteq_nil_l.
  - destruct (str_in t rack) eqn:Hin; [|done].
    apply str_in_true in Hin. apply IH in Hcan.
    rewrite (remove_first_perm t rack Hin). by apply submseteq_skip.
Qed.

(** Every placement among the legal moves can be made: its letters are
    tiles of the player's rack, each used as often as the rack holds it at
    most, and its cells are distinct empty cells of the board. *)
Theorem legal_placements_fit (DICTIONARY : gset string) (s : ScrabbleState)
    (player_id : Z) (rack : list string) (moves : list Move) (m : Move) :
  racks s !! player_id = Some rack ->
  proper_tiles rack ->
  get_legal_moves DICTIONARY s player_id = Some moves ->
  m ∈ moves ->
  is_pass m = false ->
  map tile_letter (tiles_placed m) ⊆+ rack
  /\ NoDup (tile_pos <$> tiles_placed m)
  /\ forall t, t ∈ tiles_placed m ->
               tile_row t < BOARD_SIZE /\ tile_col t < BOARD_SIZE
               /\ cell (board s) (tile_row t) (tile_col t) = EmptyString.
Proof.
  intros Hrack Hproper Hmoves Hm Hpass.
  destruct (legal_move_cases DICTIONARY s player_id rack moves m Hrack Hproper
              Hmoves Hm) as [-> | (_ & [Hnodup Hfits] & Hcan)]; [done|].
  split; [by apply can_place_uses_rack|]. split; [done|].
  intros t Ht. rewrite Forall_forall in Hfits.
  destruct (Hfits t Ht) as (? & ? & ? & _). done.
Qed.

Lemma legal_placements_fit_witness :
  map tile_letter (tiles_placed move_AT) ⊆+ ["A"; "A"; "T"; "E"; "R"; "S"; "N"]
  /\ NoDup (tile_pos <$> tiles_placed move_AT)
  /\ forall t, t ∈ tiles_placed move_AT ->
               tile_row t < BOARD_SIZE /\ tile_col t < BOARD_SIZE
               /\ cell (board game_AAT) (tile_row t) (tile_col t) = EmptyString.
Proof.
  apply (legal_placements_fit {["AT"]} game_AAT 1
           ["A"; "A"; "T"; "E"; "R"; "S"; "N"]
           (default [] (get_legal_moves {["AT"]} game_AAT 1)) move_AT).
  - vm_compute. reflexivity.
  - unfold proper_tiles. apply (bool_decide_unpack _). vm_compute. exact I.
  - vm_compute. reflexivity.
  - apply (bool_decide_unpack _). vm_compute. exact I.
  - reflexivity.
Defined.

(** Every opening move lies along row 7 or along column 7, covers the
    centre cell, and spells a valid word of at least two letters taken from
    the rack. *)
Theorem first_move_covers_centre (DICTIONARY : gset string) (board : Board)
    (rack : list string) (m : Move) :
  In m (_generate_first_move DICTIONARY board rack) ->
  is_pass m = false
  /\ 2 <= length (tiles_placed m)
  /\ (7, 7) ∈ tile_pos <$> tiles_placed m
  /\ ((forall t, t ∈ tiles_placed m -> tile_row t = 7)
      \/ (forall t, t ∈ tiles_placed m -> tile_col t = 7))
  /\ is_valid_word DICTIONARY (join (map tile_letter (tiles_placed m))) = true
  /\ map tile_letter (tiles_placed m) ⊆+ rack.
Proof.
  intros Hm.
  apply first_move_elim in Hm
    as (n & perm & h & start & Hn & Hperm & Hvalid & Hstart & Hend & ->).
  apply permutations_spec in Hperm as [Hlen Hsub]. subst n. simpl.
  split; [done|]. split.
  { unfold span, range. rewrite length_map, length_seq. lia. }
  split.
  { apply list_elem_of_fmap.
    exists (if h then (7, start + (7 - start), nth (7 - start) perm EmptyString)
            else (start + (7 - start), 7, nth (7 - start) perm EmptyString)).
    split.
    - destruct h; unfold tile_pos, tile_row, tile_col; simpl; f_equal; lia.
    - apply list_elem_of_In, span_elem. exists (7 - start). split; [lia|done]. }
  split.
  { destruct h; [left|right]; intros t Ht;
      apply list_elem_of_In, span_elem in Ht as (i & _ & ->); done. }
  rewrite span_letters. done.
Qed.

Lemma first_move_covers_centre_witness :
  is_pass move_AT = false
  /\ 2 <= length (tiles_placed move_AT)
  /\ (7, 7) ∈ tile_pos <$> tiles_placed move_AT
  /\ ((forall t, t ∈ tiles_placed move_AT -> tile_row t = 7)
      \/ (forall t, t ∈ tiles_placed move_AT -> tile_col t = 7))
  /\ is_valid_word {["AT"]} (join (map tile_letter (tiles_placed move_AT)))
     = true
  /\ map tile_letter (tiles_placed move_AT)
     ⊆+ ["A"; "A"; "T"; "E"; "R"; "S"; "N"].
Proof.
  apply (first_move_covers_centre {["AT"]} empty_board
           ["A"; "A"; "T"; "E"; "R"; "S"; "N"] move_AT).
  apply list_elem_of_In. apply (bool_decide_unpack _). vm_compute. exact I.
Defined.

(** Every placement among the legal moves lies in one line of the board:
    all its tiles share a row, or all share a column. *)
Theorem legal_placements_lie_in_a_line (DICTIONARY : gset string)
    (s : ScrabbleState) (player_id : Z) (moves : list Move) (m : Move) :
  get_legal_moves DICTIONARY s player_id = Some moves ->
  m ∈ moves ->
  (exists row, forall t, t ∈ tiles_placed m -> tile_row t = row)
  \/ (exists col, forall t, t ∈ tiles_placed m -> tile_col t = col).
Proof.
  intros Hmoves Hm. unfold get_legal_moves in Hmoves.
  destruct (is_terminal s).
  { injection Hmoves as <-. by apply elem_of_nil in Hm. }
  destruct (racks s !! player_id) as [rack|]; [|done]. simpl in Hmoves.
  injection Hmoves as <-.
  apply elem_of_app in Hm as [Hm|Hm].
  - apply list_elem_of_In in Hm. destruct (board_empty (board s)).
    + apply first_move_elim in Hm
        as (n & perm & h & start & _ & _ & _ & _ & _ & ->).
      simpl. destruct h; [left; exists 7|right; exists 7]; intros t Ht;
        apply list_elem_of_In, span_elem in Ht as (i & _ & ->); done.
    + apply connected_elim in Hm as (ar & ac & h & _ & Hm).
      apply build_words_elim in Hm as (n & perm & pos & _ & _ & _ & _ & Hm).
      apply place_at_anchor_elim in Hm as (_ & _ & _ & _ & _ & _ & _ & ->).
      simpl. destruct h; [left; exists ar|right; exists ac]; intros t Ht;
        apply list_elem_of_In, filter_In in Ht as [Ht _];
        apply span_elem in Ht as (i & _ & ->); done.
  - apply list_elem_of_singleton in Hm. subst m. left. exists 0.
    intros t Ht. by apply elem_of_nil in Ht.
Qed.

Lemma legal_placements_lie_in_a_line_witness :
  (exists row, forall t, t ∈ tiles_placed move_AT -> tile_row t = row)
  \/ (exists col, forall t, t ∈ tiles_placed move_AT -> tile_col t = col).
Proof.
  apply (legal_placements_lie_in_a_line {["AT"]} game_AAT 1
           (default [] (get_legal_moves {["AT"]} game_AAT 1)) move_AT).
  - vm_compute. reflexivity.
  - apply (bool_decide_unpack _). vm_compute. exact I.
Defined.

(** ** Anchors *)

Lemma neighbour_filled_spec (b : Board) (r c : nat) :
  existsb
    (fun d : Z * Z =>
       let nr := (Z.of_nat r + d.1)%Z in
       let nc := (Z.of_nat c + d.2)%Z in
       (0 <=? nr)%Z && (nr <? Z.of_nat BOARD_SIZE)%Z
       && (0 <=? nc)%Z && (nc <? Z.of_nat BOARD_SIZE)%Z
       && filled (cell b (Z.to_nat nr) (Z.to_nat nc)))
    [(-1, 0); (1, 0); (0, -1); (0, 1)]%Z = true
  <-> exists r' c',
        r' < BOARD_SIZE /\ c' < BOARD_SIZE /\ adjacent r c r' c'
        /\ filled (cell b r' c') = true.
Proof.
  rewrite existsb_exists. unfold adjacent. split.
  - intros ([d1 d2] & Hd & Hcond). simpl in Hcond.
    rewrite !andb_true_iff in Hcond.
    destruct Hcond as ((((H1 & H2) & H3) & H4) & Hfilled).
    apply Z.leb_le in H1, H3. apply Z.ltb_lt in H2, H4.
    exists (Z.to_nat (Z.of_nat r + d1)), (Z.to_nat (Z.of_nat c + d2)).
    split; [lia|]. split; [lia|]. split; [|done].
    simpl in Hd.
    destruct Hd as [[= <- <-]|[[= <- <-]|[[= <- <-]|[[= <- <-]|[]]]]]; lia.
  - intros (r' & c' & Hr' & Hc' & Hadj & Hfilled).
    assert (forall d1 d2 : Z,
              Z.of_nat r' = (Z.of_nat r + d1)%Z ->
              Z.of_nat c' = (Z.of_nat c + d2)%Z ->
              (let nr := (Z.of_nat r + (d1, d2).1)%Z in
               let nc := (Z.of_nat c + (d1, d2).2)%Z in
               (0 <=? nr)%Z && (nr <? Z.of_nat BOARD_SIZE)%Z
               && (0 <=? nc)%Z && (nc <? Z.of_nat BOARD_SIZE)%Z
               && filled (cell b (Z.to_nat nr) (Z.to_nat nc))) = true)
      as Hdir.
    { intros d1 d2 H1 H2. simpl. rewrite <- H1, <- H2, !Nat2Z.id, Hfilled.
      rewrite !andb_true_iff. repeat split;
        first [apply Z.leb_le; lia | apply Z.ltb_lt; lia]. }
    destruct Hadj as [[-> [-> | <-]] | [-> [-> | <-]]].
    + exists (0, 1)%Z. split; [simpl; tauto|]. apply Hdir; lia.
    + exists (0, -1)%Z. split; [simpl; tauto|]. apply Hdir; lia.
    + exists (1, 0)%Z. split; [simpl; tauto|]. apply Hdir; lia.
    + exists (-1, 0)%Z. split; [simpl; tauto|]. apply Hdir; lia.
Qed.

Lemma find_anchors_spec (b : Board) (r c : nat) :
  In (r, c) (_find_anchors b) <->
  r < BOARD_SIZE /\ c < BOARD_SIZE
  /\ cell b r c = EmptyString
  /\ exists r' c',
       r' < BOARD_SIZE /\ c' < BOARD_SIZE /\ adjacent r c r' c'
       /\ cell b r' c' <> EmptyString.
Proof.
  assert ((exists r' c' : nat,
             r' < BOARD_SIZE /\ c' < BOARD_SIZE /\ adjacent r c r' c'
             /\ filled (cell b r' c') = true)
          <-> exists r' c' : nat,
             r' < BOARD_SIZE /\ c' < BOARD_SIZE /\ adjacent r c r' c'
             /\ cell b r' c' <> EmptyString) as Hfilled.
  { split; intros (r' & c' & ? & ? & ? & Hf); exists r', c';
      (split; [done|]; split; [done|]; split; [done|]);
      by apply filled_true. }
  rewrite <- Hfilled, <- neighbour_filled_spec.
  unfold _find_anchors, range. rewrite in_flat_map. split.
  - intros (r0 & Hr0 & Hin). apply in_seq in Hr0.
    apply in_flat_map in Hin as (c0 & Hc0 & Hin). apply in_seq in Hc0.
    destruct (filled (cell b r0 c0)) eqn:Hcell; simpl in Hin; [done|].
    match type of Hin with
    | In _ (if ?cond then _ else _) => destruct cond eqn:Hadj
    end; [|done].
    destruct Hin as [[= <- <-]|[]].
    split; [lia|]. split; [lia|]. split; [by apply filled_false|done].
  - intros (Hr & Hc & Hempty & Hadj). exists r. split; [apply in_seq; lia|].
    apply in_flat_map. exists c. split; [apply in_seq; lia|].
    apply filled_false in Hempty. rewrite Hempty. simpl.
    match goal with
    | |- In _ (if ?cond then _ else _) => replace cond with true
    end.
    by left.
Qed.

(** [_find_anchors] returns exactly the empty cells of the grid that share
    an edge with a filled cell. *)
Theorem anchors_are_empty_neighbours (board : Board) (r c : nat) :
  In (r, c) (_find_anchors board) <->
  r < BOARD_SIZE /\ c < BOARD_SIZE
  /\ cell board r c = EmptyString
  /\ exists r' c',
       r' < BOARD_SIZE /\ c' < BOARD_SIZE /\ adjacent r c r' c'
       /\ cell board r' c' <> EmptyString.
Proof. exact (find_anchors_spec board r c). Qed.

(** On a board without tiles there is no anchor, so the generator for
    connected moves proposes nothing: the opening move has to come from
    [_generate_first_move]. *)
Theorem no_connected_move_on_empty_board (DICTIONARY : gset string)
    (board : Board) (rack : list string) :
  board_empty board = true ->
  _find_anchors board = []
  /\ _generate_connected_moves DICTIONARY board rack = [].
Proof.
  intros Hempty.
  assert (_find_anchors board = []) as Hnone.
  { destruct (_find_anchors board) as [|[r c] rest] eqn:Hanchors; [done|].
    assert (In (r, c) (_find_anchors board)) as Hin
      by (rewrite Hanchors; by left).
    apply find_anchors_spec in Hin
      as (_ & _ & _ & r' & c' & Hr' & Hc' & _ & Hfilled).
    by rewrite (board_empty_spec board r' c' Hempty Hr' Hc') in Hfilled. }
  split; [done|]. unfold _generate_connected_moves. by rewrite Hnone.
Qed.

Lemma no_connected_move_on_empty_board_witness :
  _find_anchors empty_board = []
  /\ _generate_connected_moves {["AT"]} empty_board
       ["A"; "A"; "T"; "E"; "R"; "S"; "N"] = [].
Proof.
  apply (no_connected_move_on_empty_board {["AT"]} empty_board
           ["A"; "A"; "T"; "E"; "R"; "S"; "N"]).
  vm_compute. reflexivity.
Defined.

(** Every move of [_generate_connected_moves] puts a tile on an anchor: it
    touches a tile that is already on the board. *)
Theorem connected_moves_cover_an_anchor (DICTIONARY : gset string)
    (board : Board) (rack : list string) (m : Move) :
  In m (_generate_connected_moves DICTIONARY board rack) ->
  exists t,
    t ∈ tiles_placed m
    /\ In (tile_pos t) (_find_anchors board)
    /\ exists r' c',
         r' < BOARD_SIZE /\ c' < BOARD_SIZE
         /\ adjacent (tile_row t) (tile_col t) r' c'
         /\ cell board r' c' <> EmptyString.
Proof.
  intros Hm. apply connected_elim in Hm as (ar & ac & h & Hanchor & Hm).
  apply build_words_elim in Hm as (n & perm & pos & _ & _ & _ & Hpos & Hm).
  apply place_at_anchor_elim in Hm as (Hle & _ & _ & _ & _ & _ & _ & ->).
  simpl.
  pose proof Hanchor as Hspec.
  apply find_anchors_spec in Hspec as (Hr & Hc & Hempty & Hadj).
  set (t := if h
            then (ar, along ar ac h - pos + pos, nth pos perm EmptyString)
            else (along ar ac h - pos + pos, ac, nth pos perm EmptyString)).
  assert (tile_row t = ar /\ tile_col t = ac) as [Hrow Hcol].
  { unfold t, along in *. destruct h; unfold tile_row, tile_col; simpl; lia. }
  exists t. split.
  - apply list_elem_of_In, filter_In. split.
    + apply span_elem. exists pos. split; [done|]. done.
    + unfold is_empty_at. apply bool_decide_eq_true. by rewrite Hrow, Hcol.
  - unfold tile_pos. rewrite Hrow, Hcol. by split.
Qed.

Lemma connected_moves_cover_an_anchor_witness :
  exists t,
    t ∈ tiles_placed (mkMove [(8, 7, "T")] 3 false)
    /\ In (tile_pos t) (_find_anchors board_CAT)
    /\ exists r' c',
         r' < BOARD_SIZE /\ c' < BOARD_SIZE
         /\ adjacent (tile_row t) (tile_col t) r' c'
         /\ cell board_CAT r' c' <> EmptyString.
Proof.
  apply (connected_moves_cover_an_anchor {["CAT"; "AT"]} board_CAT ["A"; "T"]
           (mkMove [(8, 7, "T")] 3 false)).
  apply list_elem_of_In. apply (bool_decide_unpack _). vm_compute. exact I.
Defined.

(** ** What the searches return *)

Lemma vmax_fin (a : Value) (z : Z) :
  a = NegInf \/ is_fin a -> is_fin (vmax a (Fin z)).
Proof.
  intros [-> | [z' ->]]; unfold vmax, vlt, vle; [by eexists|].
  destruct (z <=? z')%Z; by eexists.
Qed.

Lemma vmin_fin (a : Value) (z : Z) :
  a = PosInf \/ is_fin a -> is_fin (vmin a (Fin z)).
Proof.
  intros [-> | [z' ->]]; unfold vmin, vlt, vle; [by eexists|].
  destruct (z' <=? z)%Z; by eexists.
Qed.

Lemma foldl_vmax_fin (vs : list Value) :
  forall acc,
    acc = NegInf \/ is_fin acc ->
    Forall is_fin vs ->
    (is_fin acc \/ vs <> []) ->
    is_fin (foldl vmax acc vs).
Proof.
  induction vs as [|v vs IH]; intros acc Hacc Hvs Hne; simpl.
  - by destruct Hne.
  - apply Forall_cons in Hvs as [[z ->] Hvs].
    pose proof (vmax_fin acc z Hacc). apply IH; auto.
Qed.

Lemma foldl_vmin_fin (vs : list Value) :
  forall acc,
    acc = PosInf \/ is_fin acc ->
    Forall is_fin vs ->
    (is_fin acc \/ vs <> []) ->
    is_fin (foldl vmin acc vs).
Proof.
  induction vs as [|v vs IH]; intros acc Hacc Hvs Hne; simpl.
  - by destruct Hne.
  - apply Forall_cons in Hvs as [[z ->] Hvs].
    pose proof (vmin_fin acc z Hacc). apply IH; auto.
Qed.

Section SearchResults.

Variable DICTIONARY : gset string.
Variable oracle : list nat -> nat -> nat.

Lemma children_values_Forall (P : Value -> Prop)
    (rec : ScrabbleState -> list nat -> option Value)
    (state : ScrabbleState) (path : list nat) :
  (forall s p v, rec s p = Some v -> P v) ->
  forall (moves : list Move) (i : nat) (vs : list Value),
    AlphaBetaMinimax.children_values oracle rec state path i moves = Some vs ->
    Forall P vs /\ length vs = length moves.
Proof.
  intros Hrec. induction moves as [|move rest IH]; intros i vs Hvs;
    simpl in Hvs.
  - by injection Hvs as <-.
  - destruct (apply_move _ state move) as [next_state|]; [|done].
    simpl in Hvs.
    destruct (rec next_state (path ++ [i])) as [v|] eqn:Hv; [|done].
    simpl in Hvs.
    destruct (AlphaBetaMinimax.children_values _ _ _ _ (S i) rest)
      as [vs'|] eqn:Hvs'; [|done].
    simpl in Hvs. injection Hvs as <-.
    destruct (IH _ _ Hvs') as [Hall Hlen]. split.
    + constructor; [by eapply Hrec|done].
    + simpl. by rewrite Hlen.
Qed.

(** The reference never returns an infinity: a node that is not terminal
    has at least the Pass move below it. *)
Lemma brute_force_value_fin (depth : nat) (maximizing_player_id : Z) :
  forall s p v,
    AlphaBetaMinimax.brute_force_value DICTIONARY oracle depth
      maximizing_player_id s p = Some v ->
    is_fin v.
Proof.
  induction depth as [|depth IH]; intros s p v Hv; simpl in Hv.
  - destruct (get_utility s maximizing_player_id) as [u|]; [|done].
    injection Hv as <-. by eexists.
  - destruct (is_terminal s) eqn:Hterm.
    { destruct (get_utility s maximizing_player_id) as [u|]; [|done].
      injection Hv as <-. by eexists. }
    destruct (get_legal_moves DICTIONARY s (current_player s))
      as [moves|] eqn:Hmoves; [|done].
    simpl in Hv.
    destruct (AlphaBetaMinimax.children_values _ _ _ _ _ _)
      as [vs|] eqn:Hvs; [|done].
    simpl in Hv.
    apply (children_values_Forall is_fin) in Hvs as [Hall Hlen]; [|exact IH].
    assert (vs <> []) as Hne.
    { unfold get_legal_moves in Hmoves. rewrite Hterm in Hmoves.
      destruct (racks s !! current_player s); [|done]. simpl in Hmoves.
      injection Hmoves as <-. rewrite length_app in Hlen. simpl in Hlen.
      destruct vs; [simpl in Hlen; lia|done]. }
    destruct (bool_decide _); injection Hv as <-.
    + apply foldl_vmax_fin; auto.
    + apply foldl_vmin_fin; auto.
Qed.

(** What [first_best] selects: nothing as long as no value exceeds the
    best so far, otherwise the first move whose value is the greatest. *)
Lemma first_best_spec :
  forall (moves : list Move) (vs : list Value) (best : Value)
         (best_move : option Move) (V : Value) (chosen : option Move),
    length vs = length moves ->
    foldl AlphaBetaMinimax.first_best (best, best_move) (zip moves vs)
    = (V, chosen) ->
    (V = best /\ chosen = best_move
     /\ forall j w, vs !! j = Some w -> vle w best = true)
    \/ (exists i m,
          moves !! i = Some m /\ vs !! i = Some V /\ chosen = Some m
          /\ vlt best V = true
          /\ (forall j w, vs !! j = Some w -> vle w V = true)
          /\ (forall j w, j < i -> vs !! j = Some w -> vlt w V = true)).
Proof.
  induction moves as [|move rest IH]; intros vs best bm V chosen Hlen Hfold.
  - destruct vs; [|done]. simpl in Hfold. injection Hfold as <- <-.
    left. split; [done|]. split; [done|]. intros j w Hj. done.
  - destruct vs as [|v vs]; [done|]. simpl in Hlen, Hfold.
    unfold AlphaBetaMinimax.first_best at 2 in Hfold. simpl in Hfold.
    destruct (vlt best v) eqn:Hlt.
    + apply IH in Hfold; [|lia].
      destruct Hfold as [(-> & -> & Hall)
                        |(i & m & Hm & Hv & -> & Hgt & Hall & Hbefore)].
      * right. exists 0, move. split; [done|]. split; [done|].
        split; [done|]. split; [done|]. split.
        -- intros [|j] w Hj; simpl in Hj.
           ++ injection Hj as <-. clear. value_order.
           ++ by eapply Hall.
        -- intros j w Hj. lia.
      * right. exists (S i), m. split; [done|]. split; [done|].
        split; [done|]. split; [revert Hlt Hgt; clear; value_order|].
        split.
        -- intros [|j] w Hj; simpl in Hj.
           ++ injection Hj as <-. revert Hgt. clear. value_order.
           ++ by eapply Hall.
        -- intros [|j] w Hj Hw; simpl in Hw.
           ++ by injection Hw as <-.
           ++ eapply Hbefore; [|done]. lia.
    + apply IH in Hfold; [|lia].
      destruct Hfold as [(-> & -> & Hall)
                        |(i & m & Hm & Hv & -> & Hgt & Hall & Hbefore)].
      * left. split; [done|]. split; [done|].
        intros [|j] w Hj; simpl in Hj.
        -- injection Hj as <-. revert Hlt. clear. value_order.
        -- by eapply Hall.
      * right. exists (S i), m. split; [done|]. split; [done|].
        split; [done|]. split; [done|]. split.
        -- intros [|j] w Hj; simpl in Hj.
           ++ injection Hj as <-. revert Hlt Hgt. clear. value_order.
           ++ by eapply Hall.
        -- intros [|j] w Hj Hw; simpl in Hw.
           ++ injection Hw as <-. revert Hlt Hgt. clear. value_order.
           ++ eapply Hbefore; [|done]. lia.
Qed.

Lemma alpha_beta_choice (max_depth : nat) (state : ScrabbleState) :
  game_inv state ->
  is_terminal state = false ->
  exists moves vs i m z,
    get_legal_moves DICTIONARY state (current_player state) = Some moves
    /\ AlphaBetaMinimax.children_values oracle
         (AlphaBetaMinimax.brute_force_value DICTIONARY oracle (max_depth - 1)
            (current_player state))
         state [] 0 moves = Some vs
    /\ AlphaBetaMinimax.find_best_move DICTIONARY oracle max_depth state
       = Some (Fin z, Some m)
    /\ moves !! i = Some m
    /\ vs !! i = Some (Fin z)
    /\ (forall j w, vs !! j = Some w -> vle w (Fin z) = true)
    /\ (forall j w, j < i -> vs !! j = Some w -> vlt w (Fin z) = true).
Proof.
  intros Hinv Hterm.
  destruct (brute_force_best_total DICTIONARY oracle max_depth state Hinv)
    as ([V chosen] & Hbest).
  pose proof (find_best_move_sound DICTIONARY oracle max_depth state _ Hbest)
    as Hab.
  unfold AlphaBetaMinimax.brute_force_best in Hbest.
  destruct (get_legal_moves DICTIONARY state (current_player state))
    as [moves|] eqn:Hmoves; [|done].
  simpl in Hbest.
  assert (moves <> []) as Hne.
  { unfold get_legal_moves in Hmoves. rewrite Hterm in Hmoves.
    destruct (racks state !! current_player state); [|done].
    simpl in Hmoves. injection Hmoves as <-.
    intros Hnil. apply (f_equal length) in Hnil.
    rewrite length_app in Hnil. simpl in Hnil. lia. }
  destruct moves as [|move rest]; [done|].
  destruct (AlphaBetaMinimax.children_values _ _ _ _ _ _)
    as [vs|] eqn:Hvs; [|done].
  simpl in Hbest. injection Hbest as Hbest.
  destruct (children_values_Forall is_fin _ _ _
              (brute_force_value_fin _ _) _ _ _ Hvs) as [Hfin Hlen].
  apply (first_best_spec (move :: rest) vs) in Hbest; [|done].
  destruct Hbest as [(_ & _ & Hall)
                    |(i & m & Hm & HV & -> & _ & Hall & Hbefore)].
  - destruct vs as [|v vs]; [done|].
    apply Forall_cons in Hfin as [[z ->] _].
    by specialize (Hall 0 (Fin z) eq_refl).
  - assert (is_fin V) as [z ->].
    { rewrite Forall_forall in Hfin. apply Hfin.
      by eapply list_elem_of_lookup_2. }
    exists (move :: rest), vs, i, m, z. done.
Qed.

End SearchResults.

(** On a state of a game that is not over, [AlphaBetaMinimax.find_best_move]
    returns one of the legal moves together with a finite value: the
    greatest of the depth-limited minimax values of the successors, and
    the first move in generation order to reach it. *)
Theorem alpha_beta_returns_first_best_move (DICTIONARY : gset string)
    (oracle : list nat -> nat -> nat) (max_depth : nat)
    (state : ScrabbleState) :
  1 <= max_depth ->
  game_inv state ->
  is_terminal state = false ->
  exists moves vs i m z,
    get_legal_moves DICTIONARY state (current_player state) = Some moves
    /\ AlphaBetaMinimax.children_values oracle
         (AlphaBetaMinimax.brute_force_value DICTIONARY oracle (max_depth - 1)
            (current_player state))
         state [] 0 moves = Some vs
    /\ AlphaBetaMinimax.find_best_move DICTIONARY oracle max_depth state
       = Some (Fin z, Some m)
    /\ moves !! i = Some m
    /\ vs !! i = Some (Fin z)
    /\ (forall j w, vs !! j = Some w -> vle w (Fin z) = true)
    /\ (forall j w, j < i -> vs !! j = Some w -> vlt w (Fin z) = true).
Proof. intros _. apply alpha_beta_choice. Qed.

Lemma alpha_beta_returns_first_best_move_witness :
  exists moves vs i m z,
    get_legal_moves {["AT"]} game_AAT (current_player game_AAT) = Some moves
    /\ AlphaBetaMinimax.children_values (fun _ _ => 0)
         (AlphaBetaMinimax.brute_force_value {["AT"]} (fun _ _ => 0) (2 - 1)
            (current_player game_AAT))
         game_AAT [] 0 moves = Some vs
    /\ AlphaBetaMinimax.find_best_move {["AT"]} (fun _ _ => 0) 2 game_AAT
       = Some (Fin z, Some m)
    /\ moves !! i = Some m
    /\ vs !! i = Some (Fin z)
    /\ (forall j w, vs !! j = Some w -> vle w (Fin z) = true)
    /\ (forall j w, j < i -> vs !! j = Some w -> vlt w (Fin z) = true).
Proof.
  apply (alpha_beta_returns_first_best_move {["AT"]} (fun _ _ => 0) 2 game_AAT).
  - lia.
  - apply create_new_game_inv. exact shuffled_AAT_is_a_shuffle.
  - vm_compute. reflexivity.
Defined.

(** With the full window [(-inf, inf)] the pruned search returns the exact
    depth-limited minimax value of a node. *)
Theorem full_window_is_exact (DICTIONARY : gset string)
    (oracle : list nat -> nat -> nat) (depth : nat)
    (maximizing_player_id : Z) (state : ScrabbleState) (path : list nat)
    (v : Value) :
  AlphaBetaMinimax.brute_force_value DICTIONARY oracle depth
    maximizing_player_id state path = Some v ->
  AlphaBetaMinimax._minimax_value DICTIONARY oracle depth state path
    NegInf PosInf maximizing_player_id = Some v.
Proof.
  intros Hv.
  destruct (brute_force_value_fin DICTIONARY oracle _ _ _ _ _ Hv) as [z ->].
  destruct (minimax_value_sound DICTIONARY oracle depth maximizing_player_id
              state path NegInf PosInf _ Hv) as (r & -> & Hr).
  f_equal. destruct (Hr eq_refl) as (_ & _ & Heq). by apply Heq.
Qed.

Lemma full_window_is_exact_witness :
  AlphaBetaMinimax._minimax_value {["AT"]} (fun _ _ => 0) 1 game_AAT []
    NegInf PosInf 1 = Some (Fin 4).
Proof.
  apply (full_window_is_exact {["AT"]} (fun _ _ => 0) 1 1 game_AAT []).
  vm_compute. reflexivity.
Defined.

Section MonteCarloResult.

Variable DICTIONARY : gset string.
Variable hash : list Tile * bool -> Z.
Variable R : Type.
Variable R0 : R.
Variable Radd : R -> R -> R.
Variable Rdiv : R -> nat -> R.
Variable Rlt : R -> R -> bool.
Variable heuristic_fn : ScrabbleState -> Z -> R.
Variable tape : nat -> nat -> nat.

(** Storing under a key adds at most that key, and never empties the
    dictionary. *)
Lemma dict_set_keys (d : list (Move * R)) (move : Move) (v : R) (k : Move) :
  k ∈ (MonteCarlo.dict_set hash R d move v).*1 -> k = move \/ k ∈ d.*1.
Proof.
  induction d as [|[k' w] d IH]; simpl.
  - intros Hk. apply list_elem_of_singleton in Hk. by left.
  - destruct (MonteCarlo.same_key hash k' move); simpl; intros Hk.
    + by right.
    + apply elem_of_cons in Hk as [-> | Hk]; [right; left|].
      destruct (IH Hk) as [-> | Hd]; [by left|right; by right].
Qed.

Lemma dict_set_nonempty (d : list (Move * R)) (move : Move) (v : R) :
  MonteCarlo.dict_set hash R d move v <> [].
Proof.
  destruct d as [|[k' w] d]; simpl; [done|].
  by destruct (MonteCarlo.same_key hash k' move).
Qed.

Lemma evaluate_moves_keys (ppm : nat) (state : ScrabbleState) :
  forall (moves : list Move) (k : nat) (move_values : list (Move * R))
         (log : list Event) res,
    MonteCarlo.evaluate_moves hash R R0 Radd Rdiv heuristic_fn tape ppm state
      moves k move_values log = Some res ->
    (forall key, key ∈ res.1.*1 -> key ∈ moves \/ key ∈ move_values.*1)
    /\ (moves <> [] \/ move_values <> [] -> res.1 <> []).
Proof.
  induction moves as [|move rest IH]; intros k move_values log res Hres;
    simpl in Hres.
  - injection Hres as <-. simpl. split; [auto|]. intros [?|?]; done.
  - destruct (MonteCarlo.playouts _ _ _ _ ppm state move k R0 log)
      as [[[total_value k'] log']|]; [|done].
    simpl in Hres. apply IH in Hres as [Hkeys Hne]. split.
    + intros key Hkey. destruct (Hkeys key Hkey) as [Hin | Hin].
      * left. by right.
      * apply dict_set_keys in Hin as [-> | Hin]; [left; left|by right].
    + intros _. apply Hne. right. apply dict_set_nonempty.
Qed.

Lemma best_key_in (move_values : list (Move * R)) :
  move_values <> [] ->
  exists key, MonteCarlo.best_key R Rlt move_values = Some key
              /\ key ∈ move_values.*1.
Proof.
  destruct move_values as [|[k v] rest]; [done|]. intros _.
  unfold MonteCarlo.best_key. eexists. split; [done|].
  assert (forall best : Move * R,
            (foldl (fun (best : Move * R) (kv : Move * R) =>
                      if Rlt best.2 kv.2 then kv else best) best rest).1
            ∈ (best :: rest).*1) as Hfold.
  { induction rest as [|kv rest IH]; intros best; simpl.
    - left.
    - destruct (Rlt best.2 kv.2).
      + right. apply IH.
      + specialize (IH best). simpl in IH.
        apply elem_of_cons in IH as [-> | IH]; [left|right; by right]. }
  apply Hfold.
Qed.

Lemma monte_carlo_choice (num_playouts : nat) (state : ScrabbleState) :
  game_inv state ->
  is_terminal state = false ->
  exists moves best_move log,
    get_legal_moves DICTIONARY state (current_player state) = Some moves
    /\ MonteCarlo.find_best_move DICTIONARY hash R R0 Radd Rdiv Rlt
         heuristic_fn tape num_playouts state = Some (best_move, log)
    /\ best_move ∈ moves.
Proof.
  intros Hinv Hterm.
  destruct (MonteCarlo_find_best_move_total DICTIONARY hash R R0 Radd Rdiv Rlt
              heuristic_fn tape num_playouts state Hinv)
    as (best_move & log & Hfind).
  destruct (get_legal_moves_total DICTIONARY state Hinv) as (moves & Hmoves).
  exists moves, best_move, log. split; [done|]. split; [done|].
  unfold MonteCarlo.find_best_move in Hfind. rewrite Hmoves in Hfind.
  simpl in Hfind.
  assert (moves <> []) as Hne.
  { unfold get_legal_moves in Hmoves. rewrite Hterm in Hmoves.
    destruct (racks state !! current_player state); [|done].
    simpl in Hmoves. injection Hmoves as <-.
    intros Hnil. apply (f_equal length) in Hnil.
    rewrite length_app in Hnil. simpl in Hnil. lia. }
  destruct moves as [|move rest]; [done|].
  destruct (MonteCarlo.evaluate_moves _ _ _ _ _ _ _ _ state (move :: rest)
              0 [] []) as [[move_values log']|] eqn:Heval; [|done].
  simpl in Hfind.
  apply evaluate_moves_keys in Heval as [Hkeys Hnonempty]. simpl in *.
  destruct (best_key_in move_values) as (key & Hkey & Hin); [auto|].
  rewrite Hkey in Hfind. injection Hfind as <- <-.
  destruct (Hkeys key Hin) as [?|Hnil]; [done|].
  by apply elem_of_nil in Hnil.
Qed.

End MonteCarloResult.

(** On a state of a game that is not over, [MonteCarlo.find_best_move]
    returns one of the legal moves. *)
Theorem monte_carlo_returns_a_legal_move (DICTIONARY : gset string)
    (hash : list Tile * bool -> Z) (R : Type) (R0 : R) (Radd : R -> R -> R)
    (Rdiv : R -> nat -> R) (Rlt : R -> R -> bool)
    (heuristic_fn : ScrabbleState -> Z -> R) (tape : nat -> nat -> nat)
    (num_playouts : nat) (state : ScrabbleState) :
  game_inv state ->
  is_terminal state = false ->
  exists moves best_move log,
    get_legal_moves DICTIONARY state (current_player state) = Some moves
    /\ MonteCarlo.find_best_move DICTIONARY hash R R0 Radd Rdiv Rlt
         heuristic_fn tape num_playouts state = Some (best_move, log)
    /\ best_move ∈ moves.
Proof. apply monte_carlo_choice. Qed.

Lemma monte_carlo_returns_a_legal_move_witness :
  exists moves best_move log,
    get_legal_moves {["AT"]} game_AAT (current_player game_AAT) = Some moves
    /\ search_AAT = Some (best_move, log)
    /\ best_move ∈ moves.
Proof.
  apply (monte_carlo_returns_a_legal_move {["AT"]} (fun _ => 0%Z) Z 0%Z Z.add
           (fun x n => (x / Z.of_nat n)%Z) Z.ltb (fun _ _ => 0%Z)
           (fun k _ => 10 * k) 18 game_AAT).
  - apply create_new_game_inv. exact shuffled_AAT_is_a_shuffle.
  - vm_compute. reflexivity.
Defined.

(** [playouts_per_move] is at least 1, and the playouts of all moves
    together stay within [num_playouts] unless there are more moves than
    playouts, in which case every move gets exactly one. *)
Theorem playouts_stay_in_budget (num_playouts : nat) (moves : list Move) :
  1 <= MonteCarlo.playouts_per_move num_playouts moves
  /\ MonteCarlo.playouts_per_move num_playouts moves * length moves
     <= Nat.max num_playouts (length moves)
  /\ (num_playouts < length moves ->
      MonteCarlo.playouts_per_move num_playouts moves = 1).
Proof.
  unfold MonteCarlo.playouts_per_move.
  destruct (Nat.eqb_spec (num_playouts / length moves) 0) as [Hq|Hq].
  - split; [lia|]. split; [lia|done].
  - split; [lia|]. split.
    + pose proof (Nat.Div0.mul_div_le num_playouts (length moves)). lia.
    + intros Hlt. by rewrite Nat.div_small in Hq.
Qed.

(** ** [Move] equality among moves of the same length *)

Lemma zip_forallb_eq (t1 t2 : list Tile) :
  length t1 = length t2 ->
  forallb (fun p : Tile * Tile => bool_decide (p.1 = p.2)) (zip t1 t2) = true ->
  t1 = t2.
Proof.
  revert t2. induction t1 as [|x t1 IH]; intros [|y t2] Hlen Hall; try done.
  simpl in *. apply andb_true_iff in Hall as [Hxy Hall].
  apply bool_decide_eq_true in Hxy. simpl in Hxy. subst y.
  f_equal. apply IH; [lia|done].
Qed.

Lemma zip_forallb_sym (t1 t2 : list Tile) :
  forallb (fun p : Tile * Tile => bool_decide (p.1 = p.2)) (zip t1 t2)
  = forallb (fun p : Tile * Tile => bool_decide (p.1 = p.2)) (zip t2 t1).
Proof.
  revert t2. induction t1 as [|x t1 IH]; intros [|y t2]; try done.
  simpl. rewrite IH. f_equal.
  apply bool_decide_ext. split; congruence.
Qed.

(** [Move.__eq__] is reflexive and symmetric, and between moves with the
    same number of tiles it holds exactly when the moves are the same, so
    that equal moves of the same length have equal hashes. *)
Theorem Move_eq_same_length (hash : list Tile * bool -> Z) (m1 m2 : Move) :
  MoveClass.__eq__ m1 m1 = true
  /\ MoveClass.__eq__ m1 m2 = MoveClass.__eq__ m2 m1
  /\ (length (tiles_placed m1) = length (tiles_placed m2) ->
      (MoveClass.__eq__ m1 m2 = true <-> m1 = m2)
      /\ (MoveClass.__eq__ m1 m2 = true ->
          MoveClass.__hash__ hash m1 = MoveClass.__hash__ hash m2)).
Proof.
  assert (forall m, MoveClass.__eq__ m m = true) as Hrefl.
  { intros m. unfold MoveClass.__eq__. rewrite !bool_decide_eq_true_2 by done.
    rewrite !andb_true_r. generalize (tiles_placed m). intros ts.
    induction ts as [|t ts IH]; [done|]. simpl.
    by rewrite bool_decide_eq_true_2, IH. }
  split; [apply Hrefl|]. split.
  { unfold MoveClass.__eq__. rewrite zip_forallb_sym. f_equal; [f_equal|];
      apply bool_decide_ext; split; congruence. }
  intros Hlen.
  assert (MoveClass.__eq__ m1 m2 = true -> m1 = m2) as Heq.
  { unfold MoveClass.__eq__. rewrite !andb_true_iff.
    intros [[Htiles Hscore] Hpass].
    apply bool_decide_eq_true in Hscore, Hpass.
    apply zip_forallb_eq in Htiles; [|done].
    destruct m1, m2. simpl in *. congruence. }
  split.
  - split; [exact Heq|]. intros ->. apply Hrefl.
  - intros H. by rewrite (Heq H).
Qed.

(** ** Drawing tiles *)

Lemma draw_loop_perm (rng : nat -> nat) :
  forall (n i : nat) (pool drawn : list string),
    n <= length pool ->
    (draw_loop rng i n pool drawn).1 ++ (draw_loop rng i n pool drawn).2
    ≡ₚ drawn ++ pool.
Proof.
  induction n as [|n IH]; intros i pool drawn Hn; simpl; [done|].
  set (tile := nth (rng i mod length pool) pool EmptyString).
  assert (tile ∈ pool) as Hin.
  { apply list_elem_of_In, nth_In, Nat.mod_upper_bound. lia. }
  rewrite IH.
  - rewrite <- app_assoc. simpl. apply Permutation_app_head.
    symmetry. by apply remove_first_perm.
  - pose proof (remove_first_length tile pool Hin). lia.
Qed.

(** [_draw_tiles] conserves tiles: it draws [min(count, len(pool))] tiles,
    and the tiles drawn together with the tiles left are the pool it
    started from, whatever the random choices. *)
Theorem _draw_tiles_conserves (rng : nat -> nat) (pool : list string)
    (count : nat) :
  length (_draw_tiles rng pool count).1 = Nat.min count (length pool)
  /\ (_draw_tiles rng pool count).1 ++ (_draw_tiles rng pool count).2 ≡ₚ pool.
Proof.
  split.
  - by destruct (_draw_tiles_spec (fun _ => True) rng pool count
                   (Forall_true _ _ (fun _ => I))) as (? & _).
  - unfold _draw_tiles. rewrite draw_loop_perm by lia. done.
Qed.

(** ** The length of a game *)

Lemma new_game_plies_left (shuffled : list string) :
  shuffled ≡ₚ unshuffled_pool ->
  plies_left (create_new_game shuffled) = 260.
Proof.
  intros Hperm.
  assert (length shuffled = 100) as Hlen.
  { rewrite Hperm. apply unshuffled_pool_facts. }
  destruct (create_new_game_dealt shuffled Hlen)
    as (_ & _ & Hpool & _ & _ & Hpasses).
  unfold plies_left. rewrite Hpool, Hpasses, length_take, Hlen. reflexivity.
Qed.

(** [plies_left] is 260 in every new game and every legal move applied
    lowers it, whoever's legal move it is and whatever is drawn: a
    placement takes at least one tile out of the pool, a pass counts
    towards the two that end the game.  So [n] plies of legal play lower
    it by [n] at least, and no game lasts more than 260 plies. *)
Theorem every_move_makes_progress (DICTIONARY : gset string)
    (shuffled : list string) :
  shuffled ≡ₚ unshuffled_pool ->
  plies_left (create_new_game shuffled) = 260
  /\ (forall (rng : nat -> nat) (s s' : ScrabbleState) (player_id : Z)
             (moves : list Move) (m : Move),
        get_legal_moves DICTIONARY s player_id = Some moves ->
        m ∈ moves ->
        apply_move rng s m = Some s' ->
        plies_left s' < plies_left s)
  /\ (forall (s s' : ScrabbleState) (n : nat),
        plays DICTIONARY s n s' -> n + plies_left s' <= plies_left s)
  /\ (forall (s' : ScrabbleState) (n : nat),
        plays DICTIONARY (create_new_game shuffled) n s' -> n <= 260).
Proof.
  intros Hperm. pose proof (new_game_plies_left shuffled Hperm) as Hnew.
  split; [exact Hnew|]. split.
  { intros rng s s' player_id moves m.
    apply move_decreases_plies_left. }
  split.
  { intros s s' n. apply plays_plies_left. }
  intros s' n Hplays. apply plays_plies_left in Hplays. lia.
Qed.

Lemma every_move_makes_progress_witness :
  plies_left game_AAT = 260
  /\ plies_left after_AT < plies_left game_AAT
  /\ 1 + plies_left after_AT <= plies_left game_AAT
  /\ 1 <= 260.
Proof.
  destruct (every_move_makes_progress {["AT"]} shuffled_AAT
              shuffled_AAT_is_a_shuffle) as (Hnew & Hstep & Hrun & Hlen).
  assert (get_legal_moves {["AT"]} game_AAT (current_player game_AAT)
          = Some (default [] (get_legal_moves {["AT"]} game_AAT 1))) as Hmoves.
  { vm_compute. reflexivity. }
  assert (move_AT ∈ default [] (get_legal_moves {["AT"]} game_AAT 1)) as Hm.
  { apply (bool_decide_unpack _). vm_compute. exact I. }
  assert (apply_move (fun _ => 0) game_AAT move_AT = Some after_AT) as Happ.
  { vm_compute. reflexivity. }
  assert (plays {["AT"]} game_AAT 1 after_AT) as Hplays.
  { eapply plays_ply; [exact Hmoves|exact Hm|exact Happ|apply plays_none]. }
  split; [exact Hnew|]. split.
  { exact (Hstep _ _ _ _ _ _ Hmoves Hm Happ). }
  split; [exact (Hrun _ _ _ Hplays)|exact (Hlen _ _ Hplays)].
Defined.

(** ** When [apply_move] raises *)

Lemma write_tiles_out_of_range (b : Board) (tiles : list Tile) :
  wf_board b ->
  Exists (fun t => BOARD_SIZE <= tile_row t \/ BOARD_SIZE <= tile_col t) tiles ->
  write_tiles b tiles = None.
Proof.
  revert b. induction tiles as [|t ts IH]; intros b Hwf Hex.
  - by apply Exists_nil in Hex.
  - simpl. destruct (b !! tile_row t) as [row|] eqn:Hrow; [|done]. simpl.
    case_bool_decide as Hcol; [|done].
    apply IH; [by apply wf_set_cell|].
    apply Exists_cons in Hex as [[Hr|Hc]|Hex]; [| |done].
    + apply lookup_lt_Some in Hrow. destruct Hwf as [Hlen _]. lia.
    + destruct Hwf as [_ Hrows]. rewrite Forall_forall in Hrows.
      rewrite (Hrows row) in Hcol; [lia|]. by eapply list_elem_of_lookup_2.
Qed.

Lemma apply_move_none_iff (rng : nat -> nat) (s : ScrabbleState)
    (move : Move) :
  wf_board (board s) ->
  apply_move rng s move = None <->
  is_pass move = false
  /\ (Exists (fun t => BOARD_SIZE <= tile_row t \/ BOARD_SIZE <= tile_col t)
             (tiles_placed move)
      \/ scores s !! current_player s = None
      \/ racks s !! current_player s = None).
Proof.
  intros Hwf. unfold apply_move. destruct (is_pass move); simpl.
  { split; [done|]. by intros [? _]. }
  destruct (decide (Exists (fun t => BOARD_SIZE <= tile_row t
                                     \/ BOARD_SIZE <= tile_col t)
                           (tiles_placed move))) as [Hex|Hall].
  { rewrite write_tiles_out_of_range by done. simpl. split; auto. }
  rewrite write_tiles_in_range; [|done|].
  2:{ apply Forall_forall. intros t Ht.
      destruct (decide (tile_row t < BOARD_SIZE /\ tile_col t < BOARD_SIZE))
        as [?|Hout]; [done|].
      exfalso. apply Hall. apply Exists_exists. exists t. split; [done|]. lia. }
  simpl. destruct (scores s !! current_player s) as [old_score|]; simpl.
  2:{ split; auto. }
  destruct (racks s !! current_player s) as [rack|]; simpl.
  2:{ split; auto. }
  destruct (_draw_tiles _ _ _). split; [done|].
  intros [_ [?|[?|?]]]; done.
Qed.

(** *** Any integer coordinates *)

Lemma index_in_range (len : nat) (i : Z) :
  (- Z.of_nat len <= i < Z.of_nat len)%Z ->
  Signed.index len i = Some (Z.to_nat (i `mod` Z.of_nat len))
  /\ Z.to_nat (i `mod` Z.of_nat len) < len.
Proof.
  intros Hi. unfold Signed.index.
  assert (0 < Z.of_nat len)%Z as Hlen by lia.
  pose proof (Z.mod_pos_bound i (Z.of_nat len) Hlen) as Hm.
  split; [|lia].
  case_bool_decide as H0.
  - by rewrite Z.mod_small.
  - rewrite bool_decide_eq_true_2 by lia. f_equal. f_equal.
    apply (Z.mod_unique_pos i (Z.of_nat len) (-1)); lia.
Qed.

Lemma index_out_of_range (len : nat) (i : Z) :
  ~ (- Z.of_nat len <= i < Z.of_nat len)%Z -> Signed.index len i = None.
Proof.
  intros Hi. unfold Signed.index.
  rewrite !bool_decide_eq_false_2 by lia. done.
Qed.

Lemma index_of_nat (len n : nat) :
  Signed.index len (Z.of_nat n) = if bool_decide (n < len) then Some n else None.
Proof.
  unfold Signed.index. case_bool_decide as Hn.
  - rewrite bool_decide_eq_true_2 by lia. by rewrite Nat2Z.id.
  - rewrite bool_decide_eq_false_2 by lia.
    by rewrite bool_decide_eq_false_2 by lia.
Qed.

(** On coordinates that are natural numbers the loop with Python's index
    rule is [write_tiles], on every board. *)
Lemma signed_write_tiles (tiles : list Tile) :
  forall b : Board,
    Signed.write_tiles b
      (map (fun t : Tile =>
              (Z.of_nat (tile_row t), Z.of_nat (tile_col t), tile_letter t))
           tiles)
    = write_tiles b tiles.
Proof.
  induction tiles as [|[[r c] letter] ts IH]; intros b; [done|].
  cbn [map Signed.write_tiles write_tiles tile_row tile_col tile_letter fst snd].
  rewrite index_of_nat. case_bool_decide as Hr.
  - simpl. destruct (b !! r) as [line|] eqn:Hline; simpl.
    + rewrite index_of_nat. case_bool_decide as Hc; simpl; [apply IH|done].
    + apply lookup_ge_None in Hline. lia.
  - simpl. rewrite (proj2 (lookup_ge_None b r)) by lia. done.
Qed.

Lemma wrapped_write_tiles (tiles : list Signed.Tile) :
  forall b : Board,
    wf_board b ->
    Forall (fun t : Signed.Tile =>
              in_index_range t.1.1 /\ in_index_range t.1.2) tiles ->
    Signed.write_tiles b tiles
    = write_tiles b (map (fun t : Signed.Tile => (wrap t.1.1, wrap t.1.2, t.2))
                         tiles).
Proof.
  induction tiles as [|[[row col] letter] ts IH]; intros b Hwf Hall; [done|].
  apply Forall_cons in Hall as [[Hr Hc] Hall]. simpl in Hr, Hc.
  cbn [map Signed.write_tiles write_tiles tile_row tile_col tile_letter fst snd].
  destruct Hwf as [Hlen Hrows]. rewrite Hlen.
  destruct (index_in_range BOARD_SIZE row Hr) as [-> Hr'].
  fold (wrap row). simpl.
  destruct (wf_board_row b (wrap row) (conj Hlen Hrows) Hr')
    as (line & -> & Hline).
  simpl. rewrite Hline.
  destruct (index_in_range BOARD_SIZE col Hc) as [-> Hc'].
  fold (wrap col). simpl. rewrite bool_decide_eq_true_2 by done.
  apply IH; [|done]. apply wf_set_cell. by split.
Qed.

Lemma signed_write_tiles_out_of_range (tiles : list Signed.Tile) :
  forall b : Board,
    wf_board b ->
    Exists (fun t : Signed.Tile =>
              ~ in_index_range t.1.1 \/ ~ in_index_range t.1.2) tiles ->
    Signed.write_tiles b tiles = None.
Proof.
  induction tiles as [|[[row col] letter] ts IH]; intros b Hwf Hex.
  { by apply Exists_nil in Hex. }
  cbn [Signed.write_tiles].
  destruct (decide (in_index_range row)) as [Hr|Hr].
  2:{ destruct Hwf as [-> _]. by rewrite index_out_of_range. }
  pose proof Hwf as [Hlen Hrows]. rewrite Hlen.
  destruct (index_in_range BOARD_SIZE row Hr) as [-> Hr']. simpl.
  destruct (wf_board_row b _ Hwf Hr') as (line & -> & Hline). simpl.
  rewrite Hline.
  destruct (decide (in_index_range col)) as [Hc|Hc].
  2:{ by rewrite index_out_of_range. }
  destruct (index_in_range BOARD_SIZE col Hc) as [-> Hc']. simpl.
  apply IH; [by apply wf_set_cell|].
  apply Exists_cons in Hex as [[?|?]|?]; done.
Qed.

Lemma signed_apply_move (rng : nat -> nat) (s : ScrabbleState) (m : Move) :
  Signed.apply_move rng s (signed m) = apply_move rng s m.
Proof.
  unfold Signed.apply_move, apply_move, signed. simpl.
  rewrite signed_write_tiles, map_map, length_map. done.
Qed.

Lemma wrapped_apply_move (rng : nat -> nat) (s : ScrabbleState)
    (move : Signed.Move) :
  wf_board (board s) ->
  Signed.is_pass move = true
  \/ Forall (fun t : Signed.Tile =>
               in_index_range t.1.1 /\ in_index_range t.1.2)
            (Signed.tiles_placed move) ->
  Signed.apply_move rng s move = apply_move rng s (wrapped move).
Proof.
  intros Hwf Hin. unfold Signed.apply_move, apply_move, wrapped. simpl.
  destruct (Signed.is_pass move); [done|]. simpl.
  destruct Hin as [?|Hin]; [done|].
  rewrite wrapped_write_tiles, map_map, length_map by done. done.
Qed.

Lemma signed_apply_move_none_iff (rng : nat -> nat) (s : ScrabbleState)
    (move : Signed.Move) :
  wf_board (board s) ->
  Signed.apply_move rng s move = None <->
  Signed.is_pass move = false
  /\ (Exists (fun t : Signed.Tile =>
                ~ in_index_range t.1.1 \/ ~ in_index_range t.1.2)
             (Signed.tiles_placed move)
      \/ scores s !! current_player s = None
      \/ racks s !! current_player s = None).
Proof.
  intros Hwf. unfold Signed.apply_move. destruct (Signed.is_pass move); simpl.
  { split; [done|]. by intros [? _]. }
  destruct (decide (Exists (fun t : Signed.Tile =>
                              ~ in_index_range t.1.1 \/ ~ in_index_range t.1.2)
                           (Signed.tiles_placed move))) as [Hex|Hall].
  { rewrite signed_write_tiles_out_of_range by done. simpl. split; auto. }
  assert (Forall (fun t : Signed.Tile =>
                    in_index_range t.1.1 /\ in_index_range t.1.2)
                 (Signed.tiles_placed move)) as Hin.
  { apply Forall_forall. intros t Ht.
    destruct (decide (in_index_range t.1.1 /\ in_index_range t.1.2))
      as [?|Hout]; [done|].
    exfalso. apply Hall. apply Exists_exists. exists t. split; [done|].
    destruct (decide (in_index_range t.1.1)); [right|left]; tauto. }
  rewrite wrapped_write_tiles by done.
  rewrite write_tiles_in_range; [|done|].
  2:{ apply Forall_forall. intros t Ht. apply list_elem_of_fmap in Ht
        as (t' & -> & Ht'). rewrite Forall_forall in Hin.
      destruct (Hin t' Ht') as [Hr Hc]. unfold tile_row, tile_col. simpl.
      split; [apply (index_in_range BOARD_SIZE _ Hr)
             |apply (index_in_range BOARD_SIZE _ Hc)]. }
  simpl. destruct (scores s !! current_player s) as [old_score|]; simpl.
  2:{ split; auto. }
  destruct (racks s !! current_player s) as [rack|]; simpl.
  2:{ split; auto. }
  destruct (_draw_tiles _ _ _). split; [done|].
  intros [_ [?|[?|?]]]; done.
Qed.

(** A Pass never raises.  On a 15 x 15 board a placement raises in three
    cases only: a tile has a row or a column that is no index of a list of
    15 items, that is, outside -15 .. 14; or the player to move has no
    score entry; or no rack.  An index in -15 .. -1 does not raise: the
    tile is written to the row or column counted from the end.  On the
    coordinates of the generator, which are not negative, the transition
    is [apply_move], and the first case is a row or column of 15 or
    more. *)
Theorem apply_move_raises_iff (rng : nat -> nat) (s : ScrabbleState) :
  wf_board (board s) ->
  (forall move : Signed.Move,
     Signed.apply_move rng s move = None <->
     Signed.is_pass move = false
     /\ (Exists (fun t : Signed.Tile =>
                   ~ (-15 <= t.1.1 < 15)%Z \/ ~ (-15 <= t.1.2 < 15)%Z)
                (Signed.tiles_placed move)
         \/ scores s !! current_player s = None
         \/ racks s !! current_player s = None))
  /\ (forall move : Signed.Move,
        Signed.is_pass move = true
        \/ Forall (fun t : Signed.Tile =>
                     (-15 <= t.1.1 < 15)%Z /\ (-15 <= t.1.2 < 15)%Z)
                  (Signed.tiles_placed move) ->
        Signed.apply_move rng s move = apply_move rng s (wrapped move))
  /\ (forall m : Move,
        Signed.apply_move rng s (signed m) = apply_move rng s m)
  /\ (forall m : Move,
        apply_move rng s m = None <->
        is_pass m = false
        /\ (Exists (fun t => BOARD_SIZE <= tile_row t \/ BOARD_SIZE <= tile_col t)
                   (tiles_placed m)
            \/ scores s !! current_player s = None
            \/ racks s !! current_player s = None)).
Proof.
  intros Hwf. split; [|split; [|split]].
  - intros move. exact (signed_apply_move_none_iff rng s move Hwf).
  - intros move. exact (wrapped_apply_move rng s move Hwf).
  - intros m. apply signed_apply_move.
  - intros m. exact (apply_move_none_iff rng s m Hwf).
Qed.

Lemma apply_move_raises_iff_witness :
  Signed.apply_move (fun _ => 0) game_AAT
    (Signed.mkMove [(7, 15, "A")]%Z 1 false) = None
  /\ Signed.apply_move (fun _ => 0) game_AAT
       (Signed.mkMove [(-16, 7, "A")]%Z 1 false) = None
  /\ Signed.apply_move (fun _ => 0) game_AAT
       (Signed.mkMove [(-8, -9, "A"); (7, -8, "T")]%Z 4 false)
     = apply_move (fun _ => 0) game_AAT move_AT
  /\ apply_move (fun _ => 0) game_AAT move_AT = Some after_AT
  /\ apply_move (fun _ => 0) game_AAT (mkMove [(7, 15, "A")] 1 false) = None.
Proof.
  destruct (apply_move_raises_iff (fun _ => 0) game_AAT wf_empty_board)
    as (Hnone & Hwrap & Hsigned & Hnat).
  split.
  { apply Hnone. split; [reflexivity|]. left. apply Exists_cons_hd.
    simpl. right. lia. }
  split.
  { apply Hnone. split; [reflexivity|]. left. apply Exists_cons_hd.
    simpl. left. lia. }
  split.
  { rewrite Hwrap; [reflexivity|]. right.
    repeat constructor; simpl; lia. }
  split.
  { vm_compute. reflexivity. }
  apply Hnat. split; [reflexivity|]. left. apply Exists_cons_hd.
  right. unfold tile_col, BOARD_SIZE. simpl. lia.
Defined.

(** ** The board after a move *)

(** [apply_move] changes the board at the cells of the move only, and
    when these cells are distinct cells of the grid each of them holds the
    letter the move puts there. *)
Theorem apply_move_writes_its_tiles (rng : nat -> nat) (s s' : ScrabbleState)
    (move : Move) :
  wf_board (board s) ->
  apply_move rng s move = Some s' ->
  (forall r c, (r, c) ∉ tile_pos <$> tiles_placed move ->
               cell (board s') r c = cell (board s) r c)
  /\ (is_pass move = false ->
      NoDup (tile_pos <$> tiles_placed move) ->
      forall t, t ∈ tiles_placed move ->
                cell (board s') (tile_row t) (tile_col t) = tile_letter t).
Proof.
  intros Hwf Happ. destruct (is_pass move) eqn:Hpass.
  - rewrite apply_move_pass in Happ by done. injection Happ as <-. simpl.
    split; [done|]. intros Hfalse. done.
  - pose proof (apply_move_board rng s s' move Hpass Happ) as ->.
    split; [intros r c; apply cell_place_tiles_other|].
    intros _ Hnodup t Ht. apply cell_place_tiles_new; try done.
    apply Forall_forall. intros t' Ht'.
    destruct (decide (tile_row t' < BOARD_SIZE /\ tile_col t' < BOARD_SIZE))
      as [?|Hout]; [done|].
    exfalso.
    assert (apply_move rng s move = None) as Hnone.
    { apply (apply_move_none_iff rng s move Hwf). split; [done|]. left.
      apply Exists_exists. exists t'. split; [done|]. lia. }
    congruence.
Qed.

Lemma apply_move_writes_its_tiles_witness :
  (forall r c, (r, c) ∉ tile_pos <$> tiles_placed move_AT ->
               cell (board after_AT) r c = cell (board game_AAT) r c)
  /\ (is_pass move_AT = false ->
      NoDup (tile_pos <$> tiles_placed move_AT) ->
      forall t, t ∈ tiles_placed move_AT ->
                cell (board after_AT) (tile_row t) (tile_col t)
                = tile_letter t).
Proof.
  apply (apply_move_writes_its_tiles (fun _ => 0) game_AAT after_AT move_AT).
  - exact wf_empty_board.
  - vm_compute. reflexivity.
Defined.

(** ** The word read at a cell *)

(** At a filled cell of the grid [_get_word_at] returns the letters of the
    maximal run of filled cells through that cell along the direction asked
    for: the run contains the cell, every cell of it is filled, and on
    either side it ends at the edge of the board or at an empty cell. *)
Theorem _get_word_at_reads_the_maximal_run (board : Board) (row col : nat)
    (horizontal : bool) :
  row < BOARD_SIZE -> col < BOARD_SIZE ->
  cell board row col <> EmptyString ->
  let ln := line board row col horizontal in
  let here := along row col horizontal in
  exists first last,
    first <= here <= last /\ last < BOARD_SIZE
    /\ _get_word_at board row col horizontal
       = join (map ln (seq first (last + 1 - first)))
    /\ (forall q, first <= q <= last -> ln q <> EmptyString)
    /\ (first = 0 \/ ln (first - 1) = EmptyString)
    /\ (last = BOARD_SIZE - 1 \/ ln (last + 1) = EmptyString).
Proof.
  intros Hrow Hcol Hcell ln here.
  assert (along row col horizontal < BOARD_SIZE) as Hhere
    by (by destruct horizontal).
  apply filled_true in Hcell.
  destruct (run_is_maximal board row col horizontal Hhere Hcell)
    as (Hin & Hend & Hall & Hfirst & Hlast & Hword).
  exists (run_start board row col horizontal),
         (run_end board row col horizontal).
  split; [done|]. split; [done|]. split; [exact Hword|].
  split; [|split].
  - intros q Hq. apply filled_true. by apply Hall.
  - destruct Hfirst as [?|Hf]; [by left|right]. by apply filled_false.
  - destruct Hlast as [?|Hl]; [by left|right]. by apply filled_false.
Qed.

Lemma _get_word_at_reads_the_maximal_run_witness :
  let ln := line board_CAT 7 7 true in
  let here := along 7 7 true in
  exists first last,
    first <= here <= last /\ last < BOARD_SIZE
    /\ _get_word_at board_CAT 7 7 true
       = join (map ln (seq first (last + 1 - first)))
    /\ (forall q, first <= q <= last -> ln q <> EmptyString)
    /\ (first = 0 \/ ln (first - 1) = EmptyString)
    /\ (last = BOARD_SIZE - 1 \/ ln (last + 1) = EmptyString).
Proof.
  apply (_get_word_at_reads_the_maximal_run board_CAT 7 7 true).
  - unfold BOARD_SIZE. lia.
  - unfold BOARD_SIZE. lia.
  - vm_compute. discriminate.
Defined.

(** ** [apply_move] on the store against [apply_move] on values *)

Lemma owns_at_represents h l s b tp rk sc rows rd :
  owns_at h l s b tp rk sc rows rd -> Store.represents h l s.
Proof.
  intros (Hl & Hb & Hrows & Htp & Hrk & Hracks & Hall & Hsc & _).
  exists b, tp, rk, sc, rows, rd.
  split; [done|]. split; [by apply get_rows_inv|]. split.
  { eapply Forall2_impl; [exact Hrows|]. intros r xs Hr. by apply get_strs_inv. }
  split; [by apply get_strs_inv|]. split; [by apply get_racks_inv|].
  split; [done|]. split; [|by apply get_scores_inv].
  intros p r Hr. destruct (Hall p r Hr) as [xs Hxs]. exists xs.
  by apply get_strs_inv.
Qed.

Lemma rack_contents_insert_other (h : Store.Heap) (rd : gmap Z Store.loc)
    (l : Store.loc) (o : Store.Obj) (p : Z) :
  (forall r, rd !! p = Some r -> r <> l) ->
  rack_contents (<[l := o]> h) rd p = rack_contents h rd p.
Proof.
  intros Hne. unfold rack_contents. destruct (rd !! p) as [r|]; [|done].
  simpl. unfold Store.get_strs. rewrite lookup_insert_ne; [done|].
  intros ->. by eapply Hne.
Qed.

(** Writing one cell of a row. *)
Lemma owns_at_write_cell h l s b tp rk sc rows rd (i c : nat) (x : string)
    (r : Store.loc) (xs : list string) :
  owns_at h l s b tp rk sc rows rd ->
  rows !! i = Some r ->
  board s !! i = Some xs ->
  owns_at (<[r := Store.StrList (<[c := x]> xs)]> h) l
    {| board := <[i := <[c := x]> xs]> (board s);
       tile_pool := tile_pool s; racks := racks s;
       current_player := current_player s; scores := scores s;
       passes_in_a_row := passes_in_a_row s |}
    b tp rk sc rows rd.
Proof.
  intros (Hl & Hb & Hrows & Htp & Hrk & Hracks & Hall & Hsc & Hnodup & Htpr
          & Hsep) Hr Hxs.
  assert (h !! r = Some (Store.StrList xs)) as Hhr.
  { by eapply Forall2_lookup_lr in Hrows. }
  assert (r ∈ rows) as Hin by (by eapply list_elem_of_lookup_2).
  unfold owns_at. simpl.
  split; [rewrite lookup_insert_ne; [done|]; intros ->; congruence|].
  split; [rewrite lookup_insert_ne; [done|]; intros ->; congruence|].
  split.
  { apply Forall2_same_length_lookup. split.
    - rewrite length_insert. by eapply Forall2_length.
    - intros j r' ys Hr' Hys. destruct (decide (j = i)) as [->|Hne].
      + rewrite list_lookup_insert_eq in Hys
          by (by eapply lookup_lt_Some).
        injection Hys as <-. assert (r' = r) as -> by congruence.
        apply lookup_insert_eq.
      + rewrite list_lookup_insert_ne in Hys by done.
        rewrite lookup_insert_ne.
        * by eapply Forall2_lookup_lr in Hrows.
        * intros <-. apply Hne. by eapply NoDup_lookup. }
  split; [rewrite lookup_insert_ne; [done|]; by intros ->|].
  split; [rewrite lookup_insert_ne; [done|]; intros ->; congruence|].
  split.
  { intros p. rewrite Hracks. symmetry. apply rack_contents_insert_other.
    intros r' Hr' ->. by destruct (Hsep p r Hr'). }
  split.
  { intros p r' Hr'. destruct (Hall p r' Hr') as [ys Hys]. exists ys.
    rewrite lookup_insert_ne; [done|]. intros <-. by destruct (Hsep p r Hr'). }
  split; [rewrite lookup_insert_ne; [done|]; intros ->; congruence|].
  done.
Qed.

(** The tile loop: the two versions fail together, and otherwise write
    the same cells. *)
Lemma write_tiles_agree (l b tp rk sc : Store.loc) (rows : list Store.loc)
    (rd : gmap Z Store.loc) (tiles : list Tile) :
  forall (h : Store.Heap) (s : ScrabbleState),
    owns_at h l s b tp rk sc rows rd ->
    match write_tiles (board s) tiles with
    | Some next_board =>
        exists h',
          Store.write_tiles h l tiles = Some h'
          /\ owns_at h' l
               {| board := next_board;
                  tile_pool := tile_pool s; racks := racks s;
                  current_player := current_player s; scores := scores s;
                  passes_in_a_row := passes_in_a_row s |}
               b tp rk sc rows rd
    | None => Store.write_tiles h l tiles = None
    end.
Proof.
  induction tiles as [|t ts IH]; intros h s Howns; simpl.
  - exists h. split; [done|]. by destruct s.
  - pose proof Howns as (Hl & Hb & Hrows & _).
    rewrite (proj2 (get_state_inv _ _ _ _ _ _ _ _) Hl). simpl.
    rewrite (proj2 (get_rows_inv _ _ _) Hb). simpl.
    destruct (board s !! tile_row t) as [xs|] eqn:Hxs; simpl.
    + destruct (Forall2_lookup_r _ _ _ _ _ Hrows Hxs) as (r & Hr & Hhr).
      rewrite Hr. simpl.
      rewrite (proj2 (get_strs_inv _ _ _) Hhr). simpl.
      case_bool_decide as Hcol; [|done].
      pose proof (owns_at_write_cell _ _ _ _ _ _ _ _ _ _ (tile_col t)
                    (tile_letter t) _ _ Howns Hr Hxs) as Howns'.
      rewrite (set_cell_lookup _ _ _ _ _ Hxs).
      exact (IH _ _ Howns').
    + destruct (rows !! tile_row t) as [r|] eqn:Hr; [|done].
      destruct (Forall2_lookup_l _ _ _ _ _ Hrows Hr) as (xs & Hxs' & _).
      congruence.
Qed.

(** Replacing the score dictionary's contents. *)
Lemma owns_at_set_scores h l s b tp rk sc rows rd (d : gmap Z Z) :
  owns_at h l s b tp rk sc rows rd ->
  owns_at (<[sc := Store.ScoreDict d]> h) l
    {| board := board s; tile_pool := tile_pool s; racks := racks s;
       current_player := current_player s; scores := d;
       passes_in_a_row := passes_in_a_row s |}
    b tp rk sc rows rd.
Proof.
  intros (Hl & Hb & Hrows & Htp & Hrk & Hracks & Hall & Hsc & Hnodup & Htpr
          & Hsep).
  unfold owns_at. simpl.
  split; [rewrite lookup_insert_ne; [done|]; intros ->; congruence|].
  split; [rewrite lookup_insert_ne; [done|]; intros ->; congruence|].
  split.
  { eapply Forall2_impl; [exact Hrows|]. intros r xs Hr.
    rewrite lookup_insert_ne; [done|]. intros ->. congruence. }
  split; [rewrite lookup_insert_ne; [done|]; intros ->; congruence|].
  split; [rewrite lookup_insert_ne; [done|]; intros ->; congruence|].
  split.
  { intros p. rewrite Hracks. symmetry. apply rack_contents_insert_other.
    intros r' Hr' ->. destruct (Hall p sc Hr') as [ys Hys]. congruence. }
  split.
  { intros p r' Hr'. destruct (Hall p r' Hr') as [ys Hys]. exists ys.
    rewrite lookup_insert_ne; [done|]. intros <-. congruence. }
  split; [apply lookup_insert_eq|]. done.
Qed.

(** Replacing the pool's contents. *)
Lemma owns_at_set_pool h l s b tp rk sc rows rd (pool : list string) :
  owns_at h l s b tp rk sc rows rd ->
  owns_at (<[tp := Store.StrList pool]> h) l
    {| board := board s; tile_pool := pool; racks := racks s;
       current_player := current_player s; scores := scores s;
       passes_in_a_row := passes_in_a_row s |}
    b tp rk sc rows rd.
Proof.
  intros (Hl & Hb & Hrows & Htp & Hrk & Hracks & Hall & Hsc & Hnodup & Htpr
          & Hsep).
  unfold owns_at. simpl.
  split; [rewrite lookup_insert_ne; [done|]; intros ->; congruence|].
  split; [rewrite lookup_insert_ne; [done|]; intros ->; congruence|].
  split.
  { apply Forall2_same_length_lookup. split; [by eapply Forall2_length|].
    intros j r ys Hr Hys. rewrite lookup_insert_ne.
    - by eapply Forall2_lookup_lr in Hrows.
    - intros ->. apply Htpr. by eapply list_elem_of_lookup_2. }
  split; [apply lookup_insert_eq|].
  split; [rewrite lookup_insert_ne; [done|]; intros ->; congruence|].
  split.
  { intros p. rewrite Hracks. symmetry. apply rack_contents_insert_other.
    intros r' Hr' ->. by destruct (Hsep p tp Hr'). }
  split.
  { intros p r' Hr'. destruct (Hall p r' Hr') as [ys Hys]. exists ys.
    rewrite lookup_insert_ne; [done|]. intros <-. by destruct (Hsep p tp Hr'). }
  split; [rewrite lookup_insert_ne; [done|]; intros ->; congruence|].
  done.
Qed.

(** Storing a new list under one player's key of the rack dictionary. *)
Lemma owns_at_set_rack h l s b tp rk sc rows rd (p : Z) (new : Store.loc)
    (xs : list string) :
  owns_at h l s b tp rk sc rows rd ->
  h !! new = None ->
  owns_at
    (<[rk := Store.RackDict (<[p := new]> rd)]>
       (<[new := Store.StrList xs]> h)) l
    {| board := board s; tile_pool := tile_pool s;
       racks := <[p := xs]> (racks s);
       current_player := current_player s; scores := scores s;
       passes_in_a_row := passes_in_a_row s |}
    b tp rk sc rows (<[p := new]> rd).
Proof.
  intros (Hl & Hb & Hrows & Htp & Hrk & Hracks & Hall & Hsc & Hnodup & Htpr
          & Hsep) Hnew.
  assert (forall l' o, h !! l' = Some o -> l' <> rk ->
            <[rk := Store.RackDict (<[p := new]> rd)]>
              (<[new := Store.StrList xs]> h) !! l' = Some o) as Hkeep.
  { intros l' o Hl' Hne. rewrite lookup_insert_ne by done.
    rewrite lookup_insert_ne; [done|]. intros <-. congruence. }
  assert (new <> rk) as Hnk by (intros ->; congruence).
  unfold owns_at. simpl.
  split; [apply Hkeep; [done|]; intros ->; congruence|].
  split; [apply Hkeep; [done|]; intros ->; congruence|].
  split.
  { eapply Forall2_impl; [exact Hrows|]. intros r ys Hr.
    apply Hkeep; [done|]. intros ->. congruence. }
  split; [apply Hkeep; [done|]; intros ->; congruence|].
  split; [apply lookup_insert_eq|].
  split.
  { intros q. unfold rack_contents. destruct (decide (q = p)) as [->|Hne].
    - rewrite !lookup_insert_eq. simpl. unfold Store.get_strs.
      rewrite lookup_insert_ne by done. by rewrite lookup_insert_eq.
    - rewrite !lookup_insert_ne by done. rewrite Hracks.
      unfold rack_contents. destruct (rd !! q) as [r|] eqn:Hr; [|done].
      simpl. destruct (Hall q r Hr) as [ys Hys].
      unfold Store.get_strs. rewrite Hys.
      rewrite (Hkeep r _ Hys); [done|]. intros ->. congruence. }
  split.
  { apply map_Forall_insert_2.
    - exists xs. rewrite lookup_insert_ne by done. apply lookup_insert_eq.
    - intros q r Hr. destruct (Hall q r Hr) as [ys Hys]. exists ys.
      apply Hkeep; [done|]. intros ->. congruence. }
  split; [apply Hkeep; [done|]; intros ->; congruence|].
  split; [done|]. split; [done|].
  apply map_Forall_insert_2; [|done]. split.
  - intros Hin. apply list_elem_of_lookup_1 in Hin as [j Hj].
    destruct (Forall2_lookup_l _ _ _ _ _ Hrows Hj) as (ys & _ & Hys).
    congruence.
  - intros ->. congruence.
Qed.

(** Rewriting the turn and the pass counter of the state object. *)
Lemma owns_at_set_turn h l s b tp rk sc rows rd (cp : Z) (pa : nat) :
  owns_at h l s b tp rk sc rows rd ->
  owns_at (<[l := Store.StateObj b tp rk cp sc pa]> h) l
    {| board := board s; tile_pool := tile_pool s; racks := racks s;
       current_player := cp; scores := scores s; passes_in_a_row := pa |}
    b tp rk sc rows rd.
Proof.
  intros (Hl & Hb & Hrows & Htp & Hrk & Hracks & Hall & Hsc & Hnodup & Htpr
          & Hsep).
  unfold owns_at. simpl.
  split; [apply lookup_insert_eq|].
  split; [rewrite lookup_insert_ne; [done|]; intros ->; congruence|].
  split.
  { eapply Forall2_impl; [exact Hrows|]. intros r xs Hr.
    rewrite lookup_insert_ne; [done|]. intros ->. congruence. }
  split; [rewrite lookup_insert_ne; [done|]; intros ->; congruence|].
  split; [rewrite lookup_insert_ne; [done|]; intros ->; congruence|].
  split.
  { intros p. rewrite Hracks. symmetry. apply rack_contents_insert_other.
    intros r' Hr' ->. destruct (Hall p l Hr') as [ys Hys]. congruence. }
  split.
  { intros p r' Hr'. destruct (Hall p r' Hr') as [ys Hys]. exists ys.
    rewrite lookup_insert_ne; [done|]. intros <-. congruence. }
  split; [rewrite lookup_insert_ne; [done|]; intros ->; congruence|].
  done.
Qed.

Lemma copy_rows_owned :
  forall (rows : list Store.loc) (h h1 : Store.Heap) rows',
    Store.copy_rows h rows = Some (h1, rows') ->
    NoDup rows'
    /\ Forall (fun r => h !! r = None /\ is_Some (h1 !! r)) rows'.
Proof.
  induction rows as [|r rs IH]; intros h h1 rows' Hcopy; simpl in Hcopy.
  - injection Hcopy as <- <-. split; constructor.
  - destruct (Store.get_strs h r) as [xs|]; [|done]. simpl in Hcopy.
    destruct (Store.alloc h (Store.StrList xs)) as [h' r'] eqn:Ha.
    simpl in Hcopy.
    apply alloc_spec in Ha as (Hfresh & _ & Hsub & Hr').
    destruct (Store.copy_rows h' rs) as [[h2 rs']|] eqn:Hrs; [|done].
    simpl in Hcopy. injection Hcopy as <- <-.
    pose proof (copy_rows_frame _ _ _ _ Hrs) as [Hsub2 _].
    apply IH in Hrs as [Hnodup Hnew]. rewrite Forall_forall in Hnew. split.
    + constructor; [|done]. intros Hin. destruct (Hnew r' Hin) as [Hnone _].
      congruence.
    + constructor.
      * split; [done|]. exists (Store.StrList xs). by eapply lookup_weaken.
      * apply Forall_forall. intros l Hl. destruct (Hnew l Hl) as [Hnone Hsome].
        split; [|done]. exact (lookup_weaken_None _ _ _ Hnone Hsub).
Qed.

Lemma copy_racks_owned (h0 : Store.Heap) :
  forall (items : list (Z * Store.loc)) (h h1 : Store.Heap) acc acc',
    h0 ⊆ h ->
    map_Forall (fun _ r => h0 !! r = None) acc ->
    Store.copy_racks h items acc = Some (h1, acc') ->
    map_Forall (fun _ r => h0 !! r = None) acc'.
Proof.
  induction items as [|[p r] rest IH]; intros h h1 acc acc' Hsub Hacc Hcopy;
    simpl in Hcopy.
  - by injection Hcopy as <- <-.
  - destruct (Store.get_strs h r) as [xs|]; [|done]. simpl in Hcopy.
    destruct (Store.alloc h (Store.StrList xs)) as [h' r'] eqn:Ha.
    simpl in Hcopy.
    apply alloc_spec in Ha as (Hfresh & _ & Hsub' & _).
    eapply IH; [|..|exact Hcopy].
    + by etrans.
    + apply map_Forall_insert_2; [|done].
      exact (lookup_weaken_None _ _ _ Hfresh Hsub).
Qed.

(** The store version of [apply_move] and the value version agree: they
    raise together, and otherwise the object returned stands for the state
    returned. *)
Lemma apply_move_store_agrees (rng : nat -> nat) (h : Store.Heap)
    (self : Store.loc) (s : ScrabbleState) (move : Move) :
  Store.represents h self s ->
  match apply_move rng s move with
  | Some s' =>
      exists h' l',
        Store.apply_move rng h self move = Some (h', l')
        /\ Store.represents h' l' s'
  | None => Store.apply_move rng h self move = None
  end.
Proof.
  intros Hrep. destruct (is_pass move) eqn:Hpass.
  { destruct (apply_move_pass_store rng h self s move Hrep Hpass)
      as (h' & l' & Hstore & _ & _ & Hrep').
    rewrite apply_move_pass by done. by exists h', l'. }
  remember (apply_move rng s move) as pure eqn:Hpure.
  destruct Hrep as (b & tp & rk & sc & rows & rd & Hself & Hb & Hrows & Htp
                    & Hrk & Hracks & Hall & Hsc).
  unfold Store.apply_move.
  apply get_state_inv in Hself as Hst. rewrite Hst. simpl.
  rewrite Hb. simpl.
  destruct (copy_rows_spec h rows h (board s)) as
    (h1 & rows' & Hcopy & Hsub1 & _ & Hrows'); [done|done|].
  rewrite Hcopy. simpl.
  apply copy_rows_owned in Hcopy as [Hnodup Hnew].
  destruct (Store.alloc h1 (Store.RowList rows')) as [h2 b'] eqn:Ha2.
  apply alloc_spec in Ha2 as (Hf2 & _ & Hsub2 & Hb').
  assert (h ⊆ h2) as Hh2 by (by etrans).
  rewrite (get_strs_weaken h h2 tp _ Hh2 Htp). simpl.
  destruct (Store.alloc h2 (Store.StrList (tile_pool s))) as [h3 tp'] eqn:Ha3.
  apply alloc_spec in Ha3 as (Hf3 & _ & Hsub3 & Htp').
  assert (h ⊆ h3) as Hh3 by (by etrans).
  rewrite (get_racks_weaken h h3 rk _ Hh3 Hrk). simpl.
  destruct (copy_racks_spec (map_to_list rd) h3 ∅)
    as (h4 & rd' & Hcr & Hsub4 & Hall' & Hrd').
  { apply NoDup_fst_map_to_list. }
  { apply Forall_forall. intros [p r] Hpr. apply elem_of_map_to_list in Hpr.
    destruct (Hall p r Hpr) as [xs Hxs]. exists xs. simpl.
    by eapply get_strs_weaken. }
  { apply map_Forall_empty. }
  rewrite Hcr. simpl.
  apply (copy_racks_owned h3) in Hcr; [|done|apply map_Forall_empty].
  destruct (Store.alloc h4 (Store.RackDict rd')) as [h5 rk'] eqn:Ha5.
  apply alloc_spec in Ha5 as (Hf5 & _ & Hsub5 & Hrk').
  assert (h ⊆ h5) as Hh5.
  { etrans; [exact Hh3|]. by etrans. }
  rewrite (get_scores_weaken h h5 sc _ Hh5 Hsc). simpl.
  destruct (Store.alloc h5 (Store.ScoreDict (scores s))) as [h6 sc'] eqn:Ha6.
  apply alloc_spec in Ha6 as (Hf6 & _ & Hsub6 & Hsc').
  destruct (Store.alloc h6 _) as [h7 next_state] eqn:Ha7.
  apply alloc_spec in Ha7 as (Hf7 & _ & Hsub7 & Hns).
  rewrite Hpass. simpl.
  assert (h2 ⊆ h7) as H27.
  { etrans; [exact Hsub3|]. etrans; [exact Hsub4|]. etrans; [exact Hsub5|].
    by etrans. }
  assert (h4 ⊆ h7) as H47.
  { etrans; [exact Hsub5|]. by etrans. }
  assert (owns_at h7 next_state
            {| board := board s; tile_pool := tile_pool s; racks := racks s;
               current_player := (3 - current_player s)%Z;
               scores := scores s; passes_in_a_row := 0 |}
            b' tp' rk' sc' rows' rd') as Howns.
  { unfold owns_at. simpl.
    split; [done|].
    split; [by eapply lookup_weaken|].
    split.
    { eapply Forall2_impl; [exact Hrows'|]. intros r xs Hr.
      apply get_strs_inv in Hr. eapply lookup_weaken; [exact Hr|].
      by etrans. }
    split; [eapply lookup_weaken; [exact Htp'|]; by etrans|].
    split; [eapply lookup_weaken; [exact Hrk'|]; by etrans|].
    split.
    { intros p. specialize (Hrd' p). rewrite list_to_map_to_list in Hrd'.
      rewrite Hracks. unfold rack_contents in *.
      destruct (rd' !! p) as [r'|] eqn:Hr'; simpl in *.
      - destruct (Hall' p r' Hr') as [xs Hxs].
        rewrite (get_strs_weaken h4 h7 r' xs H47 Hxs).
        rewrite Hxs in Hrd'.
        destruct (rd !! p) as [r|] eqn:Hr; simpl;
          [|by rewrite lookup_empty in Hrd'].
        destruct (Hall p r Hr) as [ys Hys]. rewrite Hys.
        rewrite (get_strs_weaken h h3 r ys Hh3 Hys) in Hrd'. congruence.
      - destruct (rd !! p) as [r|] eqn:Hr; simpl; [|done].
        destruct (Hall p r Hr) as [ys Hys].
        rewrite (get_strs_weaken h h3 r ys Hh3 Hys) in Hrd'. done. }
    split.
    { intros p r' Hr'. destruct (Hall' p r' Hr') as [xs Hxs]. exists xs.
      apply get_strs_inv. by eapply get_strs_weaken. }
    split; [by eapply lookup_weaken|].
    split; [done|].
    rewrite Forall_forall in Hnew.
    split.
    { intros Hin. destruct (Hnew tp' Hin) as [_ [o Ho]].
      apply (lookup_weaken _ h2) in Ho; [|done]. congruence. }
    intros p r' Hr'. specialize (Hcr p r' Hr'). simpl in Hcr. split.
    - intros Hin. destruct (Hnew r' Hin) as [_ [o Ho]].
      apply (lookup_weaken _ h3) in Ho; [congruence|]. by etrans.
    - intros ->. congruence. }
  subst pure. unfold apply_move. rewrite Hpass. simpl.
  pose proof (write_tiles_agree next_state b' tp' rk' sc' rows' rd'
                (tiles_placed move) h7 _ Howns) as Hw.
  simpl in Hw.
  destruct (write_tiles (board s) (tiles_placed move)) as [next_board|];
    simpl; [|by rewrite Hw].
  destruct Hw as (h8 & -> & Howns8). simpl in *.
  pose proof Howns8 as (Hl8 & _ & _ & _ & _ & _ & _ & Hsc8 & _).
  simpl in Hl8, Hsc8.
  rewrite (proj2 (get_state_inv _ _ _ _ _ _ _ _) Hl8). simpl.
  rewrite (proj2 (get_scores_inv _ _ _) Hsc8). simpl.
  destruct (scores s !! current_player s) as [old_score|]; simpl; [|done].
  pose proof (owns_at_set_scores _ _ _ _ _ _ _ _ _
                (<[current_player s := (old_score + score move)%Z]> (scores s))
                Howns8) as Howns9.
  simpl in Howns9.
  pose proof Howns9 as (Hl9 & _ & _ & Htp9 & Hrk9 & Hracks9 & _).
  simpl in Hl9, Htp9, Hracks9.
  rewrite (proj2 (get_state_inv _ _ _ _ _ _ _ _) Hl9). simpl.
  rewrite (proj2 (get_racks_inv _ _ _) Hrk9). simpl.
  specialize (Hracks9 (current_player s)) as Hmine.
  unfold rack_contents in Hmine.
  destruct (rd' !! current_player s) as [rack_loc|]; simpl in Hmine;
    [|by rewrite Hmine].
  simpl. rewrite <- Hmine.
  destruct (racks s !! current_player s) as [rack|]; simpl; [|done].
  unfold Store._draw_tiles.
  rewrite (proj2 (get_state_inv _ _ _ _ _ _ _ _) Hl9). simpl.
  rewrite (proj2 (get_strs_inv _ _ _) Htp9). simpl.
  unfold _draw_tiles.
  destruct (draw_loop rng 0 _ (tile_pool s) []) as [new_tiles next_pool].
  simpl.
  pose proof (owns_at_set_pool _ _ _ _ _ _ _ _ _ next_pool Howns9) as Howns10.
  simpl in Howns10.
  destruct (Store.alloc _ (Store.StrList _)) as [h11 new_rack] eqn:Ha11.
  apply alloc_spec in Ha11 as (Hf11 & -> & Hsub11 & _).
  pose proof (owns_at_set_rack _ _ _ _ _ _ _ _ _ (current_player s) new_rack
                (remove_tiles rack (map tile_letter (tiles_placed move))
                 ++ new_tiles) Howns10 Hf11) as Howns12.
  simpl in Howns12.
  pose proof Howns10 as (Hl10 & _ & _ & _ & Hrk10 & _).
  simpl in Hl10.
  assert (new_rack <> next_state) as Hne1 by (intros ->; congruence).
  assert (new_rack <> rk') as Hne2 by (intros ->; congruence).
  match goal with
  | |- context [Store.get_state (<[new_rack := ?o]> ?hh) next_state] =>
      assert (Store.get_state (<[new_rack := o]> hh) next_state
              = Some (b', tp', rk', (3 - current_player s)%Z, sc', 0)) as ->;
        [apply get_state_inv; by rewrite lookup_insert_ne|];
      simpl;
      assert (Store.get_racks (<[new_rack := o]> hh) rk' = Some rd') as ->;
        [apply get_racks_inv; by rewrite lookup_insert_ne|];
      simpl
  end.
  pose proof Howns12 as (Hl12 & _). simpl in Hl12.
  rewrite (proj2 (get_state_inv _ _ _ _ _ _ _ _) Hl12). simpl.
  eexists _, next_state. split; [reflexivity|].
  eapply owns_at_represents.
  exact (owns_at_set_turn _ _ _ _ _ _ _ _ _ (3 - current_player s)%Z 0
           Howns12).
Qed.

(** [apply_move] as the Python runs it, on objects, and [apply_move] on
    values agree.  When the object at [self] stands for the state [s], the
    two raise for the same moves; otherwise the call on the store returns
    a new object that stands for the successor state the call on values
    returns, and the object at [self] still stands for [s]. *)
Theorem store_and_value_apply_move_agree (rng : nat -> nat) (h : Store.Heap)
    (self : Store.loc) (s : ScrabbleState) (move : Move) :
  Store.represents h self s ->
  match apply_move rng s move with
  | Some s' =>
      exists h' l',
        Store.apply_move rng h self move = Some (h', l')
        /\ h !! l' = None
        /\ Store.represents h' l' s'
        /\ Store.represents h' self s
  | None => Store.apply_move rng h self move = None
  end.
Proof.
  intros Hrep.
  pose proof (apply_move_store_agrees rng h self s move Hrep) as Hagree.
  destruct (apply_move rng s move) as [s'|]; [|done].
  destruct Hagree as (h' & l' & Hstore & Hrep').
  destruct (apply_move_frame _ _ _ _ _ _ Hstore) as [Hsub Hnew].
  exists h', l'. split; [done|]. split; [done|]. split; [done|].
  by eapply represents_weaken.
Qed.

Lemma store_and_value_apply_move_agree_witness :
  match apply_move (fun _ => 0) small_state small_place with
  | Some s' =>
      exists h' l',
        Store.apply_move (fun _ => 0) small_heap 0 small_place = Some (h', l')
        /\ small_heap !! l' = None
        /\ Store.represents h' l' s'
        /\ Store.represents h' 0 small_state
  | None => Store.apply_move (fun _ => 0) small_heap 0 small_place = None
  end.
Proof.
  apply (store_and_value_apply_move_agree (fun _ => 0) small_heap 0
           small_state small_place).
  exact small_heap_represents.
Defined.
